(** * DexAggregator: the quote aggregation engine and its HTTP surface

    A shallow embedding of the TypeScript backend:
    - [utils/calculations.ts]   ([getAmountOut]),
    - [utils/formatting.ts]     ([formatTokenAmount], [parseTokenAmount]),
    - [utils/validation.ts]     ([validateAddress]),
    - [config/tokens.ts]        ([TokenRegistry], [isNativeToken]),
    - [config/dexes.ts]         ([DEXES], [getV2Dexes], [getV3Dexes]),
    - [adapters/*.ts]           ([V2DexAdapter], [V3DexAdapter]),
    - [services/aggregatorService.ts] ([AggregatorService]),
    - [api/routes/aggregatorRoutes.ts] (the POST /quote handler).

    JavaScript values are modelled as follows.  A [bigint] is a [Z].  A
    string is a [string].  A finite [number] is the rational it denotes
    ([double]); every arithmetic operation on numbers rounds its exact
    result to binary64 with [round64].  A thrown exception is a value
    [Throw e] of [result].  Reads of the chain are answered by a [World];
    the ERC-20 calls the program issues are recorded in a log. *)

From Stdlib Require Import ZArith QArith Qabs Qround List String Ascii Bool Lia.
From Stdlib Require Import Permutation Sorted.
Import ListNotations.
Local Open Scope string_scope.
Local Open Scope Z_scope.

(** ** Exceptions *)

Record exn : Type := mkExn { exn_name : string; exn_message : string }.

Inductive result (A : Type) : Type :=
| Ok (a : A)
| Throw (e : exn).
Arguments Ok {A} a.
Arguments Throw {A} e.

Definition Error (msg : string) : exn := mkExn "Error" msg.
Definition RangeError (msg : string) : exn := mkExn "RangeError" msg.
Definition SyntaxError (msg : string) : exn := mkExn "SyntaxError" msg.

(** ** Strings *)

Definition is_upper (c : ascii) : bool :=
  let n := nat_of_ascii c in (65 <=? n)%nat && (n <=? 90)%nat.

Definition lower_char (c : ascii) : ascii :=
  if is_upper c then ascii_of_nat (nat_of_ascii c + 32) else c.

(** [String.prototype.toLowerCase] on the ASCII letters. *)
Fixpoint toLowerCase (s : string) : string :=
  match s with
  | EmptyString => EmptyString
  | String c r => String (lower_char c) (toLowerCase r)
  end.

Definition is_digit (c : ascii) : bool :=
  let n := nat_of_ascii c in (48 <=? n)%nat && (n <=? 57)%nat.

Definition digit_of_ascii (c : ascii) : Z := Z.of_nat (nat_of_ascii c) - 48.

Definition digit_char (d : Z) : ascii := ascii_of_nat (48 + Z.to_nat d).

Fixpoint all_digits (s : string) : bool :=
  match s with
  | EmptyString => true
  | String c r => is_digit c && all_digits r
  end.

(** The value of a string of decimal digits, most significant first. *)
Fixpoint digits_value_acc (s : string) (acc : Z) : Z :=
  match s with
  | EmptyString => acc
  | String c r => digits_value_acc r (10 * acc + digit_of_ascii c)
  end.

Definition digits_value (s : string) : Z := digits_value_acc s 0.

Fixpoint digits_fuel (fuel : nat) (n : Z) (acc : string) : string :=
  match fuel with
  | O => acc
  | S f =>
      let acc' := String (digit_char (n mod 10)) acc in
      if n <? 10 then acc' else digits_fuel f (n / 10) acc'
  end.

(** The decimal digits of a natural number ("0" for zero). *)
Definition digits (n : Z) : string :=
  digits_fuel (S (Z.to_nat (Z.log2 n))) n EmptyString.

(** [BigInt.prototype.toString]. *)
Definition bigint_toString (z : Z) : string :=
  if z <? 0 then String "-" (digits (- z)) else digits z.

(** [s.startsWith('-')]. *)
Definition starts_with_minus (s : string) : bool :=
  match s with
  | String "-" _ => true
  | _ => false
  end.

(** [s.slice(1)]. *)
Definition drop_first (s : string) : string :=
  match s with
  | EmptyString => EmptyString
  | String _ r => r
  end.

(** [BigInt(s)] for the strings built from a sign and digits. *)
Definition BigInt_of_string (s : string) : result Z :=
  if String.eqb s EmptyString then Ok 0
  else if starts_with_minus s then
    let r := drop_first s in
    if all_digits r && negb (String.eqb r EmptyString)
    then Ok (- digits_value r)
    else Throw (SyntaxError ("Cannot convert " ++ s ++ " to a BigInt"))
  else
    if all_digits s then Ok (digits_value s)
    else Throw (SyntaxError ("Cannot convert " ++ s ++ " to a BigInt")).

Fixpoint zeros (n : nat) : string :=
  match n with
  | O => EmptyString
  | S k => String "0" (zeros k)
  end.

(** [s.padStart(n, '0')] and [s.padEnd(n, '0')]. *)
Definition padStart0 (s : string) (n : nat) : string :=
  (zeros (n - String.length s) ++ s)%string.
Definition padEnd0 (s : string) (n : nat) : string :=
  (s ++ zeros (n - String.length s))%string.

(** [s.slice(i)] for [0 <= i]. *)
Definition slice_from (i : nat) (s : string) : string :=
  substring i (String.length s - i) s.

(** [s.replace(/(0+)$/, '')]. *)
Fixpoint trim_trailing_zeros (s : string) : string :=
  match s with
  | EmptyString => EmptyString
  | String c r =>
      match trim_trailing_zeros r with
      | EmptyString => if Ascii.eqb c "0" then EmptyString else String c EmptyString
      | r' => String c r'
      end
  end.

(** [s.split('.')] restricted to its first two pieces. *)
Fixpoint split_dot (s : string) : string * option string :=
  match s with
  | EmptyString => (EmptyString, None)
  | String c r =>
      if Ascii.eqb c "." then (EmptyString, Some r)
      else let '(a, b) := split_dot r in (String c a, b)
  end.

(** ** Numbers: finite binary64 values as rationals *)

Definition double : Type := Q.

Definition Qlt_bool (x y : Q) : bool := negb (Qle_bool y x).

Definition pow2Q (e : Z) : Q :=
  if 0 <=? e then inject_Z (2 ^ e) else 1 # Z.to_pos (2 ^ (- e)).

Definition pow10Q (e : Z) : Q :=
  if 0 <=? e then inject_Z (10 ^ e) else 1 # Z.to_pos (10 ^ (- e)).

(** [floor (log2 (p / q))]. *)
Definition floor_log2 (p q : positive) : Z :=
  let e0 := Z.log2 (Zpos p) - Z.log2 (Zpos q) in
  if 0 <=? e0
  then (if Zpos q * 2 ^ e0 <=? Zpos p then e0 else e0 - 1)
  else (if Zpos q <=? Zpos p * 2 ^ (- e0) then e0 else e0 - 1).

(** The integer nearest to [a / b], ties to the even one ([0 <= a], [0 < b]). *)
Definition round_half_even (a b : Z) : Z :=
  let fl := a / b in
  let r := a mod b in
  if 2 * r <? b then fl
  else if b <? 2 * r then fl + 1
  else if Z.even fl then fl else fl + 1.

(** Rounding of a positive rational to binary64: 53 significant bits, least
    exponent -1074, round to nearest, ties to even. *)
Definition round64_pos (p q : positive) : Q :=
  let e := floor_log2 p q in
  let t := Z.max (e - 52) (-1074) in
  let m := if 0 <=? t
           then round_half_even (Zpos p) (Zpos q * 2 ^ t)
           else round_half_even (Zpos p * 2 ^ (- t)) (Zpos q) in
  Qred (inject_Z m * pow2Q t).

(** Rounding to binary64; the rational is first brought to lowest terms. *)
Definition round64 (x : Q) : double :=
  let r := Qred x in
  match Qnum r with
  | Z0 => 0%Q
  | Zpos p => round64_pos p (Qden r)
  | Zneg p => Qopp (round64_pos p (Qden r))
  end.

(** [Number(z)] for a bigint [z]. *)
Definition Number_of_bigint (z : Z) : double := round64 (inject_Z z).

(** [x / y] on numbers, [y] not zero. *)
Definition number_div (x y : double) : double := round64 (x / y).

(** [floor (log10 x)] for [0 < x]. *)
Definition floor_log10 (x : Q) : Z :=
  match Qnum x with
  | Zpos p =>
      let e0 := (floor_log2 p (Qden x) * 30103) / 100000 in
      if Qle_bool (pow10Q (e0 + 1)) x then e0 + 1
      else if Qle_bool (pow10Q e0) x then e0
      else e0 - 1
  | _ => 0
  end.

(** The number denoted by the decimal literal [ip.fp]. *)
Definition decimal_value (ip fp : string) : Q :=
  inject_Z (digits_value ip)
  + inject_Z (digits_value fp) / inject_Z (10 ^ Z.of_nat (String.length fp)).

(** [Math.round]: the nearest integer, ties upwards. *)
Definition Math_round (x : double) : Z := Qfloor (x + (1 # 2)).

(** The digits [s], their number [k] and the exponent [n] of
    [Number::toString]: [s * 10^(n-k)] is the shortest decimal that reads back
    as [x]. *)
Fixpoint shortest_digits (fuel : nat) (k : Z) (x : Q) (n : Z) : Z * Z :=
  let scale := pow10Q (n - k) in
  let lo := Qfloor (x / scale) in
  let hi := lo + 1 in
  let ok (s : Z) := Qeq_bool (round64 (inject_Z s * scale)) x in
  let dlo := (x - inject_Z lo * scale)%Q in
  let dhi := (inject_Z hi * scale - x)%Q in
  let pick (s : Z) := if s =? 10 ^ k then (10 ^ (k - 1), n + 1) else (s, n) in
  match fuel with
  | O => pick lo
  | S f =>
      if ok lo && ok hi then
        (if Qlt_bool dlo dhi then pick lo
         else if Qlt_bool dhi dlo then pick hi
         else if Z.even lo then pick lo else pick hi)
      else if ok lo then pick lo
      else if ok hi then pick hi
      else shortest_digits f (k + 1) x (n)
  end.

Definition exponent_suffix (e : Z) : string :=
  let sign := if 0 <=? e then "+"%string else "-"%string in
  String "e" (sign ++ digits (Z.abs e)).

(** [Number::toString] for a positive number. *)
Definition Number_toString_pos (x : Q) : string :=
  let '(s, n) := shortest_digits 17 1 x (floor_log10 x + 1) in
  let ds := digits s in
  let k := Z.of_nat (String.length ds) in
  if (k <=? n) && (n <=? 21) then (ds ++ zeros (Z.to_nat (n - k)))%string
  else if (0 <? n) && (n <=? 21) then
    (substring 0 (Z.to_nat n) ds ++ "." ++ slice_from (Z.to_nat n) ds)%string
  else if (-6 <? n) && (n <=? 0) then
    ("0." ++ zeros (Z.to_nat (- n)) ++ ds)%string
  else if k =? 1 then (ds ++ exponent_suffix (n - 1))%string
  else (substring 0 1 ds ++ "." ++ slice_from 1 ds ++ exponent_suffix (n - 1))%string.

(** [String(x)], as in a template literal. *)
Definition Number_toString (x : double) : string :=
  match Qnum x with
  | Z0 => "0"
  | Zpos _ => Number_toString_pos x
  | Zneg _ => String "-" (Number_toString_pos (Qabs x))
  end.

(** The decimal notation of [n / 10^f] with exactly [f] fractional digits:
    the digits of [n], padded on the left to [f + 1] digits, with a dot
    before the last [f] of them. *)
Definition fixed_digits (n : Z) (f : nat) : string :=
  let m := digits n in
  if (f =? 0)%nat then m
  else
    let m := if (String.length m <=? f)%nat
             then (zeros (f + 1 - String.length m) ++ m)%string else m in
    let k := String.length m in
    (substring 0 (k - f) m ++ "." ++ slice_from (k - f) m)%string.

(** [x.toFixed(f)] for [0 <= f <= 100]. *)
Definition toFixed (x : double) (f : nat) : string :=
  let ax := Qabs x in
  let m :=
    if Qle_bool (inject_Z (10 ^ 21)) ax then Number_toString ax
    else
      let n := Qfloor (ax * inject_Z (10 ^ Z.of_nat f) + (1 # 2)) in
      fixed_digits n f in
  if Qlt_bool x 0 then String "-" m else m.

(** [x.toExponential(f)] for [0 <= f <= 100]. *)
Definition toExponential (x : double) (f : nat) : string :=
  let ax := Qabs x in
  let '(m, e) :=
    if Qeq_bool ax 0 then (zeros (f + 1), 0)
    else
      let e := floor_log10 ax in
      let n := Qfloor (ax / pow10Q (e - Z.of_nat f) + (1 # 2)) in
      if 10 ^ (Z.of_nat f + 1) <=? n then (digits (n / 10), e + 1) else (digits n, e) in
  let m := if (f =? 0)%nat then m
           else (substring 0 1 m ++ "." ++ slice_from 1 m)%string in
  let m := (m ++ exponent_suffix e)%string in
  if Qlt_bool x 0 then String "-" m else m.

(** The longest prefix of [s] made of digits. *)
Fixpoint take_digits (s : string) : string :=
  match s with
  | EmptyString => EmptyString
  | String c r => if is_digit c then String c (take_digits r) else EmptyString
  end.

(** [parseFloat] on the literals [-?digits(.digits)?]; [None] is NaN. *)
Definition starts_with_plus (s : string) : bool :=
  match s with
  | String "+" _ => true
  | _ => false
  end.

Definition parseFloat (s : string) : option double :=
  let neg := starts_with_minus s in
  let body := if neg || starts_with_plus s then drop_first s else s in
  let ip := take_digits body in
  let fp := match slice_from (String.length ip) body with
            | String "." r => take_digits r
            | _ => EmptyString
            end in
  if String.eqb ip EmptyString && String.eqb fp EmptyString then None
  else
    let v := round64 (decimal_value ip fp) in
    Some (if neg then Qopp v else v).

(** ** viem: [parseUnits] and [formatUnits] *)

(** The test of viem's decimal pattern: an optional minus sign, digits, an
    optional dot, digits. *)
Definition valid_decimal (value : string) : bool :=
  let body := if starts_with_minus value then drop_first value else value in
  let '(i, f) := split_dot body in
  all_digits i && match f with None => true | Some f => all_digits f end.

Definition parseUnits (value : string) (decimals : nat) : result Z :=
  if negb (valid_decimal value) then
    Throw (mkExn "InvalidDecimalNumberError"
             ("Number `" ++ value ++ "` is not a valid decimal number."))
  else
    let '(integer, fr) := split_dot value in
    let fraction := match fr with Some f => f | None => "0" end in
    let negative := starts_with_minus integer in
    let integer := if negative then drop_first integer else integer in
    let fraction := trim_trailing_zeros fraction in
    let '(integer, fraction) :=
      if (decimals =? 0)%nat then
        ((if Math_round (round64 (decimal_value EmptyString fraction)) =? 1
          then bigint_toString (digits_value integer + 1) else integer),
         EmptyString)
      else if (decimals <? String.length fraction)%nat then
        let left := substring 0 (decimals - 1) fraction in
        let unit := substring (decimals - 1) 1 fraction in
        let right := slice_from decimals fraction in
        let rounded := Math_round (round64 (decimal_value unit right)) in
        let fraction :=
          if 9 <? rounded
          then padStart0 (bigint_toString (digits_value left + 1) ++ "0")
                 (String.length left + 1)
          else (left ++ bigint_toString rounded)%string in
        let '(integer, fraction) :=
          if (decimals <? String.length fraction)%nat
          then (bigint_toString (digits_value integer + 1), slice_from 1 fraction)
          else (integer, fraction) in
        (integer, substring 0 decimals fraction)
      else (integer, padEnd0 fraction decimals) in
    BigInt_of_string ((if negative then "-" else "") ++ integer ++ fraction).

Definition formatUnits (value : Z) (decimals : nat) : string :=
  let display := bigint_toString value in
  let negative := starts_with_minus display in
  let display := if negative then drop_first display else display in
  let display := padStart0 display decimals in
  let integer := substring 0 (String.length display - decimals) display in
  let fraction := slice_from (String.length display - decimals) display in
  let fraction := trim_trailing_zeros fraction in
  ((if negative then "-" else "")
   ++ (if String.eqb integer EmptyString then "0" else integer)
   ++ (if String.eqb fraction EmptyString then "" else String "." fraction))%string.

(** ** utils/formatting.ts *)

(** [formatTokenAmount(amount, decimals, maxDecimals = 6)]. *)
Definition formatTokenAmount_max (amount : Z) (decimals maxDecimals : nat) : string :=
  let formatted := formatUnits amount decimals in
  match parseFloat formatted with
  | None => "NaN"
  | Some num =>
      if Qeq_bool num 0 then "0"
      else if Qlt_bool num (round64 (1 # 1000000)) then toExponential num 4
      else toFixed num (Nat.min maxDecimals decimals)
  end.

Definition formatTokenAmount (amount : Z) (decimals : nat) : string :=
  formatTokenAmount_max amount decimals 6.

Definition parseTokenAmount (amount : string) (decimals : nat) : result Z :=
  parseUnits amount decimals.

(** ** utils/calculations.ts *)

(** [a / b] on bigints: truncation towards zero; a zero divisor throws. *)
Definition bigint_div (a b : Z) : result Z :=
  if b =? 0 then Throw (RangeError "Division by zero") else Ok (Z.quot a b).

Definition getAmountOut (amountIn reserveIn reserveOut : Z) : result Z :=
  if amountIn <=? 0 then Throw (Error "Insufficient input amount")
  else if (reserveIn <=? 0) || (reserveOut <=? 0) then
    Throw (Error "Insufficient liquidity")
  else
    let amountInWithFee := amountIn * 997 in
    let numerator := amountInWithFee * reserveOut in
    let denominator := reserveIn * 1000 + amountInWithFee in
    bigint_div numerator denominator.

(** ** types/common.ts *)

Record Token : Type := mkToken {
  address : string;
  symbol : string;
  name : string;
  decimals : nat;
  isNative : bool
}.

Inductive DexVersion : Type := v2 | v3.

Definition DexVersion_eqb (a b : DexVersion) : bool :=
  match a, b with
  | v2, v2 | v3, v3 => true
  | _, _ => false
  end.

Record DexConfig : Type := mkDexConfig {
  dex_name : string;
  version : DexVersion;
  factoryAddress : string;
  routerAddress : option string;
  quoterAddress : option string;
  initCodeHash : option string
}.

(** ** adapters/DexAdapter.ts: the quote of one venue *)

Inductive DexKind : Type := V2 | V3.

Inductive WarningLevel : Type :=
| low | medium | high | very_high | extreme.

Record PriceImpactWarning : Type := mkWarning {
  level : WarningLevel;
  message : string;
  shouldWarn : bool;
  shouldBlock : bool
}.

Record DexQuote : Type := mkDexQuote {
  dex : DexKind;
  dexName : string;
  amountOut : Z;
  priceImpact : double;
  priceImpactWarning : option PriceImpactWarning;
  gasEstimate : option Z;
  feeTier : option Z;
  poolAddress : option string
}.

(** ** The world outside the repository *)

(** [process.env]. *)
Record Env : Type := mkEnv {
  FACTORY_ADDRESS : option string;
  ROUTER_ADDRESS : option string;
  INIT_CODE_HASH : option string;
  V3_FACTORY_ADDRESS : option string;
  V3_QUOTER_ADDRESS : option string;
  V3_SWAP_ROUTER_ADDRESS : option string
}.

(** What [V2DexAdapter.getQuote] learns from [V2Service] ([getPair],
    [getQuote], [getPairData]) and from [calculateV2PriceImpact]. *)
Record V2Reads : Type := mkV2Reads {
  v2_pairAddress : string;
  v2_amountOut : Z;
  v2_priceImpact : double
}.

(** What [V3DexAdapter.getQuote] learns from [V3Service] ([getPool],
    [getPoolData], [quoteExactInputSingle]) and from
    [calculateV3PriceImpactSimple]. *)
Record V3Reads : Type := mkV3Reads {
  v3_poolAddress : string;
  v3_amountOut : Z;
  v3_priceImpact : double;
  v3_gasEstimate : Z
}.

(** The router call handed to viem's [encodeFunctionData]. *)
Inductive SwapCall : Type :=
| exactInputSingle (tokenIn tokenOut : string) (fee : option Z)
    (recipient : string) (deadline amountIn amountOutMinimum sqrtPriceLimitX96 : Z)
| swapExactETHForTokens (amountOutMin : Z) (path : list string)
    (to : string) (deadline : Z)
| swapExactTokensForETH (amountIn amountOutMin : Z) (path : list string)
    (to : string) (deadline : Z)
| swapExactTokensForTokens (amountIn amountOutMin : Z) (path : list string)
    (to : string) (deadline : Z).

(** The chain as one request sees it, the environment, the clock, and the
    two routines of viem that rest on keccak-256.  Addresses are passed to
    the reads as the program passes them. *)
Record World : Type := mkWorld {
  env : Env;
  Date_now : Z;
  checksumAddress : string -> string;
  encodeFunctionData : SwapCall -> result string;
  erc20_name : string -> result string;
  erc20_symbol : string -> result string;
  erc20_decimals : string -> result Z;
  erc20_allowance : string -> string -> string -> result Z;
  v2_reads : DexConfig -> string -> string -> Z -> result V2Reads;
  v3_reads : DexConfig -> string -> string -> Z -> Z -> result V3Reads
}.

(** ** Effects: the log of ERC-20 calls, and exceptions *)

Inductive Erc20Fn : Type :=
| fn_name
| fn_symbol
| fn_decimals
| fn_allowance (owner spender : string).

Record Call : Type := mkCall { call_target : string; call_fn : Erc20Fn }.

Definition M (A : Type) : Type := list Call -> result A * list Call.

Definition ret {A : Type} (a : A) : M A := fun l => (Ok a, l).

Definition throw {A : Type} (e : exn) : M A := fun l => (Throw e, l).

Definition lift {A : Type} (r : result A) : M A := fun l => (r, l).

Definition bind {A B : Type} (m : M A) (k : A -> M B) : M B :=
  fun l =>
    match m l with
    | (Ok a, l') => k a l'
    | (Throw e, l') => (Throw e, l')
    end.

Notation "x <- m ;; k" := (bind m (fun x => k))
  (at level 61, m at next level, right associativity).
Notation "' p <- m ;; k" := (bind m (fun x => let 'p := x in k))
  (at level 61, p pattern, m at next level, right associativity).

(** [try { m } catch (e) { h e }]. *)
Definition try_catch {A : Type} (m : M A) (h : exn -> M A) : M A :=
  fun l =>
    match m l with
    | (Ok a, l') => (Ok a, l')
    | (Throw e, l') => h e l'
    end.

(** A contract read: the call is issued, then answered by the world. *)
Definition read {A : Type} (c : Call) (answer : result A) : M A :=
  fun l => (answer, (l ++ [c])%list).

(** [Promise.all([ma, mb])]: both computations run; the first failure, in
    the order of the array, is the failure of the whole. *)
Definition par {A B : Type} (ma : M A) (mb : M B) : M (A * B) :=
  fun l =>
    let '(ra, l1) := ma l in
    let '(rb, l2) := mb l1 in
    (match ra, rb with
     | Ok a, Ok b => Ok (a, b)
     | Throw e, _ => Throw e
     | _, Throw e => Throw e
     end, l2).

(** [Promise.all(ms)]. *)
Fixpoint promise_all {A : Type} (ms : list (M A)) : M (list A) :=
  match ms with
  | [] => ret []
  | m :: rest =>
      fun l =>
        let '(ra, l1) := m l in
        let '(rs, l2) := promise_all rest l1 in
        (match ra, rs with
         | Ok a, Ok xs => Ok (a :: xs)
         | Throw e, _ => Throw e
         | _, Throw e => Throw e
         end, l2)
  end.

(** ** utils/validation.ts *)

Definition is_hex_char (c : ascii) : bool :=
  let n := nat_of_ascii c in
  ((48 <=? n) && (n <=? 57) || (65 <=? n) && (n <=? 70)
   || (97 <=? n) && (n <=? 102))%nat.

Fixpoint all_hex (s : string) : bool :=
  match s with
  | EmptyString => true
  | String c r => is_hex_char c && all_hex r
  end.

(** viem's address pattern: [0x] and forty hexadecimal digits. *)
Definition addressRegex (a : string) : bool :=
  match a with
  | String "0" (String "x" r) => all_hex r && (String.length r =? 40)%nat
  | _ => false
  end.

(** viem's [isAddress(address, { strict })]. *)
Definition isAddress (w : World) (strict : bool) (a : string) : bool :=
  if negb (addressRegex a) then false
  else if String.eqb (toLowerCase a) a then true
  else if strict then String.eqb (checksumAddress w a) a
  else true.

(** viem's [getAddress]. *)
Definition getAddress (w : World) (a : string) : result string :=
  if negb (isAddress w false a)
  then Throw (mkExn "InvalidAddressError" ("Address " ++ a ++ " is invalid."))
  else Ok (checksumAddress w a).

Definition validateAddress (w : World) (a : string) : result string :=
  if negb (isAddress w true a) then Throw (Error ("Invalid address: " ++ a))
  else getAddress w a.

(** ** config/tokens.ts *)

Definition MAINNET_TOKENS : list (string * Token) :=
  [ ("DOT", mkToken "0xEeeeeEeeeEeEeeEeEeEeeEEEeeeeEeeeeeeeEEeE" "DOT" "Polkadot" 18 true);
    ("WBTC", mkToken "0xF8Eb4Ed0d4CF2bb707c0272F8C6827dEB6e4c0A9" "WBTC" "Wrapped Bitcoin" 8 false);
    ("USDC", mkToken "0xa16148c6Ac9EDe0D82f0c52899e22a575284f131" "USDC" "USD Coin" 6 false);
    ("WETH", mkToken "0x50498dC52bCd3dAeB54B7225A7d2FA8D536F313E" "WETH" "Wrapped Ether" 18 false);
    ("USDT", mkToken "0x9F8CF9c00fac501b3965872f4ed3271f6f4d06fF" "USDT" "Tether" 6 false);
    ("DAI", mkToken "0xDc556F7209C48fC53a8cDf1339c033743A7e3e75" "DAI" "Dai Stablecoin" 18 false);
    ("FDUSD", mkToken "0xE5747226D2005d7f0865780E8517397de66f2a76" "FDUSD" "First Digital USD" 18 false) ].

(** [TokenRegistry.getByAddress]: the first token of the table whose address
    equals the given one, both in lower case. *)
Definition getByAddress (tokens : list (string * Token)) (a : string) : option Token :=
  let normalizedAddress := toLowerCase a in
  find (fun token => String.eqb (toLowerCase (address token)) normalizedAddress)
       (map snd tokens).

Definition NATIVE_TOKEN_ADDRESS : string := "0xEeeeeEeeeEeEeeEeEeEeeEEEeeeeEeeeeeeeEEeE".

Definition isNativeToken (tokenAddress : string) : bool :=
  String.eqb (toLowerCase tokenAddress) (toLowerCase NATIVE_TOKEN_ADDRESS).

(** ** config/dexes.ts *)

Definition or_empty (v : option string) : string :=
  match v with
  | Some s => if String.eqb s "" then "" else s
  | None => ""
  end.

Definition UNISWAP_V2_FORK1 (e : Env) : DexConfig :=
  mkDexConfig "Hammy Swap" v2 (or_empty (FACTORY_ADDRESS e))
    (Some (or_empty (ROUTER_ADDRESS e))) None (Some (or_empty (INIT_CODE_HASH e))).

Definition UNISWAP_V3_FORK1 (e : Env) : DexConfig :=
  mkDexConfig "Surge Dex" v3 (or_empty (V3_FACTORY_ADDRESS e))
    (Some (or_empty (V3_SWAP_ROUTER_ADDRESS e)))
    (Some (or_empty (V3_QUOTER_ADDRESS e))) None.

Definition DEXES (e : Env) : list DexConfig :=
  [UNISWAP_V2_FORK1 e; UNISWAP_V3_FORK1 e].

Definition getV2Dexes (e : Env) : list DexConfig :=
  filter (fun d => DexVersion_eqb (version d) v2) (DEXES e).

Definition getV3Dexes (e : Env) : list DexConfig :=
  filter (fun d => DexVersion_eqb (version d) v3) (DEXES e).

(** ** utils/priceImpact.ts *)

Definition getPriceImpactWarning (priceImpact : double) : PriceImpactWarning :=
  if Qlt_bool priceImpact 1 then mkWarning low "Low price impact" false false
  else if Qlt_bool priceImpact 3 then mkWarning medium "Medium price impact" true false
  else if Qlt_bool priceImpact 5 then mkWarning high "High price impact" true false
  else if Qlt_bool priceImpact 15 then
    mkWarning very_high
      "Very high price impact - you may lose a significant portion of your funds"
      true false
  else
    mkWarning extreme
      "Extreme price impact - this trade will result in major losses" true true.

(** ** services/v2Service.ts, services/v3Service.ts: [getTokenInfo]

    The two services define the same method. *)

Definition Service_getTokenInfo (w : World) (tokenAddress : string) : M Token :=
  address <- lift (validateAddress w tokenAddress) ;;
  '(name, (symbol, decimals)) <-
    par (read (mkCall address fn_name) (erc20_name w address))
      (par (read (mkCall address fn_symbol) (erc20_symbol w address))
           (read (mkCall address fn_decimals) (erc20_decimals w address))) ;;
  ret (mkToken address symbol name (Z.to_nat decimals) false).

(** ** adapters/V2DexAdapter.ts, adapters/V3DexAdapter.ts *)

Inductive DexAdapter : Type :=
| V2DexAdapter (config : DexConfig)
| V3DexAdapter (config : DexConfig).

Definition adapter_config (a : DexAdapter) : DexConfig :=
  match a with
  | V2DexAdapter c => c
  | V3DexAdapter c => c
  end.

Definition getName (a : DexAdapter) : string := dex_name (adapter_config a).

Definition getVersion (a : DexAdapter) : DexVersion := version (adapter_config a).

Definition V2DexAdapter_getQuote (w : World) (config : DexConfig)
    (tokenIn tokenOut : string) (amountIn : Z) : M DexQuote :=
  try_catch
    (r <- lift (v2_reads w config tokenIn tokenOut amountIn) ;;
     let priceImpact := v2_priceImpact r in
     let priceImpactWarning := getPriceImpactWarning priceImpact in
     ret (mkDexQuote V2 (dex_name config) (v2_amountOut r) priceImpact
            (Some priceImpactWarning) None None (Some (v2_pairAddress r))))
    (fun error =>
       throw (Error ("Failed to get quote from " ++ dex_name config ++ ": "
                     ++ exn_message error))).

Definition V2DexAdapter_getAllQuotes (w : World) (config : DexConfig)
    (tokenIn tokenOut : string) (amountIn : Z) : M (list DexQuote) :=
  try_catch
    (quote <- V2DexAdapter_getQuote w config tokenIn tokenOut amountIn ;;
     ret [quote])
    (fun _ => ret []).

Definition DEFAULT_FEE_TIERS : list Z := [100; 500; 3000; 10000].

Definition V3DexAdapter_getQuote (w : World) (config : DexConfig)
    (tokenIn tokenOut : string) (amountIn : Z) (feeTier : option Z) : M DexQuote :=
  match feeTier with
  | None => throw (Error "Fee tier is required for V3 quotes")
  | Some fee =>
      if fee =? 0 then throw (Error "Fee tier is required for V3 quotes")
      else
        try_catch
          (r <- lift (v3_reads w config tokenIn tokenOut amountIn fee) ;;
           let priceImpact := v3_priceImpact r in
           let priceImpactWarning := getPriceImpactWarning priceImpact in
           ret (mkDexQuote V3 (dex_name config) (v3_amountOut r) priceImpact
                  (Some priceImpactWarning) (Some (v3_gasEstimate r)) feeTier
                  (Some (v3_poolAddress r))))
          (fun error =>
             throw (Error ("Failed to get quote from " ++ dex_name config
                           ++ " (fee tier " ++ bigint_toString fee ++ "): "
                           ++ exn_message error)))
  end.

(** The quotes present in an array of quotes and nulls, in its order. *)
Fixpoint filter_not_null {A : Type} (l : list (option A)) : list A :=
  match l with
  | [] => []
  | Some a :: r => a :: filter_not_null r
  | None :: r => filter_not_null r
  end.

Definition V3DexAdapter_getAllQuotes (w : World) (config : DexConfig)
    (tokenIn tokenOut : string) (amountIn : Z) : M (list DexQuote) :=
  results <-
    promise_all
      (map (fun feeTier =>
              try_catch
                (q <- V3DexAdapter_getQuote w config tokenIn tokenOut amountIn
                        (Some feeTier) ;;
                 ret (Some q))
                (fun _ => ret None))
           DEFAULT_FEE_TIERS) ;;
  ret (filter_not_null results).

Definition adapter_getTokenInfo (w : World) (a : DexAdapter)
    (tokenAddress : string) : M Token :=
  Service_getTokenInfo w tokenAddress.

Definition adapter_getAllQuotes (w : World) (a : DexAdapter)
    (tokenIn tokenOut : string) (amountIn : Z) : M (list DexQuote) :=
  match a with
  | V2DexAdapter c => V2DexAdapter_getAllQuotes w c tokenIn tokenOut amountIn
  | V3DexAdapter c => V3DexAdapter_getAllQuotes w c tokenIn tokenOut amountIn
  end.

(** ** services/aggregatorService.ts *)

Record Savings : Type := mkSavings {
  percentage : double;
  absoluteAmount : Z
}.

Record AggregatedQuote : Type := mkAggregatedQuote {
  bestQuote : DexQuote;
  allQuotes : list DexQuote;
  agg_tokenIn : Token;
  agg_tokenOut : Token;
  agg_amountIn : Z;
  savings : Savings;
  recommendation : string
}.

(** [Map.prototype.set]: a present key keeps its place, a new one goes last. *)
Fixpoint map_set {V : Type} (m : list (string * V)) (k : string) (v : V)
  : list (string * V) :=
  match m with
  | [] => [(k, v)]
  | (k', v') :: r =>
      if String.eqb k' k then (k, v) :: r else (k', v') :: map_set r k v
  end.

Definition map_values {V : Type} (m : list (string * V)) : list V := map snd m.

(** The adapters of an [AggregatorService], in the order of its [Map]. *)
Record AggregatorService : Type := mkAggregatorService {
  adapters : list (string * DexAdapter)
}.

Definition new_AggregatorService (w : World) : AggregatorService :=
  let m := fold_left
             (fun m dexConfig => map_set m (dex_name dexConfig) (V2DexAdapter dexConfig))
             (getV2Dexes (env w)) [] in
  let m := fold_left
             (fun m dexConfig => map_set m (dex_name dexConfig) (V3DexAdapter dexConfig))
             (getV3Dexes (env w)) m in
  mkAggregatorService m.

Definition firstAdapter (s : AggregatorService) : option DexAdapter :=
  hd_error (map_values (adapters s)).

Definition AggregatorService_getTokenInfo (w : World) (s : AggregatorService)
    (tokenAddress : string) : M Token :=
  match firstAdapter s with
  | None => throw (Error "No DEX adapters configured to fetch token info")
  | Some a => adapter_getTokenInfo w a tokenAddress
  end.

Definition getAllQuotes (w : World) (s : AggregatorService)
    (tokenIn tokenOut : string) (amountIn : Z) : M (list DexQuote) :=
  results <-
    promise_all
      (map (fun adapter =>
              try_catch (adapter_getAllQuotes w adapter tokenIn tokenOut amountIn)
                        (fun _ => ret []))
           (map_values (adapters s))) ;;
  ret (List.concat results).

(** [array.reduce(f)] without an initial value, on a non-empty array. *)
Definition reduce {A : Type} (f : A -> A -> A) (l : list A) : option A :=
  match l with
  | [] => None
  | x :: r => Some (fold_left f r x)
  end.

Definition better (best current : DexQuote) : DexQuote :=
  if amountOut best <? amountOut current then current else best.

Definition worse (worst current : DexQuote) : DexQuote :=
  if amountOut current <? amountOut worst then current else worst.

Definition feePercent (q : DexQuote) : string :=
  match feeTier q with
  | Some f => toFixed (number_div (Number_of_bigint f) 10000%Q) 2
  | None => "NaN"
  end.

Definition make_recommendation (bestQuote : DexQuote) (savingsPercentage : double)
  : string :=
  let r := "Use " ++ dexName bestQuote in
  let r := match dex bestQuote with
           | V3 => r ++ " V3 (" ++ feePercent bestQuote ++ "% fee tier)"
           | V2 => r ++ " V2"
           end in
  if Qlt_bool 0 savingsPercentage
  then r ++ " for " ++ toFixed savingsPercentage 2 ++ "% better price"
  else r.

(** The part of [getAggregatedQuote] that follows the reads. *)
Definition aggregate (tokenIn tokenOut : Token) (amountIn : Z)
    (allQuotes : list DexQuote) : result AggregatedQuote :=
  if (List.length allQuotes =? 0)%nat
  then Throw (Error "No liquidity found for this token pair on any DEX")
  else
  match reduce better allQuotes, reduce worse allQuotes with
  | Some bestQuote, Some worstQuote =>
      let savingsAbsolute := amountOut bestQuote - amountOut worstQuote in
      match bigint_div (savingsAbsolute * 10000) (amountOut worstQuote) with
      | Throw e => Throw e
      | Ok hundredths =>
          let savingsPercentage := number_div (Number_of_bigint hundredths) 100%Q in
          Ok (mkAggregatedQuote bestQuote allQuotes tokenIn tokenOut amountIn
                (mkSavings savingsPercentage savingsAbsolute)
                (make_recommendation bestQuote savingsPercentage))
      end
  | _, _ => Throw (mkExn "TypeError" "Reduce of empty array with no initial value")
  end.

Definition getAggregatedQuote (w : World) (s : AggregatorService)
    (tokenInAddress tokenOutAddress : string) (amountIn : Z) : M AggregatedQuote :=
  match firstAdapter s with
  | None => throw (Error "No DEX adapters configured")
  | Some first =>
      '(tokenIn, tokenOut) <-
        par (adapter_getTokenInfo w first tokenInAddress)
            (adapter_getTokenInfo w first tokenOutAddress) ;;
      allQuotes <- getAllQuotes w s tokenInAddress tokenOutAddress amountIn ;;
      lift (aggregate tokenIn tokenOut amountIn allQuotes)
  end.

(** ** api/routes/aggregatorRoutes.ts: POST /quote *)

(** The request body; an absent field is [None]. *)
Record QuoteRequest : Type := mkQuoteRequest {
  req_tokenIn : option string;
  req_tokenOut : option string;
  req_amountIn : option string;
  req_slippage : option double;
  req_userAddress : option string
}.

Record TokenAmountJson : Type := mkTokenAmountJson {
  ta_address : string;
  ta_symbol : string;
  ta_amount : string;
  ta_amountWei : string
}.

Record TransactionJson : Type := mkTransactionJson {
  tx_to : option string;
  tx_data : string;
  tx_value : string;
  tx_from : string
}.

Record ApprovalJson : Type := mkApprovalJson {
  ap_needed : bool;
  ap_message : string;
  ap_token : option string;
  ap_spender : option string;
  ap_amount : option string
}.

Record RouteJson : Type := mkRouteJson {
  r_dex : DexKind;
  r_dexName : string;
  r_feeTier : option Z;
  r_amountOut : string;
  r_amountOutWei : string;
  r_priceImpact : string;
  r_gasEstimate : option string;
  r_poolAddress : option string;
  r_transaction : TransactionJson;
  r_approval : ApprovalJson
}.

Record SavingsJson : Type := mkSavingsJson {
  sv_percentage : string;
  sv_amount : string;
  sv_amountWei : string
}.

Record QuoteData : Type := mkQuoteData {
  d_tokenIn : TokenAmountJson;
  d_tokenOut : TokenAmountJson;
  d_bestRoute : RouteJson;
  d_allQuotes : list RouteJson;
  d_savings : SavingsJson;
  d_slippage : string;
  d_minimumAmountOut : string;
  d_minimumAmountOutWei : string;
  d_recommendation : string
}.

Inductive ResponseBody : Type :=
| Success (data : QuoteData)
| Failure (error : string).

Record HttpResponse : Type := mkHttpResponse {
  status : Z;
  body : ResponseBody
}.

(** The truth value of an optional string: absent and empty are false. *)
Definition truthy (s : option string) : bool :=
  match s with
  | Some s => negb (String.eqb s "")
  | None => false
  end.

Definition or_default (s : option string) : string :=
  match s with
  | Some s => s
  | None => ""
  end.

Definition ZERO_ADDRESS : string := "0x0000000000000000000000000000000000000000".

(** [x * y] on numbers. *)
Definition number_mul (x y : double) : double := round64 (x * y).

(** [(amountOut * (10000n - slippageBps)) / 10000n]. *)
Definition min_amount_out (amountOut slippageBps : Z) : Z :=
  Z.quot (amountOut * (10000 - slippageBps)) 10000.

(** The router, the calldata and the value of the swap for one quote.  The
    handler holds this code twice: once for the best quote, once in the
    loop over all the quotes. *)
Definition build_swap (w : World) (q : DexQuote) (tokenIn tokenOut : string)
    (amountInParsed minAmountOut deadline : Z) (isNative : bool)
  : result (option string * string * string) :=
  match dex q with
  | V3 =>
      match encodeFunctionData w
              (exactInputSingle tokenIn tokenOut (feeTier q) ZERO_ADDRESS deadline
                 amountInParsed minAmountOut 0) with
      | Throw e => Throw e
      | Ok calldata =>
          Ok (V3_SWAP_ROUTER_ADDRESS (env w), calldata,
              if isNative then bigint_toString amountInParsed else "0")
      end
  | V2 =>
      let path := [tokenIn; tokenOut] in
      if isNative then
        match encodeFunctionData w
                (swapExactETHForTokens minAmountOut path ZERO_ADDRESS deadline) with
        | Throw e => Throw e
        | Ok calldata =>
            Ok (ROUTER_ADDRESS (env w), calldata, bigint_toString amountInParsed)
        end
      else if isNativeToken tokenOut then
        match encodeFunctionData w
                (swapExactTokensForETH amountInParsed minAmountOut path ZERO_ADDRESS
                   deadline) with
        | Throw e => Throw e
        | Ok calldata => Ok (ROUTER_ADDRESS (env w), calldata, "0")
        end
      else
        match encodeFunctionData w
                (swapExactTokensForTokens amountInParsed minAmountOut path
                   ZERO_ADDRESS deadline) with
        | Throw e => Throw e
        | Ok calldata => Ok (ROUTER_ADDRESS (env w), calldata, "0")
        end
  end.

Definition checkApprovalNeeded (w : World) (isNative : bool)
    (userAddress : option string) (tokenIn : string) (amountInParsed : Z)
    (spenderAddress : option string) : M bool :=
  if isNative then ret false
  else if negb (truthy userAddress) then ret true
  else
    try_catch
      (currentAllowance <-
         match spenderAddress with
         | Some spender =>
             read (mkCall tokenIn (fn_allowance (or_default userAddress) spender))
                  (erc20_allowance w tokenIn (or_default userAddress) spender)
         | None =>
             throw (mkExn "InvalidAddressError" "Address undefined is invalid.")
         end ;;
       ret (currentAllowance <? amountInParsed))
      (fun _ => ret true).

Definition approval_json (needsApproval : bool) (tokenInSymbol : string)
    (userAddress : option string) (tokenIn : string) (spender : option string)
    (amountInParsed : Z) : ApprovalJson :=
  if needsApproval then
    mkApprovalJson true ("Approval required for " ++ tokenInSymbol)
      (Some tokenIn) spender (Some (bigint_toString amountInParsed))
  else
    mkApprovalJson false
      (if truthy userAddress then tokenInSymbol ++ " already approved"
       else "No approval needed for native token")
      None None None.

Definition route_json (q : DexQuote) (tokenOutDecimals : nat)
    (t : TransactionJson) (a : ApprovalJson) : RouteJson :=
  mkRouteJson (dex q) (dexName q) (feeTier q)
    (formatTokenAmount (amountOut q) tokenOutDecimals)
    (bigint_toString (amountOut q))
    (toFixed (priceImpact q) 4 ++ "%")
    (option_map bigint_toString (gasEstimate q))
    (poolAddress q) t a.

(** The body of the [map] over [quote.allQuotes]. *)
Definition format_quote (w : World) (quote : AggregatedQuote)
    (tokenIn tokenOut : string) (userAddress : option string)
    (amountInParsed slippageBps deadline : Z) (isNative : bool) (q : DexQuote)
  : M RouteJson :=
  let quoteMinAmountOut := min_amount_out (amountOut q) slippageBps in
  '(quoteRouterAddress, quoteCalldata, quoteValueToSend) <-
    lift (build_swap w q tokenIn tokenOut amountInParsed quoteMinAmountOut deadline
            isNative) ;;
  needsApprovalForRoute <-
    checkApprovalNeeded w isNative userAddress tokenIn amountInParsed
      quoteRouterAddress ;;
  ret (route_json q (decimals (agg_tokenOut quote))
         (mkTransactionJson quoteRouterAddress quoteCalldata quoteValueToSend
            ZERO_ADDRESS)
         (approval_json needsApprovalForRoute (symbol (agg_tokenIn quote))
            userAddress tokenIn quoteRouterAddress amountInParsed)).

Definition bad_request (msg : string) : HttpResponse :=
  mkHttpResponse 400 (Failure msg).

(** The decimals of the input token: the registry first, the chain next. *)
Definition resolve_decimals (w : World) (s : AggregatorService) (tokenIn : string)
  : M (nat + HttpResponse) :=
  match getByAddress MAINNET_TOKENS tokenIn with
  | Some knownTokenIn => ret (inl (decimals knownTokenIn))
  | None =>
      try_catch
        (tokenInfo <- AggregatorService_getTokenInfo w s tokenIn ;;
         ret (inl (decimals tokenInfo)))
        (fun _ =>
           ret (inr (bad_request
                       ("Unable to fetch token decimals for tokenIn: " ++ tokenIn))))
  end.

(** The handler is cut at its [await]s into three stages: [respond] follows
    the aggregated quote, [quote_for_amount] follows the decimals of the
    input token, [post_quote_body] is the whole [try] block. *)
Definition respond (w : World) (quote : AggregatedQuote)
    (tokenIn tokenOut amountIn : string) (amountInParsed : Z) (slippage : double)
    (userAddress : option string) : M HttpResponse :=
  let slippageBps := Qfloor (number_mul slippage 100%Q) in
  let minimumAmountOut :=
    min_amount_out (amountOut (bestQuote quote)) slippageBps in
  let deadline :=
    Qfloor (number_div (Number_of_bigint (Date_now w)) 1000%Q) + 1800 in
  let isNative := isNativeToken tokenIn in
  '(routerAddress, swapCalldata, valueToSend) <-
    lift (build_swap w (bestQuote quote) tokenIn tokenOut amountInParsed
            minimumAmountOut deadline isNative) ;;
  formattedQuotes <-
    promise_all
      (map (format_quote w quote tokenIn tokenOut userAddress
              amountInParsed slippageBps deadline isNative)
           (allQuotes quote)) ;;
  bestRouteNeedsApproval <-
    checkApprovalNeeded w isNative userAddress tokenIn amountInParsed
      routerAddress ;;
  let tokenOutDecimals := decimals (agg_tokenOut quote) in
  ret (mkHttpResponse 200
         (Success
            (mkQuoteData
               (mkTokenAmountJson (address (agg_tokenIn quote))
                  (symbol (agg_tokenIn quote)) amountIn
                  (bigint_toString amountInParsed))
               (mkTokenAmountJson (address (agg_tokenOut quote))
                  (symbol (agg_tokenOut quote))
                  (formatTokenAmount (amountOut (bestQuote quote))
                     tokenOutDecimals)
                  (bigint_toString (amountOut (bestQuote quote))))
               (route_json (bestQuote quote) tokenOutDecimals
                  (mkTransactionJson routerAddress swapCalldata valueToSend
                     ZERO_ADDRESS)
                  (approval_json bestRouteNeedsApproval
                     (symbol (agg_tokenIn quote)) userAddress tokenIn
                     routerAddress amountInParsed))
               formattedQuotes
               (mkSavingsJson
                  (toFixed (percentage (savings quote)) 2 ++ "%")
                  (formatTokenAmount (absoluteAmount (savings quote))
                     tokenOutDecimals)
                  (bigint_toString (absoluteAmount (savings quote))))
               (Number_toString slippage ++ "%")
               (formatTokenAmount minimumAmountOut tokenOutDecimals)
               (bigint_toString minimumAmountOut)
               (recommendation quote)))).

Definition quote_for_amount (w : World) (s : AggregatorService)
    (tokenIn tokenOut amountIn : string) (tokenInDecimals : nat)
    (slippage : double) (userAddress : option string) : M HttpResponse :=
  amountInParsed <- lift (parseUnits amountIn tokenInDecimals) ;;
  quote <- getAggregatedQuote w s tokenIn tokenOut amountInParsed ;;
  respond w quote tokenIn tokenOut amountIn amountInParsed slippage userAddress.

Definition post_quote_body (w : World) (s : AggregatorService)
    (req : QuoteRequest) : M HttpResponse :=
  let slippage := match req_slippage req with Some x => x | None => (1 # 2)%Q end in
  let userAddress := req_userAddress req in
  if negb (truthy (req_tokenIn req)) || negb (truthy (req_tokenOut req))
     || negb (truthy (req_amountIn req))
  then ret (bad_request "tokenIn, tokenOut, and amountIn are required")
  else if Qlt_bool slippage 0 || Qlt_bool 100 slippage
  then ret (bad_request "slippage must be between 0 and 100")
  else
    let tokenIn := or_default (req_tokenIn req) in
    let tokenOut := or_default (req_tokenOut req) in
    let amountIn := or_default (req_amountIn req) in
    d <- resolve_decimals w s tokenIn ;;
    match d with
    | inr response => ret response
    | inl tokenInDecimals =>
        quote_for_amount w s tokenIn tokenOut amountIn tokenInDecimals slippage
          userAddress
    end.

Definition post_quote_handler (w : World) (s : AggregatorService)
    (req : QuoteRequest) : M HttpResponse :=
  try_catch (post_quote_body w s req)
    (fun error => ret (bad_request (exn_message error))).

(** One request served by a freshly started server: the response and the
    ERC-20 calls issued on the way.  Express answers 500 when an exception
    escapes a handler. *)
Definition post_quote (w : World) (req : QuoteRequest) : HttpResponse * list Call :=
  match post_quote_handler w (new_AggregatorService w) req [] with
  | (Ok response, calls) => (response, calls)
  | (Throw e, calls) => (mkHttpResponse 500 (Failure (exn_message e)), calls)
  end.

(** ** Example worlds

    A chain with the V2 pair and two V3 pools for WETH and the native token.
    [example_checksum] gives the EIP-55 form of the three addresses the
    examples use and leaves an address without letters as it is;
    [example_encode] answers with the selector of the router function. *)

Definition WETH : string := "0x50498dC52bCd3dAeB54B7225A7d2FA8D536F313E".
Definition USDC : string := "0xa16148c6Ac9EDe0D82f0c52899e22a575284f131".

Definition example_checksum (a : string) : string :=
  match find (fun c => String.eqb (toLowerCase c) (toLowerCase a))
             [NATIVE_TOKEN_ADDRESS; WETH; USDC] with
  | Some c => c
  | None => toLowerCase a
  end.

Definition example_encode (c : SwapCall) : result string :=
  Ok match c with
     | exactInputSingle _ _ _ _ _ _ _ _ => "0x414bf389"
     | swapExactETHForTokens _ _ _ _ => "0x7ff36ab5"
     | swapExactTokensForETH _ _ _ _ _ => "0x18cbafe5"
     | swapExactTokensForTokens _ _ _ _ _ => "0x38ed1739"
     end.

Definition example_env : Env :=
  mkEnv (Some "0x1000000000000000000000000000000000000001")
        (Some "0x1000000000000000000000000000000000000002")
        None
        (Some "0x3000000000000000000000000000000000000001")
        (Some "0x3000000000000000000000000000000000000002")
        (Some "0x3000000000000000000000000000000000000003").

Definition example_symbol (a : string) : result string :=
  if isNativeToken a then Ok "Polakdot"
  else if String.eqb (toLowerCase a) (toLowerCase WETH) then Ok "WETH"
  else Throw (Error "execution reverted").

Definition example_decimals (a : string) : result Z :=
  if isNativeToken a || String.eqb (toLowerCase a) (toLowerCase WETH) then Ok 18
  else Throw (Error "execution reverted").

(** The V2 pair answers [amountOutV2]; the V3 pools of the tiers 500 and 3000
    answer [amountOut500] and [amountOut3000]; the other tiers have no pool. *)
Definition example_world (amountOutV2 amountOut500 amountOut3000 allowance : Z) : World :=
  mkWorld example_env 1700000000000 example_checksum example_encode
    example_symbol example_symbol example_decimals
    (fun _ _ _ => Ok allowance)
    (fun _ _ _ _ =>
       Ok (mkV2Reads "0xdc1c3636cbc24ca479dd0178e814d0b173750517" amountOutV2 (1 # 4)))
    (fun _ _ _ _ fee =>
       if fee =? 500 then
         Ok (mkV3Reads "0x5000000000000000000000000000000000000500" amountOut500
               (1 # 8) 150000)
       else if fee =? 3000 then
         Ok (mkV3Reads "0x5000000000000000000000000000000000003000" amountOut3000
               (1 # 10) 150000)
       else Throw (Error "Pool not found")).

Definition example_request (tokenIn tokenOut : string) (userAddress : option string)
  : QuoteRequest :=
  mkQuoteRequest (Some tokenIn) (Some tokenOut) (Some "0.001") None userAddress.

(** ** Orderings of quotes used to state the ranking properties *)

(** The ranking the specification describes: [amountOut] descending, then
    the lower price impact, then the lower fee tier, then the venue name. *)
Definition fee_or_zero (q : DexQuote) : Z :=
  match feeTier q with
  | Some f => f
  | None => 0
  end.

Definition spec_precedes (a b : DexQuote) : bool :=
  if amountOut b <? amountOut a then true
  else if amountOut a <? amountOut b then false
  else if Qlt_bool (priceImpact a) (priceImpact b) then true
  else if Qlt_bool (priceImpact b) (priceImpact a) then false
  else if fee_or_zero a <? fee_or_zero b then true
  else if fee_or_zero b <? fee_or_zero a then false
  else String.leb (dexName a) (dexName b).

Fixpoint spec_ranked (l : list DexQuote) : bool :=
  match l with
  | [] => true
  | a :: r => forallb (spec_precedes a) r && spec_ranked r
  end.

(** Ordering by [amountOut] descending that keeps quotes of equal
    [amountOut] in the order of the list. *)
Fixpoint insert_by_amountOut (x : DexQuote) (l : list DexQuote) : list DexQuote :=
  match l with
  | [] => [x]
  | y :: r =>
      if amountOut x <? amountOut y then y :: insert_by_amountOut x r
      else x :: y :: r
  end.

Definition rank_by_amountOut (l : list DexQuote) : list DexQuote :=
  fold_right insert_by_amountOut [] l.

Definition max_amountOut (l : list DexQuote) : Z :=
  match l with
  | [] => 0
  | q :: r => fold_left (fun m x => Z.max m (amountOut x)) r (amountOut q)
  end.

Definition min_amountOut (l : list DexQuote) : Z :=
  match l with
  | [] => 0
  | q :: r => fold_left (fun m x => Z.min m (amountOut x)) r (amountOut q)
  end.

(** The quotes each venue contributes, read off the world. *)
Definition v2_quote_of (config : DexConfig) (r : V2Reads) : DexQuote :=
  mkDexQuote V2 (dex_name config) (v2_amountOut r) (v2_priceImpact r)
    (Some (getPriceImpactWarning (v2_priceImpact r))) None None
    (Some (v2_pairAddress r)).

Definition v3_quote_of (config : DexConfig) (fee : Z) (r : V3Reads) : DexQuote :=
  mkDexQuote V3 (dex_name config) (v3_amountOut r) (v3_priceImpact r)
    (Some (getPriceImpactWarning (v3_priceImpact r))) (Some (v3_gasEstimate r))
    (Some fee) (Some (v3_poolAddress r)).

Definition v2_contribution (w : World) (tokenIn tokenOut : string) (amountIn : Z)
  : list DexQuote :=
  match v2_reads w (UNISWAP_V2_FORK1 (env w)) tokenIn tokenOut amountIn with
  | Ok r => [v2_quote_of (UNISWAP_V2_FORK1 (env w)) r]
  | Throw _ => []
  end.

Definition v3_contribution (w : World) (tokenIn tokenOut : string) (amountIn fee : Z)
  : list DexQuote :=
  match v3_reads w (UNISWAP_V3_FORK1 (env w)) tokenIn tokenOut amountIn fee with
  | Ok r => [v3_quote_of (UNISWAP_V3_FORK1 (env w)) fee r]
  | Throw _ => []
  end.

(** ** The error kinds of the specification and their status codes *)

Inductive ErrorKind : Type :=
| InvalidInput | UnknownToken | NoLiquidity | Timeout | Internal.

Definition designated_status (k : ErrorKind) : Z :=
  match k with
  | InvalidInput | UnknownToken | NoLiquidity => 400
  | Timeout => 504
  | Internal => 500
  end.

(** Selection by a key: [current] replaces [best] when its key is greater. *)
Definition select {A : Type} (key : A -> Z) (best current : A) : A :=
  if key best <? key current then current else best.

Definition descending (a b : DexQuote) : Prop := amountOut b <= amountOut a.

Definition example_service : AggregatorService :=
  new_AggregatorService (example_world 1000000000 1002000000 1001000000 0).

(** ** Predicates on computations and on calls *)

(** Every call [m] adds to the log satisfies [P]. *)
Definition appends {A : Type} (P : Call -> Prop) (m : M A) : Prop :=
  forall l r l', m l = (r, l') ->
    exists added, l' = (l ++ added)%list /\ Forall P added.

(** Every value [m] returns satisfies [P]. *)
Definition returns {A : Type} (P : A -> Prop) (m : M A) : Prop :=
  forall l a l', m l = (Ok a, l') -> P a.

Definition is_allowance (c : Call) : bool :=
  match call_fn c with
  | fn_allowance _ _ => true
  | _ => false
  end.

(** A call that is not an allowance read of the native sentinel. *)
Definition no_native_allowance (c : Call) : bool :=
  negb (is_allowance c && isNativeToken (call_target c)).

(** A response of status 200 with data, or of status 400 with an error. *)
Definition ok_or_bad_request (r : HttpResponse) : Prop :=
  (exists data, r = mkHttpResponse 200 (Success data))
  \/ (exists msg, r = mkHttpResponse 400 (Failure msg)).

(** The routes of a response: the best one, then one per quote. *)
Definition routes (data : QuoteData) : list RouteJson :=
  d_bestRoute data :: d_allQuotes data.

(** The example world with every [name()] read timing out. *)
Definition timeout_world : World :=
  let w := example_world 1000000000 1002000000 1001000000 0 in
  mkWorld (env w) (Date_now w) (checksumAddress w) (encodeFunctionData w)
    (fun _ => Throw (mkExn "TimeoutError" "The request took too long to respond."))
    (erc20_symbol w) (erc20_decimals w) (erc20_allowance w) (v2_reads w) (v3_reads w).

Definition call_ok (c : Call) : Prop := no_native_allowance c = true.

(** What a route of the response says about value and approval. *)
Definition route_fact (tokenIn : string) (amountInParsed : Z) (r : RouteJson) : Prop :=
  tx_value (r_transaction r)
  = (if isNativeToken tokenIn then bigint_toString amountInParsed else "0")
  /\ (isNativeToken tokenIn = true -> ap_needed (r_approval r) = false)
  /\ (ap_needed (r_approval r) = true -> ap_token (r_approval r) = Some tokenIn).

(** ** Amount strings with a fixed number of fractional digits *)

(** An integer literal without superfluous leading zeros. *)
Definition canonical_integer (ip : string) : bool :=
  all_digits ip
  && match ip with
     | EmptyString => false
     | String c r => negb (Ascii.eqb c "0") || String.eqb r EmptyString
     end.

(** A literal with exactly [f] fractional digits (and no dot when [f = 0])
    whose integer part has no superfluous leading zeros. *)
Definition fixed_literal (s : string) (f : nat) : bool :=
  let '(ip, fr) := split_dot s in
  canonical_integer ip
  && match fr with
     | None => (f =? 0)%nat
     | Some fp => negb (f =? 0)%nat && all_digits fp && (String.length fp =? f)%nat
     end.

(** The integer that the digits of a literal write, the dot left out. *)
Definition literal_digits (s : string) : Z :=
  let '(ip, fr) := split_dot s in
  digits_value (ip ++ match fr with Some fp => fp | None => EmptyString end).

(** The strings that [formatTokenAmount] after [parseTokenAmount] returns
    unchanged: "0", and the positive literals with exactly [min 6 d]
    fractional digits whose digits write an integer below [2^52]. *)
Definition roundtrip_domain (s : string) (d : nat) : bool :=
  String.eqb s "0"
  || (fixed_literal s (Nat.min 6 d)
      && (1 <=? literal_digits s) && (literal_digits s <? 2 ^ 52)).

(** ** utils/calculations.ts: the other functions on bigints *)

Definition getAmountIn (amountOut reserveIn reserveOut : Z) : result Z :=
  if amountOut <=? 0 then Throw (Error "Insufficient output amount")
  else if (reserveIn <=? 0) || (reserveOut <=? 0) then
    Throw (Error "Insufficient liquidity")
  else if reserveOut <=? amountOut then
    Throw (Error "Insufficient liquidity for desired output")
  else
    let numerator := reserveIn * amountOut * 1000 in
    let denominator := (reserveOut - amountOut) * 997 in
    match bigint_div numerator denominator with
    | Throw e => Throw e
    | Ok quotient => Ok (quotient + 1)
    end.

Definition Q96 : Z := 2 ^ 96.

(** [if (a > b) [a, b] = [b, a]]. *)
Definition ordered (sqrtPriceAX96 sqrtPriceBX96 : Z) : Z * Z :=
  if sqrtPriceBX96 <? sqrtPriceAX96 then (sqrtPriceBX96, sqrtPriceAX96)
  else (sqrtPriceAX96, sqrtPriceBX96).

Definition getLiquidityForAmount0 (sqrtPriceAX96 sqrtPriceBX96 amount0 : Z)
  : result Z :=
  let '(sqrtPriceAX96, sqrtPriceBX96) := ordered sqrtPriceAX96 sqrtPriceBX96 in
  match bigint_div (sqrtPriceAX96 * sqrtPriceBX96) Q96 with
  | Throw e => Throw e
  | Ok intermediate =>
      bigint_div (amount0 * intermediate) (sqrtPriceBX96 - sqrtPriceAX96)
  end.

Definition getLiquidityForAmount1 (sqrtPriceAX96 sqrtPriceBX96 amount1 : Z)
  : result Z :=
  let '(sqrtPriceAX96, sqrtPriceBX96) := ordered sqrtPriceAX96 sqrtPriceBX96 in
  bigint_div (amount1 * Q96) (sqrtPriceBX96 - sqrtPriceAX96).

Definition getLiquidityForAmounts
    (sqrtPriceX96 sqrtPriceAX96 sqrtPriceBX96 amount0 amount1 : Z) : result Z :=
  let '(sqrtPriceAX96, sqrtPriceBX96) := ordered sqrtPriceAX96 sqrtPriceBX96 in
  if sqrtPriceX96 <=? sqrtPriceAX96 then
    getLiquidityForAmount0 sqrtPriceAX96 sqrtPriceBX96 amount0
  else if sqrtPriceX96 <? sqrtPriceBX96 then
    match getLiquidityForAmount0 sqrtPriceX96 sqrtPriceBX96 amount0 with
    | Throw e => Throw e
    | Ok liquidity0 =>
        match getLiquidityForAmount1 sqrtPriceAX96 sqrtPriceX96 amount1 with
        | Throw e => Throw e
        | Ok liquidity1 =>
            Ok (if liquidity0 <? liquidity1 then liquidity0 else liquidity1)
        end
    end
  else getLiquidityForAmount1 sqrtPriceAX96 sqrtPriceBX96 amount1.

Definition getAmount0ForLiquidity (sqrtPriceAX96 sqrtPriceBX96 liquidity : Z)
  : result Z :=
  let '(sqrtPriceAX96, sqrtPriceBX96) := ordered sqrtPriceAX96 sqrtPriceBX96 in
  bigint_div (liquidity * (sqrtPriceBX96 - sqrtPriceAX96) * Q96)
             (sqrtPriceBX96 * sqrtPriceAX96).

Definition getAmount1ForLiquidity (sqrtPriceAX96 sqrtPriceBX96 liquidity : Z)
  : result Z :=
  let '(sqrtPriceAX96, sqrtPriceBX96) := ordered sqrtPriceAX96 sqrtPriceBX96 in
  bigint_div (liquidity * (sqrtPriceBX96 - sqrtPriceAX96)) Q96.

(** [BigInt(Math.floor(slippagePercent * 100))]. *)
Definition slippage_bps (slippagePercent : double) : Z :=
  Qfloor (number_mul slippagePercent 100%Q).

Definition calculateMinimumAmountOut (amountOut : Z) (slippagePercent : double) : Z :=
  let slippageBps := slippage_bps slippagePercent in
  Z.quot (amountOut * (10000 - slippageBps)) 10000.

Definition calculateMaximumAmountIn (amountIn : Z) (slippagePercent : double) : Z :=
  let slippageBps := slippage_bps slippagePercent in
  Z.quot (amountIn * (10000 + slippageBps)) 10000.

(** ** utils/priceImpact.ts: slippage *)

(** [Math.floor(x)], a number. *)
Definition Math_floor (x : double) : double := inject_Z (Qfloor x).

(** [x - y] on numbers. *)
Definition number_sub (x y : double) : double := round64 (x - y).

(** [BigInt(x)] for a number [x]: a [RangeError] unless [x] is an integer. *)
Definition BigInt_of_number (x : double) : result Z :=
  if Qeq_bool (inject_Z (Qfloor x)) x then Ok (Qfloor x)
  else Throw (RangeError ("The number " ++ Number_toString x
                          ++ " cannot be converted to a BigInt because it is not an integer")).

(** [calculateMinimumAmountOut] of utils/priceImpact.ts, which subtracts the
    basis points as numbers before it converts to a bigint. *)
Definition priceImpact_calculateMinimumAmountOut (amountOut : Z)
    (slippagePercent : double) : result Z :=
  let slippageBps := Math_floor (number_mul slippagePercent 100%Q) in
  match BigInt_of_number (number_sub 10000%Q slippageBps) with
  | Throw e => Throw e
  | Ok factor => bigint_div (amountOut * factor) 10000
  end.

(** ** utils/calculations.ts: ticks *)

Definition MIN_TICK : Z := -887272.
Definition MAX_TICK : Z := 887272.

(** [getNearestUsableTick(tick, tickSpacing)], [tickSpacing] not zero. *)
Definition getNearestUsableTick (tick tickSpacing : double) : double :=
  let rounded :=
    number_mul (inject_Z (Math_round (number_div tick tickSpacing))) tickSpacing in
  if Qlt_bool rounded (inject_Z MIN_TICK) then inject_Z MIN_TICK
  else if Qlt_bool (inject_Z MAX_TICK) rounded then inject_Z MAX_TICK
  else rounded.

(** ** utils/validation.ts: the other validators *)

(** [array.map(f)] for an [f] that may throw: the first exception ends it. *)
Fixpoint map_result {A B : Type} (f : A -> result B) (l : list A) : result (list B) :=
  match l with
  | [] => Ok []
  | x :: r =>
      match f x with
      | Throw e => Throw e
      | Ok y =>
          match map_result f r with
          | Throw e => Throw e
          | Ok ys => Ok (y :: ys)
          end
      end
  end.



Definition validateReserves (reserve0 reserve1 : Z) : result unit :=
  if (reserve0 =? 0) || (reserve1 =? 0)
  then Throw (Error "Insufficient liquidity: one or both reserves are zero")
  else Ok tt.

(** ** config/tokens.ts: the other lookups of [TokenRegistry] *)

Definition is_lower (c : ascii) : bool :=
  let n := nat_of_ascii c in (97 <=? n)%nat && (n <=? 122)%nat.

Definition upper_char (c : ascii) : ascii :=
  if is_lower c then ascii_of_nat (nat_of_ascii c - 32) else c.

(** [String.prototype.toUpperCase] on the ASCII letters. *)
Fixpoint toUpperCase (s : string) : string :=
  match s with
  | EmptyString => EmptyString
  | String c r => String (upper_char c) (toUpperCase r)
  end.

Definition TESTNET_TOKENS : list (string * Token) :=
  [ ("DOT", mkToken "0x0000000000000000000000000000000000000000" "DOT" "Polkadot" 18 false);
    ("WETH", mkToken "0x0000000000000000000000000000000000000000" "WETH" "Wrapped Ether" 18 false);
    ("USDC", mkToken "0x0000000000000000000000000000000000000000" "USDC" "USD Coin" 6 false) ].

(** No string occurs twice. *)
Fixpoint distinct (l : list string) : bool :=
  match l with
  | [] => true
  | x :: r => negb (existsb (String.eqb x) r) && distinct r
  end.

(** [record[key]] on a record written as the list of its entries. *)
Fixpoint record_get {V : Type} (record : list (string * V)) (key : string) : option V :=
  match record with
  | [] => None
  | (k, v) :: r => if String.eqb k key then Some v else record_get r key
  end.

Definition getBySymbol (tokens : list (string * Token)) (symbol : string)
  : option Token :=
  record_get tokens (toUpperCase symbol).

Definition getAllTokens (tokens : list (string * Token)) : list Token :=
  map snd tokens.

Definition getSymbols (tokens : list (string * Token)) : list string :=
  map fst tokens.

Definition hasSymbol (tokens : list (string * Token)) (symbol : string) : bool :=
  existsb (String.eqb (toUpperCase symbol)) (map fst tokens).

Definition hasAddress (tokens : list (string * Token)) (a : string) : bool :=
  match getByAddress tokens a with
  | Some _ => true
  | None => false
  end.

Definition TokenRegistry_getAddress (tokens : list (string * Token)) (symbol : string)
  : option string :=
  option_map address (record_get tokens (toUpperCase symbol)).

Definition getCommonBases (tokens : list (string * Token)) : list Token :=
  filter_not_null
    (map (fun symbol => getBySymbol tokens symbol) ["DOT"; "WETH"; "USDC"; "USDT"; "DAI"]).

(** ** config/dexes.ts: [getDexByName] *)

Definition getDexByName (e : Env) (name : string) : option DexConfig :=
  find (fun dex => String.eqb (dex_name dex) name) (DEXES e).

(** ** The constructors of the services and of the adapters *)

Definition new_V2Service (config : DexConfig) : result DexConfig :=
  if negb (DexVersion_eqb (version config) v2)
  then Throw (Error "Invalid DEX config: expected V2")
  else Ok config.

Definition new_V3Service (config : DexConfig) : result DexConfig :=
  if negb (DexVersion_eqb (version config) v3)
  then Throw (Error "Invalid DEX config: expected V3")
  else Ok config.

Definition new_V2DexAdapter (config : DexConfig) : result DexAdapter :=
  if negb (DexVersion_eqb (version config) v2)
  then Throw (Error "V2DexAdapter requires a v2 DEX config")
  else
    match new_V2Service config with
    | Throw e => Throw e
    | Ok _ => Ok (V2DexAdapter config)
    end.

Definition new_V3DexAdapter (config : DexConfig) : result DexAdapter :=
  if negb (DexVersion_eqb (version config) v3)
  then Throw (Error "V3DexAdapter requires a v3 DEX config")
  else
    match new_V3Service config with
    | Throw e => Throw e
    | Ok _ => Ok (V3DexAdapter config)
    end.

(** One of the two loops of the constructor of [AggregatorService]. *)
Fixpoint register_all (make : DexConfig -> result DexAdapter)
    (dexes : list DexConfig) (m : list (string * DexAdapter))
  : result (list (string * DexAdapter)) :=
  match dexes with
  | [] => Ok m
  | dexConfig :: rest =>
      match make dexConfig with
      | Throw e => Throw e
      | Ok adapter => register_all make rest (map_set m (dex_name dexConfig) adapter)
      end
  end.

(** The constructor of [AggregatorService], with the checks of the
    constructors it calls, over the list [dexes] that [DEXES] holds. *)
Definition AggregatorService_constructor_on (dexes : list DexConfig)
  : result AggregatorService :=
  let v2Dexes := filter (fun d => DexVersion_eqb (version d) v2) dexes in
  let v3Dexes := filter (fun d => DexVersion_eqb (version d) v3) dexes in
  match register_all new_V2DexAdapter v2Dexes [] with
  | Throw e => Throw e
  | Ok m =>
      match register_all new_V3DexAdapter v3Dexes m with
      | Throw e => Throw e
      | Ok m => Ok (mkAggregatorService m)
      end
  end.

Definition AggregatorService_constructor (w : World) : result AggregatorService :=
  AggregatorService_constructor_on (DEXES (env w)).

(** The adapter is of the kind its configuration names. *)
Definition adapter_matches_version (a : DexAdapter) : bool :=
  match a with
  | V2DexAdapter c => DexVersion_eqb (version c) v2
  | V3DexAdapter c => DexVersion_eqb (version c) v3
  end.

(** [Map.prototype.get]. *)
Definition getAdapter (s : AggregatorService) (dexName : string) : option DexAdapter :=
  record_get (adapters s) dexName.

Definition getAllAdapters (s : AggregatorService) : list DexAdapter :=
  map_values (adapters s).

Definition getBestQuote (w : World) (s : AggregatorService)
    (tokenIn tokenOut : string) (amountIn : Z) : M DexQuote :=
  aggregated <- getAggregatedQuote w s tokenIn tokenOut amountIn ;;
  ret (bestQuote aggregated).

(** ** Statements about quotes *)

(** The quotes of the two configured venues, in the order of the merge. *)
Definition merged_quotes (w : World) (tokenIn tokenOut : string) (amountIn : Z)
  : list DexQuote :=
  (v2_contribution w tokenIn tokenOut amountIn
   ++ v3_contribution w tokenIn tokenOut amountIn 100
   ++ v3_contribution w tokenIn tokenOut amountIn 500
   ++ v3_contribution w tokenIn tokenOut amountIn 3000
   ++ v3_contribution w tokenIn tokenOut amountIn 10000)%list.


Definition is_some {A : Type} (o : option A) : bool :=
  match o with
  | Some _ => true
  | None => false
  end.

(** The shape of a quote an adapter builds: a V2 quote has the name of the
    V2 venue, no fee tier and no gas estimate; a V3 quote has the name of the
    V3 venue, one of the default fee tiers and a gas estimate. *)
Definition adapter_quote (e : Env) (q : DexQuote) : bool :=
  is_some (poolAddress q)
  && match dex q with
     | V2 =>
         String.eqb (dexName q) (dex_name (UNISWAP_V2_FORK1 e))
         && negb (is_some (feeTier q)) && negb (is_some (gasEstimate q))
     | V3 =>
         String.eqb (dexName q) (dex_name (UNISWAP_V3_FORK1 e))
         && match feeTier q with
            | Some fee => existsb (Z.eqb fee) DEFAULT_FEE_TIERS
            | None => false
            end
         && is_some (gasEstimate q)
     end.

(** ** Statements about the POST /quote handler *)

(** The slippage of a request, with its default. *)
Definition slippage_of (req : QuoteRequest) : double :=
  match req_slippage req with
  | Some x => x
  | None => (1 # 2)%Q
  end.

Definition is_router (w : World) (spender : string) : bool :=
  match ROUTER_ADDRESS (env w) with
  | Some r => String.eqb r spender
  | None => false
  end
  || match V3_SWAP_ROUTER_ADDRESS (env w) with
     | Some r => String.eqb r spender
     | None => false
     end.

(** The ERC-20 calls a request for [tokenIn] and [tokenOut] may cause: the
    metadata of the two tokens at their checksummed addresses, and the
    allowance of [tokenIn] that the user gave to one of the two routers. *)
Definition expected_call (w : World) (tokenIn tokenOut : string)
    (userAddress : option string) (c : Call) : bool :=
  match call_fn c with
  | fn_allowance owner spender =>
      String.eqb (call_target c) tokenIn
      && negb (isNativeToken tokenIn)
      && truthy userAddress
      && String.eqb owner (or_default userAddress)
      && is_router w spender
  | _ =>
      String.eqb (call_target c) (checksumAddress w tokenIn)
      || String.eqb (call_target c) (checksumAddress w tokenOut)
  end.

(** What a route of the response shows of its quote. *)
Definition route_summary (r : RouteJson)
  : DexKind * string * option Z * string * option string :=
  (r_dex r, r_dexName r, r_feeTier r, r_amountOutWei r, r_poolAddress r).

Definition quote_summary (q : DexQuote)
  : DexKind * string * option Z * string * option string :=
  (dex q, dexName q, feeTier q, bigint_toString (amountOut q), poolAddress q).

(** The venues never answer a negative amount. *)
Definition amounts_not_negative (w : World) : Prop :=
  (forall config tokenIn tokenOut amountIn r,
      v2_reads w config tokenIn tokenOut amountIn = Ok r -> 0 <= v2_amountOut r)
  /\ (forall config tokenIn tokenOut amountIn fee r,
         v3_reads w config tokenIn tokenOut amountIn fee = Ok r -> 0 <= v3_amountOut r).

(** ** services/aggregatorService.ts: [generateSwapCalldata] *)

(** The call of the aggregator contract handed to viem's
    [encodeFunctionData]. *)
Inductive AggregatorCall : Type :=
| swapV2 (tokenIn tokenOut : string) (amountIn minAmountOut deadline : Z)
| swapV3 (tokenIn tokenOut : string) (fee : option Z)
    (amountIn minAmountOut deadline : Z).

(** What POST /build-tx takes from outside the repository besides the
    [World]: one more variable of [process.env], and the encoding of the
    calls of the aggregator contract. *)
Record Deployment : Type := mkDeployment {
  AGGREGATOR_CONTRACT_ADDRESS : option string;
  encodeAggregatorCall : AggregatorCall -> result string
}.

Definition generateSwapCalldata (dep : Deployment) (quote : DexQuote)
    (tokenIn tokenOut : string) (amountIn minAmountOut deadline : Z) : result string :=
  match dex quote with
  | V2 => encodeAggregatorCall dep (swapV2 tokenIn tokenOut amountIn minAmountOut deadline)
  | V3 =>
      encodeAggregatorCall dep
        (swapV3 tokenIn tokenOut (feeTier quote) amountIn minAmountOut deadline)
  end.

(** ** api/routes/aggregatorRoutes.ts: POST /build-tx *)

Record BuildTxRequest : Type := mkBuildTxRequest {
  bt_tokenIn : option string;
  bt_tokenOut : option string;
  bt_amountIn : option string;
  bt_slippage : option double;
  bt_deadline : option double
}.

Record BuildTxRoute : Type := mkBuildTxRoute {
  br_dex : DexKind;
  br_feeTier : option Z;
  br_expectedAmountOut : string;
  br_minimumAmountOut : string
}.

Record BuildTxApproval : Type := mkBuildTxApproval {
  ba_token : string;
  ba_spender : string;
  ba_amount : string
}.

Record BuildTxData : Type := mkBuildTxData {
  bd_to : string;
  bd_data : string;
  bd_value : string;
  bd_bestRoute : BuildTxRoute;
  bd_approvalNeeded : BuildTxApproval
}.

Inductive BuildTxBody : Type :=
| TxSuccess (data : BuildTxData)
| TxFailure (error : string).

Record BuildTxResponse : Type := mkBuildTxResponse {
  bt_status : Z;
  bt_body : BuildTxBody
}.

Definition tx_bad_request (msg : string) : BuildTxResponse :=
  mkBuildTxResponse 400 (TxFailure msg).

(** [x + y] on numbers. *)
Definition number_add (x y : double) : double := round64 (x + y).

(** [process.env.AGGREGATOR_CONTRACT_ADDRESS || 'DEPLOY_AGGREGATOR_CONTRACT_FIRST']. *)
Definition aggregator_address (dep : Deployment) : string :=
  if truthy (AGGREGATOR_CONTRACT_ADDRESS dep)
  then or_default (AGGREGATOR_CONTRACT_ADDRESS dep)
  else "DEPLOY_AGGREGATOR_CONTRACT_FIRST".

(** The decimals of the input token, as POST /build-tx finds them. *)
Definition resolve_decimals_tx (w : World) (s : AggregatorService) (tokenIn : string)
  : M (nat + BuildTxResponse) :=
  match getByAddress MAINNET_TOKENS tokenIn with
  | Some knownTokenIn => ret (inl (decimals knownTokenIn))
  | None =>
      try_catch
        (tokenInfo <- AggregatorService_getTokenInfo w s tokenIn ;;
         ret (inl (decimals tokenInfo)))
        (fun _ =>
           ret (inr (tx_bad_request
                       ("Unable to fetch token decimals for tokenIn: " ++ tokenIn))))
  end.

(** The handler after the decimals of the input token are known. *)
Definition build_tx_for_amount (w : World) (dep : Deployment) (s : AggregatorService)
    (tokenIn tokenOut amountIn : string) (tokenInDecimals : nat)
    (slippage deadline : double) : M BuildTxResponse :=
  amountInParsed <- lift (parseUnits amountIn tokenInDecimals) ;;
  bestQuote <- getBestQuote w s tokenIn tokenOut amountInParsed ;;
  let slippageBps := Qfloor (number_mul slippage 100%Q) in
  let minimumAmountOut := min_amount_out (amountOut bestQuote) slippageBps in
  deadlineBigInt <-
    lift (BigInt_of_number
            (number_add
               (Math_floor (number_div (Number_of_bigint (Date_now w)) 1000%Q))
               deadline)) ;;
  calldata <-
    lift (generateSwapCalldata dep bestQuote tokenIn tokenOut amountInParsed
            minimumAmountOut deadlineBigInt) ;;
  ret (mkBuildTxResponse 200
         (TxSuccess
            (mkBuildTxData (aggregator_address dep) calldata "0"
               (mkBuildTxRoute (dex bestQuote) (feeTier bestQuote)
                  (bigint_toString (amountOut bestQuote))
                  (bigint_toString minimumAmountOut))
               (mkBuildTxApproval tokenIn (aggregator_address dep)
                  (bigint_toString amountInParsed))))).

Definition build_tx_body (w : World) (dep : Deployment) (s : AggregatorService)
    (req : BuildTxRequest) : M BuildTxResponse :=
  let slippage := match bt_slippage req with Some x => x | None => (1 # 2)%Q end in
  let deadline := match bt_deadline req with Some x => x | None => 1800%Q end in
  if negb (truthy (bt_tokenIn req)) || negb (truthy (bt_tokenOut req))
     || negb (truthy (bt_amountIn req))
  then ret (tx_bad_request "tokenIn, tokenOut, and amountIn are required")
  else if Qlt_bool slippage 0 || Qlt_bool 100 slippage
  then ret (tx_bad_request "slippage must be between 0 and 100")
  else
    let tokenIn := or_default (bt_tokenIn req) in
    let tokenOut := or_default (bt_tokenOut req) in
    let amountIn := or_default (bt_amountIn req) in
    d <- resolve_decimals_tx w s tokenIn ;;
    match d with
    | inr response => ret response
    | inl tokenInDecimals =>
        build_tx_for_amount w dep s tokenIn tokenOut amountIn tokenInDecimals
          slippage deadline
    end.

Definition build_tx_handler (w : World) (dep : Deployment) (s : AggregatorService)
    (req : BuildTxRequest) : M BuildTxResponse :=
  try_catch (build_tx_body w dep s req)
    (fun error => ret (tx_bad_request (exn_message error))).

(** One request served by a freshly started server. *)
Definition post_build_tx (w : World) (dep : Deployment) (req : BuildTxRequest)
  : BuildTxResponse * list Call :=
  match build_tx_handler w dep (new_AggregatorService w) req [] with
  | (Ok response, calls) => (response, calls)
  | (Throw e, calls) => (mkBuildTxResponse 500 (TxFailure (exn_message e)), calls)
  end.

(** The POST /quote request for the same swap. *)
Definition quote_request_of (req : BuildTxRequest) (userAddress : option string)
  : QuoteRequest :=
  mkQuoteRequest (bt_tokenIn req) (bt_tokenOut req) (bt_amountIn req) (bt_slippage req)
    userAddress.

Definition example_deployment : Deployment :=
  mkDeployment None
    (fun c => Ok match c with
                 | swapV2 _ _ _ _ _ => "0x5c11d795"
                 | swapV3 _ _ _ _ _ _ => "0x04e45aaf"
                 end).

Definition example_build_tx_request (tokenIn tokenOut : string) : BuildTxRequest :=
  mkBuildTxRequest (Some tokenIn) (Some tokenOut) (Some "0.001") None None.

(** ** services/v2Service.ts *)

(** What the contracts of a V2 venue answer: the factory and the router of
    the configuration, and the pair at a given address. *)
Record V2Chain : Type := mkV2Chain {
  factory_getPair : string -> string -> result string;
  factory_allPairsLength : result Z;
  factory_allPairs : Z -> result string;
  pair_token0 : string -> result string;
  pair_token1 : string -> result string;
  pair_getReserves : string -> result (Z * Z * Z);
  pair_totalSupply : string -> result Z;
  router_getAmountOut : Z -> Z -> Z -> result Z;
  router_getAmountsOut : Z -> list string -> result (list Z);
  router_getAmountsIn : Z -> list string -> result (list Z)
}.

Record V2Pair : Type := mkV2Pair {
  pair_address : string;
  token0 : Token;
  token1 : Token;
  reserve0 : Z;
  reserve1 : Z;
  totalSupply : Z;
  lastUpdated : double
}.

(** [getRouterContract]: the router must be configured. *)
Definition getRouterContract (config : DexConfig) : result unit :=
  if negb (truthy (routerAddress config))
  then Throw (Error "Router address not configured")
  else Ok tt.

Definition V2Service_getPair (w : World) (ch : V2Chain) (token0 token1 : string)
  : M string :=
  addr0 <- lift (validateAddress w token0) ;;
  addr1 <- lift (validateAddress w token1) ;;
  pairAddress <- lift (factory_getPair ch addr0 addr1) ;;
  if String.eqb pairAddress "0x0000000000000000000000000000000000000000"
  then throw (Error ("Pair not found for tokens: " ++ token0 ++ " and " ++ token1))
  else ret pairAddress.

Definition V2Service_getPairInfo (w : World) (ch : V2Chain) (pairAddress : string)
  : M V2Pair :=
  address <- lift (validateAddress w pairAddress) ;;
  '(token0Address, (token1Address, (reserves, totalSupply))) <-
    par (lift (pair_token0 ch address))
      (par (lift (pair_token1 ch address))
         (par (lift (pair_getReserves ch address))
              (lift (pair_totalSupply ch address)))) ;;
  '(token0Info, token1Info) <-
    par (Service_getTokenInfo w token0Address)
        (Service_getTokenInfo w token1Address) ;;
  ret (mkV2Pair address token0Info token1Info (fst (fst reserves)) (snd (fst reserves))
         totalSupply (Number_of_bigint (snd reserves))).

Definition V2Service_getQuote (w : World) (ch : V2Chain) (config : DexConfig)
    (tokenIn tokenOut : string) (amountIn : Z) : M Z :=
  pairAddress <- V2Service_getPair w ch tokenIn tokenOut ;;
  pair <- V2Service_getPairInfo w ch pairAddress ;;
  tokenInAddress <- lift (validateAddress w tokenIn) ;;
  let isToken0 :=
    String.eqb (toLowerCase tokenInAddress) (toLowerCase (address (token0 pair))) in
  let '(reserveIn, reserveOut) :=
    if isToken0 then (reserve0 pair, reserve1 pair)
    else (reserve1 pair, reserve0 pair) in
  _ <- lift (validateReserves reserveIn reserveOut) ;;
  _ <- lift (getRouterContract config) ;;
  lift (router_getAmountOut ch amountIn reserveIn reserveOut).

(** The reserves in the order of the swap, as [getQuote] picks them. *)
Definition reserves_for (w : World) (tokenIn : string) (pair : V2Pair) : Z * Z :=
  if String.eqb (toLowerCase (checksumAddress w tokenIn))
                (toLowerCase (address (token0 pair)))
  then (reserve0 pair, reserve1 pair)
  else (reserve1 pair, reserve0 pair).

(** The chain [ch] with another router. *)
Definition with_router (ch : V2Chain) (router : Z -> Z -> Z -> result Z) : V2Chain :=
  mkV2Chain (factory_getPair ch) (factory_allPairsLength ch) (factory_allPairs ch)
    (pair_token0 ch) (pair_token1 ch) (pair_getReserves ch) (pair_totalSupply ch)
    router (router_getAmountsOut ch) (router_getAmountsIn ch).

(** A chain with one pair of WETH and USDC, whose router computes
    [getAmountOut]. *)
Definition example_chain (reserveWETH reserveUSDC : Z) : V2Chain :=
  mkV2Chain
    (fun _ _ => Ok "0xdc1c3636cbc24ca479dd0178e814d0b173750517")
    (Ok 1)
    (fun _ => Ok "0xdc1c3636cbc24ca479dd0178e814d0b173750517")
    (fun _ => Ok WETH)
    (fun _ => Ok USDC)
    (fun _ => Ok (reserveWETH, reserveUSDC, 1700000000))
    (fun _ => Ok 1000)
    getAmountOut
    (fun _ _ => Throw (Error "execution reverted"))
    (fun _ _ => Throw (Error "execution reverted")).

(** The example world, with the metadata of USDC. *)
Definition example_world_usdc : World :=
  let w := example_world 1000000000 1002000000 1001000000 0 in
  mkWorld (env w) (Date_now w) (checksumAddress w) (encodeFunctionData w)
    (fun a => if String.eqb (toLowerCase a) (toLowerCase USDC) then Ok "USD Coin"
              else erc20_name w a)
    (fun a => if String.eqb (toLowerCase a) (toLowerCase USDC) then Ok "USDC"
              else erc20_symbol w a)
    (fun a => if String.eqb (toLowerCase a) (toLowerCase USDC) then Ok 6
              else erc20_decimals w a)
    (erc20_allowance w) (v2_reads w) (v3_reads w).

Definition Math_min (x y : double) : double := if Qlt_bool y x then y else x.

(** [getAllPairsLength]: the length of the factory's list, as a number. *)
Definition V2Service_getAllPairsLength (ch : V2Chain) : result double :=
  match factory_allPairsLength ch with
  | Throw e => Throw e
  | Ok length => Ok (Number_of_bigint length)
  end.

(** The values of [i] in [for (let i = startIndex; i < stop; i++)], for an
    integer [startIndex]. *)
Definition indices (startIndex : Z) (stop : double) : list Z :=
  map (fun k => startIndex + Z.of_nat k)
    (seq 0 (Z.to_nat (Qceiling stop - startIndex))).

(** [getAllPairs(startIndex, endIndex)], for integer indices up to 2^53, where
    [i++] is exact.  The reads of [allPairs] are all started; the result is
    their answers in the order of the indices, or a failure of one of
    them. *)
Definition V2Service_getAllPairs (ch : V2Chain) (startIndex endIndex : Z)
  : result (list string) :=
  match V2Service_getAllPairsLength ch with
  | Throw e => Throw e
  | Ok length =>
      let actualEndIndex := Math_min (inject_Z endIndex) length in
      if Qle_bool actualEndIndex (inject_Z startIndex) then Ok []
      else map_result (factory_allPairs ch) (indices startIndex actualEndIndex)
  end.

(** [getAllPairsAddresses]: the length is read, and then read again by
    [getAllPairs]. *)
Definition V2Service_getAllPairsAddresses (ch : V2Chain) : result (list string) :=
  match V2Service_getAllPairsLength ch with
  | Throw e => Throw e
  | Ok length => V2Service_getAllPairs ch 0 (Qfloor length)
  end.

(** * Properties *)

(** ** The V2 output formula *)

Lemma quot_nonneg_div (a b : Z) : 0 <= a -> 0 < b -> Z.quot a b = a / b.
Proof. intros Ha Hb. apply Z.quot_div_nonneg; lia. Qed.

Lemma v2_output_below_reserve (a ri ro : Z) :
  0 < a -> 0 < ri -> 0 < ro ->
  a * 997 * ro / (ri * 1000 + a * 997) < ro.
Proof.
  intros Ha Hri Hro.
  apply Z.div_lt_upper_bound; [lia|].
  nia.
Qed.

(** C2 (amended).  With [amountIn > 0] and both reserves positive,
    [getAmountOut] returns [floor (amountIn * 997 * reserveOut /
    (reserveIn * 1000 + amountIn * 997))], which is below [reserveOut].
    With [amountIn <= 0] it throws "Insufficient input amount"; with a
    positive [amountIn] and a reserve that is not positive it throws
    "Insufficient liquidity". *)
Theorem getAmountOut_spec (amountIn reserveIn reserveOut : Z) :
  (0 < amountIn -> 0 < reserveIn -> 0 < reserveOut ->
   getAmountOut amountIn reserveIn reserveOut
   = Ok (amountIn * 997 * reserveOut / (reserveIn * 1000 + amountIn * 997))
   /\ amountIn * 997 * reserveOut / (reserveIn * 1000 + amountIn * 997) < reserveOut)
  /\ (amountIn <= 0 ->
      getAmountOut amountIn reserveIn reserveOut
      = Throw (Error "Insufficient input amount"))
  /\ (0 < amountIn -> reserveIn <= 0 \/ reserveOut <= 0 ->
      getAmountOut amountIn reserveIn reserveOut
      = Throw (Error "Insufficient liquidity")).
Proof.
  unfold getAmountOut, bigint_div.
  split; [|split].
  - intros Ha Hri Hro. split; [|apply v2_output_below_reserve; assumption].
    destruct (Z.leb_spec amountIn 0); [lia|].
    destruct (Z.leb_spec reserveIn 0); [lia|].
    destruct (Z.leb_spec reserveOut 0); [lia|]. cbn [orb].
    destruct (Z.eqb_spec (reserveIn * 1000 + amountIn * 997) 0); [lia|].
    f_equal. apply quot_nonneg_div; nia.
  - intros Ha. destruct (Z.leb_spec amountIn 0); [reflexivity|lia].
  - intros Ha Hr.
    destruct (Z.leb_spec amountIn 0); [lia|].
    destruct (Z.leb_spec reserveIn 0); [reflexivity|].
    destruct (Z.leb_spec reserveOut 0); [reflexivity|lia].
Qed.

Lemma getAmountOut_spec_witness :
  getAmountOut 1000 1000000 2000000 = Ok 1992
  /\ getAmountOut 0 1000000 2000000 = Throw (Error "Insufficient input amount")
  /\ getAmountOut 1000 0 2000000 = Throw (Error "Insufficient liquidity").
Proof.
  destruct (getAmountOut_spec 1000 1000000 2000000) as [H1 _].
  destruct (getAmountOut_spec 0 1000000 2000000) as [_ [H2 _]].
  destruct (getAmountOut_spec 1000 0 2000000) as [_ [_ H3]].
  split; [|split].
  - destruct H1 as [H1 _]; [lia|lia|lia|]. exact H1.
  - apply H2. lia.
  - apply H3; [lia|]. left. lia.
Defined.

(** C2 (as stated) fails: a non-positive [amountIn] is not answered with the
    insufficient-liquidity error. *)
Lemma getAmountOut_zero_input_not_liquidity_error :
  getAmountOut 0 1 1 = Throw (Error "Insufficient input amount")
  /\ String.eqb "Insufficient input amount" "Insufficient liquidity" = false.
Proof. split; reflexivity. Qed.

(** ** Inversion of the effect combinators *)

Lemma bind_inv {A B : Type} (m : M A) (k : A -> M B) l r l' :
  bind m k l = (r, l') ->
  (exists a l1, m l = (Ok a, l1) /\ k a l1 = (r, l'))
  \/ (exists e, m l = (Throw e, l') /\ r = Throw e).
Proof.
  unfold bind. destruct (m l) as [[a|e] l1]; intros H.
  - left. exists a, l1. auto.
  - right. exists e. inversion H; subst. auto.
Qed.

Lemma bind_Ok_inv {A B : Type} (m : M A) (k : A -> M B) l b l' :
  bind m k l = (Ok b, l') ->
  exists a l1, m l = (Ok a, l1) /\ k a l1 = (Ok b, l').
Proof.
  intros H. apply bind_inv in H. destruct H as [H|[e [_ H]]]; [exact H|discriminate].
Qed.

Lemma lift_inv {A : Type} (x : result A) l r l' :
  lift x l = (r, l') -> r = x /\ l' = l.
Proof. unfold lift. intros H. inversion H. auto. Qed.

Lemma ret_inv {A : Type} (x : A) l r l' :
  ret x l = (r, l') -> r = Ok x /\ l' = l.
Proof. unfold ret. intros H. inversion H. auto. Qed.

(** ** Selection of the best and of the worst quote *)

Section Selection.
Context {A : Type} (key : A -> Z).

Lemma select_key (a b : A) : key (select key a b) = Z.max (key a) (key b).
Proof. unfold select. destruct (Z.ltb_spec (key a) (key b)); lia. Qed.

Lemma fold_select_ge (r : list A) (x : A) : key x <= key (fold_left (select key) r x).
Proof.
  revert x. induction r as [|y r IH]; intros x; cbn; [lia|].
  specialize (IH (select key x y)). rewrite select_key in IH. lia.
Qed.

(** The selected element is the earliest one of greatest key. *)
Lemma fold_select_split (r : list A) (x : A) :
  exists l1 l2,
    x :: r = (l1 ++ fold_left (select key) r x :: l2)%list
    /\ Forall (fun q => key q < key (fold_left (select key) r x)) l1
    /\ Forall (fun q => key q <= key (fold_left (select key) r x)) l2.
Proof.
  induction r as [|y r IH] using rev_ind.
  - exists [], []. cbn. auto.
  - destruct IH as (l1 & l2 & Heq & H1 & H2).
    rewrite fold_left_app. cbn [fold_left].
    set (b := fold_left (select key) r x) in *.
    assert (Hs : select key b y = if key b <? key y then y else b) by reflexivity.
    rewrite Hs. clear Hs. destruct (Z.ltb_spec (key b) (key y)) as [Hlt|Hge].
    + exists (x :: r), []. split; [reflexivity|]. split; [|constructor].
      rewrite Heq. apply Forall_app. split.
      * eapply Forall_impl; [|exact H1]. cbn. intros; lia.
      * constructor; [lia|]. eapply Forall_impl; [|exact H2]. cbn. intros; lia.
    + exists l1, (l2 ++ [y])%list. split; [|split].
      * rewrite app_comm_cons, Heq, <- app_assoc. reflexivity.
      * exact H1.
      * apply Forall_app. split; [exact H2|]. constructor; [lia|constructor].
Qed.

Lemma fold_select_key (r : list A) (x : A) :
  key (fold_left (select key) r x) = fold_left (fun m y => Z.max m (key y)) r (key x).
Proof.
  revert x. induction r as [|y r IH]; intros x; cbn; [reflexivity|].
  rewrite IH, select_key. reflexivity.
Qed.
End Selection.

Lemma better_select : better = select amountOut.
Proof. reflexivity. Qed.

Lemma fold_left_ext {A B : Type} (f g : A -> B -> A) (l : list B) (a : A) :
  (forall x y, f x y = g x y) -> fold_left f l a = fold_left g l a.
Proof.
  intros H. revert a. induction l as [|y l IH]; intros a; cbn; [reflexivity|].
  rewrite H. apply IH.
Qed.

Lemma worse_select (worst current : DexQuote) :
  worse worst current = select (fun q => - amountOut q) worst current.
Proof.
  unfold worse, select.
  destruct (Z.ltb_spec (amountOut current) (amountOut worst));
    destruct (Z.ltb_spec (- amountOut worst) (- amountOut current)); try reflexivity; lia.
Qed.

Lemma fold_better_split (r : list DexQuote) (x : DexQuote) :
  exists l1 l2,
    x :: r = (l1 ++ fold_left better r x :: l2)%list
    /\ Forall (fun q => amountOut q < amountOut (fold_left better r x)) l1
    /\ Forall (fun q => amountOut q <= amountOut (fold_left better r x)) l2.
Proof. rewrite better_select. apply (fold_select_split amountOut). Qed.

Lemma fold_worse_split (r : list DexQuote) (x : DexQuote) :
  exists l1 l2,
    x :: r = (l1 ++ fold_left worse r x :: l2)%list
    /\ Forall (fun q => amountOut (fold_left worse r x) < amountOut q) l1
    /\ Forall (fun q => amountOut (fold_left worse r x) <= amountOut q) l2.
Proof.
  rewrite (fold_left_ext worse (select (fun q => - amountOut q)) r x worse_select).
  destruct (fold_select_split (fun q => - amountOut q) r x) as (l1 & l2 & Heq & H1 & H2).
  exists l1, l2. split; [exact Heq|]. split.
  - eapply Forall_impl; [|exact H1]. cbn. intros; lia.
  - eapply Forall_impl; [|exact H2]. cbn. intros; lia.
Qed.

Lemma fold_better_max (r : list DexQuote) (x : DexQuote) :
  amountOut (fold_left better r x) = max_amountOut (x :: r).
Proof. rewrite better_select. apply (fold_select_key amountOut). Qed.

Lemma fold_worse_min (r : list DexQuote) (x : DexQuote) :
  amountOut (fold_left worse r x) = min_amountOut (x :: r).
Proof.
  rewrite (fold_left_ext worse (select (fun q => - amountOut q)) r x worse_select).
  cbn [min_amountOut].
  pose proof (fold_select_key (fun q => - amountOut q) r x) as H. cbn beta in H.
  assert (G : forall l m, fold_left (fun m y => Z.max m (- amountOut y)) l (- m)
                          = - fold_left (fun m y => Z.min m (amountOut y)) l m).
  { induction l as [|y l IH]; intros m; cbn; [reflexivity|].
    rewrite <- IH. f_equal. lia. }
  rewrite G in H. lia.
Qed.

Lemma split_In {A : Type} (l l1 l2 : list A) (b : A) :
  l = (l1 ++ b :: l2)%list -> In b l.
Proof. intros ->. apply in_or_app. right. left. reflexivity. Qed.

(** ** [aggregate] and [getAggregatedQuote] *)

Lemma aggregate_Ok_inv tokenIn tokenOut amountIn qs agg :
  aggregate tokenIn tokenOut amountIn qs = Ok agg ->
  exists q r,
    qs = q :: r
    /\ amountOut (fold_left worse r q) <> 0
    /\ agg = mkAggregatedQuote (fold_left better r q) qs tokenIn tokenOut amountIn
               (mkSavings
                  (number_div
                     (Number_of_bigint
                        (Z.quot ((amountOut (fold_left better r q)
                                  - amountOut (fold_left worse r q)) * 10000)
                                (amountOut (fold_left worse r q)))) 100%Q)
                  (amountOut (fold_left better r q) - amountOut (fold_left worse r q)))
               (make_recommendation (fold_left better r q)
                  (number_div
                     (Number_of_bigint
                        (Z.quot ((amountOut (fold_left better r q)
                                  - amountOut (fold_left worse r q)) * 10000)
                                (amountOut (fold_left worse r q)))) 100%Q)).
Proof.
  unfold aggregate. destruct qs as [|q r]; cbn [List.length Nat.eqb]; [discriminate|].
  cbn [reduce]. unfold bigint_div.
  destruct (Z.eqb_spec (amountOut (fold_left worse r q)) 0) as [|Hne]; [discriminate|].
  intros H. inversion H; subst. exists q, r. auto.
Qed.

(** [aggregate] answers as soon as a quote survives and none is empty. *)
Lemma aggregate_total tokenIn tokenOut amountIn qs :
  qs <> [] -> Forall (fun q => 0 < amountOut q) qs ->
  exists agg, aggregate tokenIn tokenOut amountIn qs = Ok agg.
Proof.
  intros Hne Hpos. unfold aggregate. destruct qs as [|q r]; [congruence|].
  cbn [List.length Nat.eqb reduce]. unfold bigint_div.
  destruct (fold_worse_split r q) as (l1 & l2 & Heq & _ & _).
  apply split_In in Heq. rewrite Forall_forall in Hpos. apply Hpos in Heq.
  destruct (Z.eqb_spec (amountOut (fold_left worse r q)) 0); [lia|].
  eexists. reflexivity.
Qed.

Lemma getAggregatedQuote_Ok_inv w s tokenInAddress tokenOutAddress amountIn l agg l' :
  getAggregatedQuote w s tokenInAddress tokenOutAddress amountIn l = (Ok agg, l') ->
  exists first tokenIn tokenOut l1 l2,
    firstAdapter s = Some first
    /\ par (adapter_getTokenInfo w first tokenInAddress)
           (adapter_getTokenInfo w first tokenOutAddress) l
       = (Ok (tokenIn, tokenOut), l1)
    /\ exists qs,
         getAllQuotes w s tokenInAddress tokenOutAddress amountIn l1 = (Ok qs, l2)
         /\ aggregate tokenIn tokenOut amountIn qs = Ok agg.
Proof.
  unfold getAggregatedQuote. destruct (firstAdapter s) as [first|]; [|discriminate].
  intros H. apply bind_Ok_inv in H. destruct H as ([tIn tOut] & l1 & Hpar & H).
  apply bind_Ok_inv in H. destruct H as (qs & l2 & Hqs & H).
  apply lift_inv in H. destruct H as [H _].
  exists first, tIn, tOut, l1, l2. split; [reflexivity|]. split; [exact Hpar|].
  exists qs. split; [exact Hqs|]. symmetry. exact H.
Qed.

Lemma new_service_adapters (w : World) :
  adapters (new_AggregatorService w)
  = [ ("Hammy Swap", V2DexAdapter (UNISWAP_V2_FORK1 (env w)));
      ("Surge Dex", V3DexAdapter (UNISWAP_V3_FORK1 (env w))) ].
Proof. reflexivity. Qed.

(** The merged list: the V2 venue first, then the V3 tiers 100, 500, 3000
    and 10000, each with the quote its reads gave, if any. *)
Lemma getAllQuotes_merge_order w tokenIn tokenOut amountIn l :
  getAllQuotes w (new_AggregatorService w) tokenIn tokenOut amountIn l
  = (Ok (v2_contribution w tokenIn tokenOut amountIn
         ++ v3_contribution w tokenIn tokenOut amountIn 100
         ++ v3_contribution w tokenIn tokenOut amountIn 500
         ++ v3_contribution w tokenIn tokenOut amountIn 3000
         ++ v3_contribution w tokenIn tokenOut amountIn 10000)%list, l).
Proof.
  unfold getAllQuotes. rewrite new_service_adapters.
  unfold v2_contribution, v3_contribution.
  cbn -[UNISWAP_V2_FORK1 UNISWAP_V3_FORK1].
  unfold bind, try_catch, promise_all, map, DEFAULT_FEE_TIERS, V3DexAdapter_getAllQuotes,
    V2DexAdapter_getAllQuotes, V2DexAdapter_getQuote, V3DexAdapter_getQuote, bind,
    try_catch, lift, ret, throw.
  cbn -[UNISWAP_V2_FORK1 UNISWAP_V3_FORK1].
  destruct (v2_reads w (UNISWAP_V2_FORK1 (env w)) tokenIn tokenOut amountIn);
    destruct (v3_reads w (UNISWAP_V3_FORK1 (env w)) tokenIn tokenOut amountIn 100);
    destruct (v3_reads w (UNISWAP_V3_FORK1 (env w)) tokenIn tokenOut amountIn 500);
    destruct (v3_reads w (UNISWAP_V3_FORK1 (env w)) tokenIn tokenOut amountIn 3000);
    destruct (v3_reads w (UNISWAP_V3_FORK1 (env w)) tokenIn tokenOut amountIn 10000);
    reflexivity.
Qed.

Lemma getAggregatedQuote_allQuotes w tokenIn tokenOut amountIn l agg l' :
  getAggregatedQuote w (new_AggregatorService w) tokenIn tokenOut amountIn l
  = (Ok agg, l') ->
  allQuotes agg
  = (v2_contribution w tokenIn tokenOut amountIn
     ++ v3_contribution w tokenIn tokenOut amountIn 100
     ++ v3_contribution w tokenIn tokenOut amountIn 500
     ++ v3_contribution w tokenIn tokenOut amountIn 3000
     ++ v3_contribution w tokenIn tokenOut amountIn 10000)%list.
Proof.
  intros H. apply getAggregatedQuote_Ok_inv in H.
  destruct H as (first & tIn & tOut & l1 & l2 & _ & _ & qs & Hqs & Hagg).
  rewrite getAllQuotes_merge_order in Hqs. inversion Hqs; subst.
  apply aggregate_Ok_inv in Hagg. destruct Hagg as (q & r & _ & _ & ->).
  reflexivity.
Qed.

(** ** The example request, evaluated *)

Lemma example_run :
  exists agg calls,
    getAggregatedQuote (example_world 1000000000 1002000000 1001000000 0)
      example_service WETH NATIVE_TOKEN_ADDRESS 1000000000000000 []
    = (Ok agg, calls)
    /\ map amountOut (allQuotes agg) = [1000000000; 1002000000; 1001000000]
    /\ amountOut (bestQuote agg) = 1002000000.
Proof.
  eexists. eexists. split; [vm_compute; reflexivity|]. split; reflexivity.
Defined.

(** ** The best quote *)

(** C1.  Whenever [getAggregatedQuote] returns an aggregated quote, its
    [bestQuote] is an element of its non-empty [allQuotes], no quote of
    [allQuotes] has a greater [amountOut], and the [amountOut] of
    [bestQuote] is the maximum over [allQuotes]. *)
Theorem bestQuote_is_maximal w s tokenIn tokenOut amountIn l agg l' :
  getAggregatedQuote w s tokenIn tokenOut amountIn l = (Ok agg, l') ->
  In (bestQuote agg) (allQuotes agg)
  /\ Forall (fun q => amountOut q <= amountOut (bestQuote agg)) (allQuotes agg)
  /\ amountOut (bestQuote agg) = max_amountOut (allQuotes agg).
Proof.
  intros H. apply getAggregatedQuote_Ok_inv in H.
  destruct H as (first & tIn & tOut & l1 & l2 & _ & _ & qs & _ & Hagg).
  apply aggregate_Ok_inv in Hagg. destruct Hagg as (q & r & -> & _ & ->).
  cbn [bestQuote allQuotes].
  destruct (fold_better_split r q) as (a & b & Heq & Ha & Hb).
  split; [eapply split_In; exact Heq|]. split; [|apply fold_better_max].
  rewrite Heq. apply Forall_app. split.
  - eapply Forall_impl; [|exact Ha]. cbn. intros; lia.
  - constructor; [lia|exact Hb].
Qed.

Lemma bestQuote_is_maximal_witness :
  exists agg,
    In (bestQuote agg) (allQuotes agg)
    /\ Forall (fun q => amountOut q <= amountOut (bestQuote agg)) (allQuotes agg)
    /\ amountOut (bestQuote agg) = max_amountOut (allQuotes agg)
    /\ map amountOut (allQuotes agg) = [1000000000; 1002000000; 1001000000].
Proof.
  destruct example_run as (agg & calls & Hrun & Hall & _).
  exists agg.
  destruct (bestQuote_is_maximal _ _ _ _ _ _ _ _ Hrun) as (H1 & H2 & H3).
  repeat split; assumption.
Defined.

(** C10.  The quotes are merged in the order of registration: the V2 venue,
    then the V3 tiers 100, 500, 3000 and 10000.  [bestQuote] is the earliest
    quote of greatest [amountOut] in that list: every quote before it has a
    smaller [amountOut], every quote after it one that is not greater.  The
    worst quote, against which the savings are computed, is the earliest
    quote of least [amountOut]. *)
Theorem bestQuote_is_earliest_maximal w tokenIn tokenOut amountIn l agg l' :
  getAggregatedQuote w (new_AggregatorService w) tokenIn tokenOut amountIn l
  = (Ok agg, l') ->
  allQuotes agg
  = (v2_contribution w tokenIn tokenOut amountIn
     ++ v3_contribution w tokenIn tokenOut amountIn 100
     ++ v3_contribution w tokenIn tokenOut amountIn 500
     ++ v3_contribution w tokenIn tokenOut amountIn 3000
     ++ v3_contribution w tokenIn tokenOut amountIn 10000)%list
  /\ (exists before after,
        allQuotes agg = (before ++ bestQuote agg :: after)%list
        /\ Forall (fun q => amountOut q < amountOut (bestQuote agg)) before
        /\ Forall (fun q => amountOut q <= amountOut (bestQuote agg)) after)
  /\ (exists worstQuote before after,
        allQuotes agg = (before ++ worstQuote :: after)%list
        /\ Forall (fun q => amountOut worstQuote < amountOut q) before
        /\ Forall (fun q => amountOut worstQuote <= amountOut q) after
        /\ absoluteAmount (savings agg)
           = amountOut (bestQuote agg) - amountOut worstQuote).
Proof.
  intros H. split; [eapply getAggregatedQuote_allQuotes; exact H|].
  apply getAggregatedQuote_Ok_inv in H.
  destruct H as (first & tIn & tOut & l1 & l2 & _ & _ & qs & _ & Hagg).
  apply aggregate_Ok_inv in Hagg. destruct Hagg as (q & r & -> & _ & ->).
  cbn [bestQuote allQuotes savings absoluteAmount]. split.
  - destruct (fold_better_split r q) as (a & b & Heq & Ha & Hb).
    exists a, b. auto.
  - destruct (fold_worse_split r q) as (a & b & Heq & Ha & Hb).
    exists (fold_left worse r q), a, b. auto.
Qed.

Lemma example_tie_run :
  exists agg calls,
    getAggregatedQuote (example_world 1002000000 1002000000 1002000000 0)
      (new_AggregatorService (example_world 1002000000 1002000000 1002000000 0))
      WETH NATIVE_TOKEN_ADDRESS 1000000000000000 []
    = (Ok agg, calls)
    /\ dex (bestQuote agg) = V2.
Proof.
  eexists. eexists. split; [vm_compute; reflexivity|]. reflexivity.
Defined.

Lemma bestQuote_is_earliest_maximal_witness :
  exists agg,
    dex (bestQuote agg) = V2
    /\ exists before after,
         allQuotes agg = (before ++ bestQuote agg :: after)%list
         /\ Forall (fun q => amountOut q < amountOut (bestQuote agg)) before
         /\ Forall (fun q => amountOut q <= amountOut (bestQuote agg)) after.
Proof.
  destruct example_tie_run as (agg & calls & Hrun & Hdex).
  exists agg. split; [exact Hdex|].
  exact (proj1 (proj2 (bestQuote_is_earliest_maximal _ _ _ _ _ _ _ Hrun))).
Defined.

(** ** Ranking *)

Lemma insert_by_amountOut_perm (x : DexQuote) (l : list DexQuote) :
  Permutation (insert_by_amountOut x l) (x :: l).
Proof.
  induction l as [|y l IH]; cbn; [apply Permutation_refl|].
  destruct (amountOut x <? amountOut y); [|apply Permutation_refl].
  eapply Permutation_trans; [apply perm_skip; exact IH|apply perm_swap].
Qed.

Lemma rank_by_amountOut_perm (l : list DexQuote) :
  Permutation (rank_by_amountOut l) l.
Proof.
  induction l as [|x l IH]; cbn; [apply perm_nil|].
  eapply Permutation_trans; [apply insert_by_amountOut_perm|].
  apply perm_skip. exact IH.
Qed.

Lemma insert_by_amountOut_sorted (x : DexQuote) (l : list DexQuote) :
  StronglySorted descending l -> StronglySorted descending (insert_by_amountOut x l).
Proof.
  induction 1 as [|y l Hs IH Hy]; cbn.
  - constructor; constructor.
  - destruct (Z.ltb_spec (amountOut x) (amountOut y)) as [Hlt|Hge].
    + constructor; [exact IH|].
      eapply Permutation_Forall; [apply Permutation_sym, insert_by_amountOut_perm|].
      constructor; [unfold descending; lia|exact Hy].
    + constructor; [constructor; assumption|].
      constructor; [exact Hge|].
      eapply Forall_impl; [|exact Hy]. unfold descending. intros; lia.
Qed.

Lemma rank_by_amountOut_sorted (l : list DexQuote) :
  StronglySorted descending (rank_by_amountOut l).
Proof.
  induction l as [|x l IH]; cbn; [constructor|].
  apply insert_by_amountOut_sorted. exact IH.
Qed.

Lemma fold_better_ge (r : list DexQuote) (x : DexQuote) :
  amountOut x <= amountOut (fold_left better r x).
Proof. rewrite better_select. apply (fold_select_ge amountOut). Qed.

Lemma fold_better_dominated (r : list DexQuote) (x y : DexQuote) :
  amountOut y <= amountOut x ->
  fold_left better r x
  = if amountOut x <? amountOut (fold_left better r y)
    then fold_left better r y else x.
Proof.
  revert x y. induction r as [|z r IH]; intros x y Hxy; cbn [fold_left].
  - destruct (Z.ltb_spec (amountOut x) (amountOut y)); [lia|reflexivity].
  - assert (Hb : better x z = if amountOut x <? amountOut z then z else x) by reflexivity.
    rewrite Hb. clear Hb.
    destruct (Z.ltb_spec (amountOut x) (amountOut z)) as [Hlt|Hge].
    + assert (Hy : better y z = z).
      { unfold better. destruct (Z.ltb_spec (amountOut y) (amountOut z)); [reflexivity|lia]. }
      rewrite Hy. pose proof (fold_better_ge r z).
      destruct (Z.ltb_spec (amountOut x) (amountOut (fold_left better r z)));
        [reflexivity|lia].
    + apply IH. unfold better.
      destruct (Z.ltb_spec (amountOut y) (amountOut z)); lia.
Qed.

Lemma rank_by_amountOut_head (r : list DexQuote) (x : DexQuote) :
  hd_error (rank_by_amountOut (x :: r)) = Some (fold_left better r x).
Proof.
  revert x. induction r as [|y r IH]; intros x; [reflexivity|].
  change (rank_by_amountOut (x :: y :: r))
    with (insert_by_amountOut x (rank_by_amountOut (y :: r))).
  specialize (IH y). destruct (rank_by_amountOut (y :: r)) as [|h t]; [discriminate|].
  cbn in IH. inversion IH as [Hh]. clear IH. cbn [insert_by_amountOut fold_left].
  assert (Hb : better x y = if amountOut x <? amountOut y then y else x) by reflexivity.
  rewrite Hb. clear Hb. pose proof (fold_better_ge r y) as Hy.
  destruct (Z.ltb_spec (amountOut x) (amountOut y)) as [Hlt|Hge].
  - rewrite <- Hh in *.
    destruct (Z.ltb_spec (amountOut x) (amountOut h)); [reflexivity|lia].
  - rewrite (fold_better_dominated r x y Hge). rewrite <- Hh.
    destruct (amountOut x <? amountOut h); reflexivity.
Qed.

(** C3 (amended).  [allQuotes] is the merged list in the order of
    registration (the V2 venue, then the V3 tiers 100, 500, 3000, 10000); it
    is not reordered.  [bestQuote] is the first element of the list obtained
    by ordering [allQuotes] by [amountOut] descending, quotes of equal
    [amountOut] keeping their order in the merged list. *)
Theorem bestQuote_heads_ranking w tokenIn tokenOut amountIn l agg l' :
  getAggregatedQuote w (new_AggregatorService w) tokenIn tokenOut amountIn l
  = (Ok agg, l') ->
  allQuotes agg
  = (v2_contribution w tokenIn tokenOut amountIn
     ++ v3_contribution w tokenIn tokenOut amountIn 100
     ++ v3_contribution w tokenIn tokenOut amountIn 500
     ++ v3_contribution w tokenIn tokenOut amountIn 3000
     ++ v3_contribution w tokenIn tokenOut amountIn 10000)%list
  /\ Permutation (rank_by_amountOut (allQuotes agg)) (allQuotes agg)
  /\ StronglySorted descending (rank_by_amountOut (allQuotes agg))
  /\ hd_error (rank_by_amountOut (allQuotes agg)) = Some (bestQuote agg).
Proof.
  intros H. split; [eapply getAggregatedQuote_allQuotes; exact H|].
  split; [apply rank_by_amountOut_perm|]. split; [apply rank_by_amountOut_sorted|].
  apply getAggregatedQuote_Ok_inv in H.
  destruct H as (first & tIn & tOut & l1 & l2 & _ & _ & qs & _ & Hagg).
  apply aggregate_Ok_inv in Hagg. destruct Hagg as (q & r & -> & _ & ->).
  cbn [bestQuote allQuotes]. apply rank_by_amountOut_head.
Qed.

Lemma bestQuote_heads_ranking_witness :
  exists agg,
    map amountOut (allQuotes agg) = [1000000000; 1002000000; 1001000000]
    /\ hd_error (rank_by_amountOut (allQuotes agg)) = Some (bestQuote agg).
Proof.
  destruct example_run as (agg & calls & Hrun & Hall & _).
  exists agg. split; [exact Hall|].
  exact (proj2 (proj2 (proj2 (bestQuote_heads_ranking _ _ _ _ _ _ _ Hrun)))).
Defined.

(** C3 (as stated) fails: with a V2 quote of 1000000000 and V3 quotes of
    1002000000 (tier 500) and 1001000000 (tier 3000), [allQuotes] keeps the
    order of the venues, which is not the ranking of the specification, and
    its first element is not [bestQuote]. *)
Lemma allQuotes_not_ranked :
  exists agg calls,
    getAggregatedQuote (example_world 1000000000 1002000000 1001000000 0)
      (new_AggregatorService (example_world 1000000000 1002000000 1001000000 0))
      WETH NATIVE_TOKEN_ADDRESS 1000000000000000 []
    = (Ok agg, calls)
    /\ map amountOut (allQuotes agg) = [1000000000; 1002000000; 1001000000]
    /\ spec_ranked (allQuotes agg) = false
    /\ option_map amountOut (hd_error (allQuotes agg)) = Some 1000000000
    /\ amountOut (bestQuote agg) = 1002000000.
Proof.
  eexists. eexists. split; [vm_compute; reflexivity|].
  repeat split; vm_compute; reflexivity.
Qed.

(** ** Savings *)

Lemma pow2Q_pos (t : Z) : (0 < pow2Q t)%Q.
Proof.
  unfold pow2Q. destruct (Z.leb_spec 0 t).
  - unfold Qlt. cbn. rewrite Z.mul_1_r. apply Z.pow_pos_nonneg; lia.
  - reflexivity.
Qed.

Lemma round_half_even_nonneg (a b : Z) : 0 <= a -> 0 < b -> 0 <= round_half_even a b.
Proof.
  intros Ha Hb. unfold round_half_even.
  assert (0 <= a / b) by (apply Z.div_pos; lia).
  destruct (2 * (a mod b) <? b); [lia|].
  destruct (b <? 2 * (a mod b)); [lia|].
  destruct (Z.even (a / b)); lia.
Qed.

Lemma round64_pos_nonneg (p q : positive) : (0 <= round64_pos p q)%Q.
Proof.
  unfold round64_pos. rewrite Qred_correct.
  apply Qmult_le_0_compat; [|apply Qlt_le_weak, pow2Q_pos].
  change 0%Q with (inject_Z 0). rewrite <- Zle_Qle.
  destruct (Z.leb_spec 0 (Z.max (floor_log2 p q - 52) (-1074))).
  - apply round_half_even_nonneg; [lia|].
    apply Z.mul_pos_pos; [lia|]. apply Z.pow_pos_nonneg; lia.
  - apply round_half_even_nonneg; [|lia].
    apply Z.mul_nonneg_nonneg; [lia|]. apply Z.pow_nonneg. lia.
Qed.

(** Rounding to binary64 keeps a number that is not negative so. *)
Lemma round64_nonneg (x : Q) : (0 <= x)%Q -> (0 <= round64 x)%Q.
Proof.
  intros Hx. unfold round64. rewrite <- (Qred_correct x) in Hx.
  destruct (Qred x) as [n d]. cbn [Qnum Qden].
  destruct n as [|p|p].
  - apply Qle_refl.
  - apply round64_pos_nonneg.
  - exfalso. unfold Qle in Hx. cbn in Hx. lia.
Qed.

Lemma savings_percentage_nonneg (h : Z) :
  0 <= h -> (0 <= number_div (Number_of_bigint h) 100)%Q.
Proof.
  intros Hh. unfold number_div, Number_of_bigint.
  apply round64_nonneg. apply Qle_shift_div_l; [reflexivity|].
  rewrite Qmult_0_l. apply round64_nonneg.
  change 0%Q with (inject_Z 0). rewrite <- Zle_Qle. exact Hh.
Qed.

(** C4.  In every aggregated quote whose quotes have amounts that are not
    negative, the least [amountOut] is positive and
    [savings.absoluteAmount] is the [amountOut] of [bestQuote] minus that
    least [amountOut].  [savings.percentage] is the number [h / 100], where
    [h = floor ((best - worst) * 10000 / worst)] is the saving in hundredths
    of a percent; it is not negative.  With exactly one quote both are zero. *)
Theorem savings_spec w s tokenIn tokenOut amountIn l agg l' :
  getAggregatedQuote w s tokenIn tokenOut amountIn l = (Ok agg, l') ->
  Forall (fun q => 0 <= amountOut q) (allQuotes agg) ->
  0 < min_amountOut (allQuotes agg)
  /\ absoluteAmount (savings agg)
     = amountOut (bestQuote agg) - min_amountOut (allQuotes agg)
  /\ percentage (savings agg)
     = number_div
         (Number_of_bigint
            ((amountOut (bestQuote agg) - min_amountOut (allQuotes agg)) * 10000
             / min_amountOut (allQuotes agg))) 100%Q
  /\ (0 <= percentage (savings agg))%Q
  /\ (List.length (allQuotes agg) = 1%nat ->
      absoluteAmount (savings agg) = 0 /\ percentage (savings agg) = 0%Q).
Proof.
  intros H Hnn. apply getAggregatedQuote_Ok_inv in H.
  destruct H as (first & tIn & tOut & l1 & l2 & _ & _ & qs & _ & Hagg).
  apply aggregate_Ok_inv in Hagg. destruct Hagg as (q & r & -> & Hw & ->).
  cbn [bestQuote allQuotes savings absoluteAmount percentage] in *.
  rewrite <- (fold_worse_min r q).
  set (b := amountOut (fold_left better r q)) in *.
  set (m := amountOut (fold_left worse r q)) in *.
  assert (Hm : 0 < m).
  { destruct (fold_worse_split r q) as (a & c & Heq & _ & _).
    apply split_In in Heq. rewrite Forall_forall in Hnn. apply Hnn in Heq.
    fold m in Heq. lia. }
  assert (Hbm : m <= b).
  { pose proof (fold_better_ge r q) as Hb. fold b in Hb.
    destruct (fold_worse_split r q) as (a & c & Heq & Ha & Hc). fold m in Ha, Hc.
    assert (Hq : In q (a ++ fold_left worse r q :: c)%list) by (rewrite <- Heq; left; reflexivity).
    apply in_app_or in Hq. rewrite Forall_forall in Ha, Hc.
    destruct Hq as [Hq|[Hq|Hq]].
    - apply Ha in Hq. lia.
    - rewrite <- Hq in Hb. fold m in Hb. lia.
    - apply Hc in Hq. lia. }
  assert (Hquot : Z.quot ((b - m) * 10000) m = (b - m) * 10000 / m)
    by (apply quot_nonneg_div; nia).
  split; [exact Hm|]. split; [reflexivity|]. split; [rewrite Hquot; reflexivity|].
  split.
  - rewrite Hquot. apply savings_percentage_nonneg. apply Z.div_pos; nia.
  - intros Hlen. destruct r; [|discriminate]. subst b m. cbn [fold_left] in *.
    rewrite Z.sub_diag. split; [reflexivity|]. cbn [Z.mul]. rewrite Z.quot_0_l by lia.
    reflexivity.
Qed.

Lemma savings_spec_witness :
  exists agg,
    map amountOut (allQuotes agg) = [1000000000; 1002000000; 1001000000]
    /\ absoluteAmount (savings agg)
       = amountOut (bestQuote agg) - min_amountOut (allQuotes agg)
    /\ (0 <= percentage (savings agg))%Q.
Proof.
  destruct example_run as (agg & calls & Hrun & Hall & _).
  exists agg. split; [exact Hall|].
  assert (Hnn : Forall (fun q => 0 <= amountOut q) (allQuotes agg)).
  { apply Forall_map. rewrite Hall. repeat constructor; lia. }
  destruct (savings_spec _ _ _ _ _ _ _ _ Hrun Hnn) as (_ & H1 & _ & H2 & _).
  split; assumption.
Defined.

(** ** The log of calls and the values returned, combinator by combinator *)

Lemma try_catch_inv {A : Type} (m : M A) (h : exn -> M A) l r l' :
  try_catch m h l = (r, l') ->
  (exists a, m l = (Ok a, l') /\ r = Ok a)
  \/ (exists e l1, m l = (Throw e, l1) /\ h e l1 = (r, l')).
Proof.
  unfold try_catch. destruct (m l) as [[a|e] l1]; intros H.
  - left. exists a. inversion H; subst. auto.
  - right. exists e, l1. auto.
Qed.

Lemma par_Ok_inv {A B : Type} (ma : M A) (mb : M B) l a b l' :
  par ma mb l = (Ok (a, b), l') ->
  exists l1, ma l = (Ok a, l1) /\ mb l1 = (Ok b, l').
Proof.
  unfold par. destruct (ma l) as [ra l1] eqn:Ha. destruct (mb l1) as [rb l2] eqn:Hb.
  destruct ra, rb; intros H; inversion H; subst. exists l1. auto.
Qed.

Lemma promise_all_Ok_inv {A B : Type} (f : A -> M B) (xs : list A) l ys l' :
  promise_all (map f xs) l = (Ok ys, l') ->
  Forall2 (fun x y => exists la lb, f x la = (Ok y, lb)) xs ys.
Proof.
  revert l ys l'. induction xs as [|x xs IH]; intros l ys l' H; cbn in H.
  - unfold ret in H. inversion H. constructor.
  - destruct (f x l) as [ra l1] eqn:Hx.
    destruct (promise_all (map f xs) l1) as [rs l2] eqn:Hxs.
    destruct ra as [a|e]; [|discriminate]. destruct rs as [zs|e]; [|discriminate].
    inversion H; subst. constructor; [exists l, l1; exact Hx|].
    eapply IH. exact Hxs.
Qed.

Section Appends.
Context (P : Call -> Prop).

Lemma appends_ret {A : Type} (a : A) : appends P (ret a).
Proof.
  intros l r l' H. inversion H; subst. exists []. rewrite app_nil_r. auto.
Qed.

Lemma appends_throw {A : Type} (e : exn) : appends P (@throw A e).
Proof.
  intros l r l' H. inversion H; subst. exists []. rewrite app_nil_r. auto.
Qed.

Lemma appends_lift {A : Type} (x : result A) : appends P (lift x).
Proof.
  intros l r l' H. inversion H; subst. exists []. rewrite app_nil_r. auto.
Qed.

Lemma appends_read {A : Type} (c : Call) (x : result A) : P c -> appends P (read c x).
Proof.
  intros Hc l r l' H. inversion H; subst. exists [c]. auto.
Qed.

Lemma appends_bind {A B : Type} (m : M A) (k : A -> M B) :
  appends P m -> (forall a, appends P (k a)) -> appends P (bind m k).
Proof.
  intros Hm Hk l r l' H. apply bind_inv in H.
  destruct H as [(a & l1 & H1 & H2)|(e & H1 & _)].
  - apply Hm in H1. apply Hk in H2.
    destruct H1 as (x & -> & Hx). destruct H2 as (y & -> & Hy).
    exists (x ++ y)%list. rewrite app_assoc. split; [reflexivity|].
    apply Forall_app. auto.
  - apply Hm in H1. exact H1.
Qed.

Lemma appends_try_catch {A : Type} (m : M A) (h : exn -> M A) :
  appends P m -> (forall e, appends P (h e)) -> appends P (try_catch m h).
Proof.
  intros Hm Hh l r l' H. apply try_catch_inv in H.
  destruct H as [(a & H1 & _)|(e & l1 & H1 & H2)].
  - apply Hm in H1. exact H1.
  - apply Hm in H1. apply Hh in H2.
    destruct H1 as (x & -> & Hx). destruct H2 as (y & -> & Hy).
    exists (x ++ y)%list. rewrite app_assoc. split; [reflexivity|].
    apply Forall_app. auto.
Qed.

Lemma appends_par {A B : Type} (ma : M A) (mb : M B) :
  appends P ma -> appends P mb -> appends P (par ma mb).
Proof.
  intros Ha Hb l r l' H. unfold par in H.
  destruct (ma l) as [ra l1] eqn:H1. destruct (mb l1) as [rb l2] eqn:H2.
  inversion H; subst. apply Ha in H1. apply Hb in H2.
  destruct H1 as (x & -> & Hx). destruct H2 as (y & -> & Hy).
  exists (x ++ y)%list. rewrite app_assoc. split; [reflexivity|].
  apply Forall_app. auto.
Qed.

Lemma appends_promise_all {A : Type} (ms : list (M A)) :
  Forall (appends P) ms -> appends P (promise_all ms).
Proof.
  induction 1 as [|m ms Hm Hms IH]; cbn [promise_all]; [apply appends_ret|].
  intros l r l' H.
  destruct (m l) as [ra l1] eqn:H1. destruct (promise_all ms l1) as [rs l2] eqn:H2.
  inversion H; subst. apply Hm in H1. apply IH in H2.
  destruct H1 as (x & -> & Hx). destruct H2 as (y & -> & Hy).
  exists (x ++ y)%list. rewrite app_assoc. split; [reflexivity|].
  apply Forall_app. auto.
Qed.

Lemma appends_match_sum {A B C : Type} (d : A + B) (f : A -> M C) (g : B -> M C) :
  (forall a, appends P (f a)) -> (forall b, appends P (g b)) ->
  appends P (match d with inl a => f a | inr b => g b end).
Proof. intros Hf Hg. destruct d; auto. Qed.
End Appends.

Section Returns.
Context {A : Type} (P : A -> Prop).

Lemma returns_ret (a : A) : P a -> returns P (ret a).
Proof. intros Ha l x l' H. inversion H; subst. exact Ha. Qed.

Lemma returns_throw (e : exn) : returns P (throw e).
Proof. intros l x l' H. discriminate. Qed.

Lemma returns_bind {B : Type} (m : M B) (k : B -> M A) :
  (forall b, returns P (k b)) -> returns P (bind m k).
Proof.
  intros Hk l a l' H. apply bind_Ok_inv in H. destruct H as (b & l1 & _ & H).
  eapply Hk. exact H.
Qed.

Lemma returns_try_catch (m : M A) (h : exn -> M A) :
  returns P m -> (forall e, returns P (h e)) -> returns P (try_catch m h).
Proof.
  intros Hm Hh l a l' H. apply try_catch_inv in H.
  destruct H as [(x & H1 & H2)|(e & l1 & _ & H2)].
  - inversion H2; subst. eapply Hm. exact H1.
  - eapply Hh. exact H2.
Qed.
End Returns.

Lemma returns_bind_with {A B : Type} (Q : B -> Prop) (P : A -> Prop)
    (m : M B) (k : B -> M A) :
  returns Q m -> (forall b, Q b -> returns P (k b)) -> returns P (bind m k).
Proof.
  intros Hm Hk l a l' H. apply bind_Ok_inv in H. destruct H as (b & l1 & H1 & H).
  eapply Hk; [eapply Hm; exact H1|exact H].
Qed.

(** ** The calls of the handler *)

Lemma getTokenInfo_appends w a : appends call_ok (Service_getTokenInfo w a).
Proof.
  unfold Service_getTokenInfo.
  apply appends_bind; [apply appends_lift|]. intros addr.
  apply appends_bind.
  - apply appends_par; [apply appends_read; reflexivity|].
    apply appends_par; apply appends_read; reflexivity.
  - intros [n [sy d]]. apply appends_ret.
Qed.

Lemma adapter_getAllQuotes_appends w a tokenIn tokenOut amountIn :
  appends call_ok (adapter_getAllQuotes w a tokenIn tokenOut amountIn).
Proof.
  destruct a as [c|c]; cbn [adapter_getAllQuotes].
  - unfold V2DexAdapter_getAllQuotes, V2DexAdapter_getQuote.
    apply appends_try_catch; [|intros; apply appends_ret].
    apply appends_bind; [|intros; apply appends_ret].
    apply appends_try_catch; [|intros; apply appends_throw].
    apply appends_bind; [apply appends_lift|intros; apply appends_ret].
  - unfold V3DexAdapter_getAllQuotes.
    apply appends_bind; [|intros; apply appends_ret].
    apply appends_promise_all. apply Forall_map. apply Forall_forall. intros fee _.
    apply appends_try_catch; [|intros; apply appends_ret].
    apply appends_bind; [|intros; apply appends_ret].
    unfold V3DexAdapter_getQuote. destruct (fee =? 0); [apply appends_throw|].
    apply appends_try_catch; [|intros; apply appends_throw].
    apply appends_bind; [apply appends_lift|intros; apply appends_ret].
Qed.

Lemma getAllQuotes_appends w s tokenIn tokenOut amountIn :
  appends call_ok (getAllQuotes w s tokenIn tokenOut amountIn).
Proof.
  unfold getAllQuotes. apply appends_bind; [|intros; apply appends_ret].
  apply appends_promise_all. apply Forall_map. apply Forall_forall. intros a _.
  apply appends_try_catch; [apply adapter_getAllQuotes_appends|intros; apply appends_ret].
Qed.

Lemma getAggregatedQuote_appends w s tokenIn tokenOut amountIn :
  appends call_ok (getAggregatedQuote w s tokenIn tokenOut amountIn).
Proof.
  unfold getAggregatedQuote. destruct (firstAdapter s); [|apply appends_throw].
  apply appends_bind.
  - apply appends_par; apply getTokenInfo_appends.
  - intros [tIn tOut]. apply appends_bind; [apply getAllQuotes_appends|].
    intros. apply appends_lift.
Qed.

(** The allowance is read from [tokenIn] only when [tokenIn] is not the
    native sentinel. *)
Lemma checkApprovalNeeded_appends w userAddress tokenIn amountInParsed spender :
  appends call_ok
    (checkApprovalNeeded w (isNativeToken tokenIn) userAddress tokenIn amountInParsed
       spender).
Proof.
  unfold checkApprovalNeeded. destruct (isNativeToken tokenIn) eqn:Hnative;
    [apply appends_ret|].
  destruct (negb (truthy userAddress)); [apply appends_ret|].
  apply appends_try_catch; [|intros; apply appends_ret].
  apply appends_bind; [|intros; apply appends_ret].
  destruct spender as [sp|]; [|apply appends_throw].
  apply appends_read. unfold call_ok, no_native_allowance, is_allowance.
  cbn [call_fn call_target andb]. rewrite Hnative. reflexivity.
Qed.

Lemma resolve_decimals_appends w s tokenIn :
  appends call_ok (resolve_decimals w s tokenIn).
Proof.
  unfold resolve_decimals. destruct (getByAddress MAINNET_TOKENS tokenIn);
    [apply appends_ret|].
  apply appends_try_catch; [|intros; apply appends_ret].
  apply appends_bind; [|intros; apply appends_ret].
  unfold AggregatorService_getTokenInfo. destruct (firstAdapter s);
    [apply getTokenInfo_appends|apply appends_throw].
Qed.

Lemma respond_appends w quote tokenIn tokenOut amountIn amountInParsed slippage ua :
  appends call_ok
    (respond w quote tokenIn tokenOut amountIn amountInParsed slippage ua).
Proof.
  unfold respond. apply appends_bind; [apply appends_lift|]. intros [[ra cd] v].
  apply appends_bind.
  - apply appends_promise_all. apply Forall_map. apply Forall_forall. intros q _.
    unfold format_quote. apply appends_bind; [apply appends_lift|].
    intros [[qa qc] qv]. apply appends_bind; [apply checkApprovalNeeded_appends|].
    intros. apply appends_ret.
  - intros fq. apply appends_bind; [apply checkApprovalNeeded_appends|].
    intros. apply appends_ret.
Qed.

Lemma post_quote_handler_appends w s req :
  appends call_ok (post_quote_handler w s req).
Proof.
  unfold post_quote_handler. apply appends_try_catch; [|intros; apply appends_ret].
  unfold post_quote_body.
  destruct (negb (truthy (req_tokenIn req)) || negb (truthy (req_tokenOut req))
            || negb (truthy (req_amountIn req))); [apply appends_ret|].
  match goal with |- context [if ?c then _ else _] => destruct c end;
    [apply appends_ret|].
  apply appends_bind; [apply resolve_decimals_appends|]. intros [dec|resp];
    [|apply appends_ret].
  unfold quote_for_amount. apply appends_bind; [apply appends_lift|]. intros amt.
  apply appends_bind; [apply getAggregatedQuote_appends|]. intros quote.
  apply respond_appends.
Qed.

(** C6 (amended).  Whatever the request, no [allowance] call is issued
    against the native sentinel address: an allowance is read from [tokenIn]
    only when [tokenIn] differs from the sentinel under case-insensitive
    comparison.  (The [name], [symbol] and [decimals] calls are issued against
    [tokenIn] and [tokenOut] whatever they are.) *)
Theorem no_allowance_call_on_native (w : World) (req : QuoteRequest) :
  forallb no_native_allowance (snd (post_quote w req)) = true.
Proof.
  unfold post_quote.
  destruct (post_quote_handler w (new_AggregatorService w) req []) as [r calls] eqn:H.
  apply post_quote_handler_appends in H. destruct H as (added & -> & Hall).
  cbn [app]. assert (G : forallb no_native_allowance added = true).
  { apply forallb_forall. rewrite Forall_forall in Hall. exact Hall. }
  destruct r; exact G.
Qed.

(** C6 (as stated) fails: for a request whose [tokenIn] is the native
    sentinel, [getAggregatedQuote] reads [name], [symbol] and [decimals] from
    the sentinel address. *)
Lemma metadata_calls_on_native :
  let calls := snd (post_quote (example_world 1000000000 1002000000 1001000000 0)
                      (example_request (toLowerCase NATIVE_TOKEN_ADDRESS) WETH None)) in
  In (mkCall NATIVE_TOKEN_ADDRESS fn_name) calls
  /\ In (mkCall NATIVE_TOKEN_ADDRESS fn_symbol) calls
  /\ In (mkCall NATIVE_TOKEN_ADDRESS fn_decimals) calls
  /\ isNativeToken NATIVE_TOKEN_ADDRESS = true.
Proof.
  vm_compute. repeat split; auto 10.
Qed.

(** ** The status of the response *)

Lemma resolve_decimals_returns w s tokenIn :
  returns (fun d => match d with
                    | inl _ => True
                    | inr r => exists msg, r = bad_request msg
                    end)
          (resolve_decimals w s tokenIn).
Proof.
  unfold resolve_decimals. destruct (getByAddress MAINNET_TOKENS tokenIn).
  - apply returns_ret. exact I.
  - apply returns_try_catch.
    + apply returns_bind. intros t. apply returns_ret. exact I.
    + intros e. apply returns_ret. eexists. reflexivity.
Qed.

Lemma respond_returns w quote tokenIn tokenOut amountIn amountInParsed slippage ua :
  returns (fun r => exists data, r = mkHttpResponse 200 (Success data))
          (respond w quote tokenIn tokenOut amountIn amountInParsed slippage ua).
Proof.
  unfold respond. apply returns_bind. intros [[ra cd] v].
  apply returns_bind. intros fq. apply returns_bind. intros b.
  apply returns_ret. eexists. reflexivity.
Qed.

Lemma post_quote_body_returns w s req :
  returns ok_or_bad_request (post_quote_body w s req).
Proof.
  unfold post_quote_body.
  destruct (negb (truthy (req_tokenIn req)) || negb (truthy (req_tokenOut req))
            || negb (truthy (req_amountIn req))).
  { apply returns_ret. right. eexists. reflexivity. }
  match goal with |- context [if ?c then _ else _] => destruct c end.
  { apply returns_ret. right. eexists. reflexivity. }
  eapply returns_bind_with; [apply resolve_decimals_returns|].
  intros [dec|resp] Hd.
  - unfold quote_for_amount. apply returns_bind. intros amt.
    apply returns_bind. intros quote.
    intros l r l' H. apply respond_returns in H. left. exact H.
  - apply returns_ret. right. exact Hd.
Qed.

(** The handler catches every exception. *)
Lemma post_quote_handler_total w s req l :
  exists r l', post_quote_handler w s req l = (Ok r, l').
Proof.
  unfold post_quote_handler, try_catch.
  destruct (post_quote_body w s req l) as [[r|e] l1]; eexists; eexists; reflexivity.
Qed.

Lemma post_quote_handler_returns w s req :
  returns ok_or_bad_request (post_quote_handler w s req).
Proof.
  unfold post_quote_handler. apply returns_try_catch.
  - apply post_quote_body_returns.
  - intros e. apply returns_ret. right. eexists. reflexivity.
Qed.

Lemma post_quote_fst w req :
  exists l', post_quote_handler w (new_AggregatorService w) req []
             = (Ok (fst (post_quote w req)), l').
Proof.
  unfold post_quote.
  destruct (post_quote_handler_total w (new_AggregatorService w) req [])
    as (r & l' & H).
  rewrite H. exists l'. reflexivity.
Qed.

(** C7 (amended).  The POST /quote handler answers every request either
    with status 200 and the quote data or with status 400 and an error
    message: every failure, whatever its kind (invalid input, unknown token,
    no liquidity, a read that timed out, an internal error), is answered
    with HTTP 400; the handler never answers 504 or 500. *)
Theorem quote_status_200_or_400 (w : World) (req : QuoteRequest) :
  (exists data, fst (post_quote w req) = mkHttpResponse 200 (Success data))
  \/ (exists msg, fst (post_quote w req) = mkHttpResponse 400 (Failure msg)).
Proof.
  destruct (post_quote_fst w req) as (l' & H).
  apply post_quote_handler_returns in H. exact H.
Qed.

(** C7 (as stated) fails.  A V2 quote of zero breaks the invariant
    [amountOut > 0] and makes the savings division throw: the handler answers
    400 where the specification designates 500.  A read that times out is
    answered 400 where the specification designates 504. *)
Lemma internal_and_timeout_errors_answered_400 :
  fst (post_quote (example_world 0 1002000000 1001000000 0)
         (example_request WETH NATIVE_TOKEN_ADDRESS None))
  = mkHttpResponse 400 (Failure "Division by zero")
  /\ designated_status Internal = 500
  /\ fst (post_quote timeout_world (example_request WETH NATIVE_TOKEN_ADDRESS None))
     = mkHttpResponse 400 (Failure "The request took too long to respond.")
  /\ designated_status Timeout = 504.
Proof. repeat split; vm_compute; reflexivity. Qed.

(** ** The routes of a successful response *)

Lemma build_swap_value w q tokenIn tokenOut amountInParsed minOut deadline isNative
    ra cd v :
  build_swap w q tokenIn tokenOut amountInParsed minOut deadline isNative
  = Ok (ra, cd, v) ->
  v = if isNative then bigint_toString amountInParsed else "0".
Proof.
  unfold build_swap. destruct (dex q).
  - destruct isNative.
    + destruct (encodeFunctionData w _); intros H; inversion H; reflexivity.
    + destruct (isNativeToken tokenOut);
        destruct (encodeFunctionData w _); intros H; inversion H; reflexivity.
  - destruct (encodeFunctionData w _); intros H; inversion H; reflexivity.
Qed.

Lemma checkApprovalNeeded_native w ua tokenIn amountInParsed sp l b l' :
  checkApprovalNeeded w true ua tokenIn amountInParsed sp l = (Ok b, l') ->
  b = false.
Proof. cbn. intros H. inversion H. reflexivity. Qed.

Lemma approval_json_needed b sym ua tokenIn sp amt :
  ap_needed (approval_json b sym ua tokenIn sp amt) = b
  /\ (b = true -> ap_token (approval_json b sym ua tokenIn sp amt) = Some tokenIn).
Proof. destruct b; cbn; split; auto; discriminate. Qed.

Lemma format_quote_fact w quote tokenIn tokenOut ua amountInParsed bps deadline q
    la y lb :
  format_quote w quote tokenIn tokenOut ua amountInParsed bps deadline
    (isNativeToken tokenIn) q la = (Ok y, lb) ->
  route_fact tokenIn amountInParsed y.
Proof.
  unfold format_quote. intros H.
  apply bind_Ok_inv in H. destruct H as ([[ra cd] v] & l1 & Hb & H).
  apply lift_inv in Hb. destruct Hb as [Hb _]. symmetry in Hb.
  apply build_swap_value in Hb.
  apply bind_Ok_inv in H. destruct H as (b & l2 & Hc & H).
  apply ret_inv in H. destruct H as [H _]. inversion H; subst y. clear H.
  unfold route_fact, route_json. cbn [r_transaction r_approval tx_value].
  destruct (approval_json_needed b (symbol (agg_tokenIn quote)) ua tokenIn ra
              amountInParsed) as [Hn Ht].
  split; [exact Hb|]. split.
  - intros Hnat. rewrite Hn. rewrite Hnat in Hc.
    eapply checkApprovalNeeded_native. exact Hc.
  - intros Hneed. apply Ht. rewrite <- Hn. exact Hneed.
Qed.

Lemma Forall2_Forall_right {A B : Type} (R : A -> B -> Prop) (P : B -> Prop) xs ys :
  Forall2 R xs ys -> (forall x y, R x y -> P y) -> Forall P ys.
Proof. induction 1; intros HP; constructor; eauto. Qed.

Lemma respond_inv w quote tokenIn tokenOut amountIn amountInParsed slippage ua l r l' :
  respond w quote tokenIn tokenOut amountIn amountInParsed slippage ua l = (Ok r, l') ->
  exists data,
    r = mkHttpResponse 200 (Success data)
    /\ Forall (route_fact tokenIn amountInParsed) (routes data)
    /\ d_tokenIn data
       = mkTokenAmountJson (address (agg_tokenIn quote)) (symbol (agg_tokenIn quote))
           amountIn (bigint_toString amountInParsed)
    /\ ta_address (d_tokenOut data) = address (agg_tokenOut quote).
Proof.
  unfold respond. intros H.
  apply bind_Ok_inv in H. destruct H as ([[ra cd] v] & l1 & Hb & H).
  apply lift_inv in Hb. destruct Hb as [Hb _]. symmetry in Hb.
  apply build_swap_value in Hb.
  apply bind_Ok_inv in H. destruct H as (fq & l2 & Hfq & H).
  apply bind_Ok_inv in H. destruct H as (b & l3 & Hc & H).
  apply ret_inv in H. destruct H as [H _]. inversion H; subst r. clear H.
  eexists. split; [reflexivity|]. cbn [d_tokenIn d_tokenOut ta_address].
  split; [|split; reflexivity].
  unfold routes. cbn [d_bestRoute d_allQuotes]. constructor.
  - unfold route_fact, route_json. cbn [r_transaction r_approval tx_value].
    destruct (approval_json_needed b (symbol (agg_tokenIn quote)) ua tokenIn ra
                amountInParsed) as [Hn Ht].
    split; [exact Hb|]. split.
    + intros Hnat. rewrite Hn. rewrite Hnat in Hc.
      eapply checkApprovalNeeded_native. exact Hc.
    + intros Hneed. apply Ht. rewrite <- Hn. exact Hneed.
  - apply promise_all_Ok_inv in Hfq.
    eapply Forall2_Forall_right; [exact Hfq|].
    intros q y (la & lb & Hq). eapply format_quote_fact. exact Hq.
Qed.

(** A successful response went through every stage of the handler. *)
Lemma post_quote_success_inv w req st data :
  fst (post_quote w req) = mkHttpResponse st (Success data) ->
  exists tokenInDecimals amountInParsed quote l0 l1 l2,
    parseUnits (or_default (req_amountIn req)) tokenInDecimals = Ok amountInParsed
    /\ getAggregatedQuote w (new_AggregatorService w) (or_default (req_tokenIn req))
         (or_default (req_tokenOut req)) amountInParsed l0 = (Ok quote, l1)
    /\ respond w quote (or_default (req_tokenIn req)) (or_default (req_tokenOut req))
         (or_default (req_amountIn req)) amountInParsed
         (match req_slippage req with Some x => x | None => (1 # 2)%Q end)
         (req_userAddress req) l1
       = (Ok (mkHttpResponse st (Success data)), l2).
Proof.
  intros Hfst. destruct (post_quote_fst w req) as (l' & H). rewrite Hfst in H.
  unfold post_quote_handler in H. apply try_catch_inv in H.
  destruct H as [(r & H & Hr)|(e & l1 & _ & H)];
    [|apply ret_inv in H; destruct H as [H _]; discriminate].
  inversion Hr; subst r. clear Hr. unfold post_quote_body in H.
  destruct (negb (truthy (req_tokenIn req)) || negb (truthy (req_tokenOut req))
            || negb (truthy (req_amountIn req)));
    [apply ret_inv in H; destruct H as [H _]; discriminate|].
  match type of H with context [if ?c then _ else _] => destruct c end;
    [apply ret_inv in H; destruct H as [H _]; discriminate|].
  apply bind_Ok_inv in H. destruct H as (d & l1 & Hd & H).
  apply resolve_decimals_returns in Hd. destruct d as [dec|resp].
  - unfold quote_for_amount in H.
    apply bind_Ok_inv in H. destruct H as (amt & l2 & Hp & H).
    apply lift_inv in Hp. destruct Hp as [Hp ->].
    apply bind_Ok_inv in H. destruct H as (quote & l3 & Hq & H).
    exists dec, amt, quote, l1, l3, l'. auto.
  - destruct Hd as (msg & ->). apply ret_inv in H. destruct H as [H _]. discriminate.
Qed.

(** C5.  In every successful response of POST /quote, the route of the best
    quote and the route of every quote carry: when [tokenIn] is the native
    sentinel, [approval.needed = false] and a [transaction.value] equal to
    the parsed input amount (the [amountWei] of [tokenIn]); when [tokenIn] is
    not native, [transaction.value = "0"]. *)
Theorem native_value_and_approval w req st data :
  fst (post_quote w req) = mkHttpResponse st (Success data) ->
  (exists tokenInDecimals amountInParsed,
     parseUnits (or_default (req_amountIn req)) tokenInDecimals = Ok amountInParsed
     /\ ta_amountWei (d_tokenIn data) = bigint_toString amountInParsed)
  /\ (isNativeToken (or_default (req_tokenIn req)) = true ->
      Forall (fun r => ap_needed (r_approval r) = false
                       /\ tx_value (r_transaction r) = ta_amountWei (d_tokenIn data))
             (routes data))
  /\ (isNativeToken (or_default (req_tokenIn req)) = false ->
      Forall (fun r => tx_value (r_transaction r) = "0") (routes data)).
Proof.
  intros H. apply post_quote_success_inv in H.
  destruct H as (dec & amt & quote & l0 & l1 & l2 & Hp & _ & H).
  apply respond_inv in H. destruct H as (data' & Heq & Hroutes & Hin & _).
  inversion Heq; subst data'. clear Heq. rewrite Hin. cbn [ta_amountWei].
  split; [exists dec, amt; auto|]. split; intros Hnat.
  - eapply Forall_impl; [|exact Hroutes]. intros r (Hv & Ha & _).
    rewrite Hnat in Hv. auto.
  - eapply Forall_impl; [|exact Hroutes]. intros r (Hv & _ & _).
    rewrite Hnat in Hv. exact Hv.
Qed.

Lemma example_native_response :
  exists data,
    fst (post_quote (example_world 1000000000 1002000000 1001000000 0)
           (example_request NATIVE_TOKEN_ADDRESS WETH
              (Some "0x7000000000000000000000000000000000000007")))
    = mkHttpResponse 200 (Success data).
Proof. eexists. vm_compute. reflexivity. Defined.

Lemma example_erc20_response :
  exists data,
    fst (post_quote (example_world 1000000000 1002000000 1001000000 0)
           (example_request WETH NATIVE_TOKEN_ADDRESS None))
    = mkHttpResponse 200 (Success data).
Proof. eexists. vm_compute. reflexivity. Defined.

Lemma native_value_and_approval_witness :
  (exists data,
     Forall (fun r => ap_needed (r_approval r) = false
                      /\ tx_value (r_transaction r) = ta_amountWei (d_tokenIn data))
            (routes data))
  /\ (exists data, Forall (fun r => tx_value (r_transaction r) = "0") (routes data)).
Proof.
  split.
  - destruct example_native_response as (data & H). exists data.
    apply (proj1 (proj2 (native_value_and_approval _ _ _ _ H))). reflexivity.
  - destruct example_erc20_response as (data & H). exists data.
    apply (proj2 (proj2 (native_value_and_approval _ _ _ _ H))). reflexivity.
Defined.

(** ** Letter case of addresses *)

Lemma getTokenInfo_address w a l t l' :
  Service_getTokenInfo w a l = (Ok t, l') -> address t = checksumAddress w a.
Proof.
  unfold Service_getTokenInfo. intros H.
  apply bind_Ok_inv in H. destruct H as (addr & l1 & Hv & H).
  apply lift_inv in Hv. destruct Hv as [Hv _].
  apply bind_Ok_inv in H. destruct H as ([n [sy d]] & l2 & _ & H).
  apply ret_inv in H. destruct H as [H _]. inversion H; subst t. cbn [address].
  unfold validateAddress, getAddress in Hv.
  destruct (negb (isAddress w true a)); [discriminate|].
  destruct (negb (isAddress w false a)); [discriminate|].
  inversion Hv. reflexivity.
Qed.

Lemma getAggregatedQuote_tokens w s tokenIn tokenOut amountIn l agg l' :
  getAggregatedQuote w s tokenIn tokenOut amountIn l = (Ok agg, l') ->
  address (agg_tokenIn agg) = checksumAddress w tokenIn
  /\ address (agg_tokenOut agg) = checksumAddress w tokenOut.
Proof.
  intros H. apply getAggregatedQuote_Ok_inv in H.
  destruct H as (first & tIn & tOut & l1 & l2 & _ & Hpar & qs & _ & Hagg).
  apply par_Ok_inv in Hpar. destruct Hpar as (l3 & H1 & H2).
  apply getTokenInfo_address in H1. apply getTokenInfo_address in H2.
  apply aggregate_Ok_inv in Hagg. destruct Hagg as (q & r & _ & _ & ->).
  cbn [agg_tokenIn agg_tokenOut]. auto.
Qed.

(** C8 (amended).  The lookups and comparisons on addresses ignore letter
    case: two addresses equal up to case get the same answer from the token
    registry and from the native-token test.  The responses do not: the
    addresses of [tokenIn] and [tokenOut] are returned in the checksummed form
    that address validation produces, not in lower case, and [approval.token]
    repeats [tokenIn] as the request spelled it. *)
Theorem lookups_ignore_case_responses_keep_it (a b : string) w req st data :
  toLowerCase a = toLowerCase b ->
  fst (post_quote w req) = mkHttpResponse st (Success data) ->
  isNativeToken a = isNativeToken b
  /\ getByAddress MAINNET_TOKENS a = getByAddress MAINNET_TOKENS b
  /\ ta_address (d_tokenIn data) = checksumAddress w (or_default (req_tokenIn req))
  /\ ta_address (d_tokenOut data) = checksumAddress w (or_default (req_tokenOut req))
  /\ Forall (fun r => ap_needed (r_approval r) = true ->
                      ap_token (r_approval r) = Some (or_default (req_tokenIn req)))
            (routes data).
Proof.
  intros Hab H. split; [unfold isNativeToken; rewrite Hab; reflexivity|].
  split; [unfold getByAddress; rewrite Hab; reflexivity|].
  apply post_quote_success_inv in H.
  destruct H as (dec & amt & quote & l0 & l1 & l2 & _ & Hq & H).
  apply getAggregatedQuote_tokens in Hq. destruct Hq as [Hin Hout].
  apply respond_inv in H. destruct H as (data' & Heq & Hroutes & Hdin & Hdout).
  inversion Heq; subst data'. clear Heq. rewrite Hdin, Hdout. cbn [ta_address].
  split; [exact Hin|]. split; [exact Hout|].
  eapply Forall_impl; [|exact Hroutes]. intros r (_ & _ & Ht). exact Ht.
Qed.

Lemma lookups_ignore_case_responses_keep_it_witness :
  isNativeToken (toLowerCase NATIVE_TOKEN_ADDRESS) = isNativeToken NATIVE_TOKEN_ADDRESS
  /\ getByAddress MAINNET_TOKENS (toLowerCase WETH) = getByAddress MAINNET_TOKENS WETH
  /\ exists data,
       ta_address (d_tokenIn data) = WETH
       /\ Forall (fun r => ap_needed (r_approval r) = true ->
                           ap_token (r_approval r) = Some WETH) (routes data).
Proof.
  destruct example_erc20_response as (data & H).
  destruct (lookups_ignore_case_responses_keep_it
              (toLowerCase NATIVE_TOKEN_ADDRESS) NATIVE_TOKEN_ADDRESS _ _ _ _
              eq_refl H) as (H1 & _ & _).
  destruct (lookups_ignore_case_responses_keep_it (toLowerCase WETH) WETH _ _ _ _
              eq_refl H) as (_ & H2 & H3 & _ & H4).
  split; [exact H1|]. split; [exact H2|]. exists data. split; assumption.
Defined.

(** C8 (as stated) fails.  The same request with [tokenIn] in lower case and
    in checksummed case gets responses that differ in [approval.token]; the
    address of [tokenIn] in the response is not in lower case; and a third
    spelling of the same address, whose case is not its checksum, is refused
    with status 400. *)
Lemma responses_depend_on_case :
  let w := example_world 1000000000 1002000000 1001000000 0 in
  let lower := example_request (toLowerCase WETH) NATIVE_TOKEN_ADDRESS None in
  let mixed := example_request WETH NATIVE_TOKEN_ADDRESS None in
  let other :=
    example_request "0x50498DC52BCD3DAEB54B7225A7D2FA8D536F313E"
      NATIVE_TOKEN_ADDRESS None in
  toLowerCase "0x50498DC52BCD3DAEB54B7225A7D2FA8D536F313E" = toLowerCase WETH
  /\ exists d1 d2,
       fst (post_quote w lower) = mkHttpResponse 200 (Success d1)
       /\ fst (post_quote w mixed) = mkHttpResponse 200 (Success d2)
       /\ ap_token (r_approval (d_bestRoute d1)) = Some (toLowerCase WETH)
       /\ ap_token (r_approval (d_bestRoute d2)) = Some WETH
       /\ String.eqb (toLowerCase WETH) WETH = false
       /\ ta_address (d_tokenIn d1) = WETH
       /\ fst (post_quote w other)
          = mkHttpResponse 400
              (Failure "Invalid address: 0x50498DC52BCD3DAEB54B7225A7D2FA8D536F313E").
Proof.
  split; [reflexivity|]. eexists. eexists.
  split; [vm_compute; reflexivity|]. split; [vm_compute; reflexivity|].
  repeat split; vm_compute; reflexivity.
Qed.

(** * Formatting and parsing of amounts *)

(** ** Strings of digits *)

Lemma length_append (a b : string) :
  String.length (a ++ b) = (String.length a + String.length b)%nat.
Proof. induction a as [|c a IH]; cbn; [reflexivity|]. rewrite IH. reflexivity. Qed.

Lemma append_nil_r (a : string) : a ++ "" = a.
Proof. induction a as [|c a IH]; cbn; [reflexivity|]. rewrite IH. reflexivity. Qed.

Lemma append_assoc (a b c : string) : (a ++ b) ++ c = a ++ b ++ c.
Proof. induction a as [|x a IH]; cbn; [reflexivity|]. rewrite IH. reflexivity. Qed.

Lemma substring_all (s : string) : substring 0 (String.length s) s = s.
Proof. induction s as [|c s IH]; cbn; [reflexivity|]. rewrite IH. reflexivity. Qed.

Lemma substring_prefix (a b : string) : substring 0 (String.length a) (a ++ b) = a.
Proof.
  induction a as [|c a IH]; cbn.
  - destruct b; reflexivity.
  - rewrite IH. reflexivity.
Qed.

Lemma substring_skip (a b : string) (n : nat) :
  substring (String.length a) n (a ++ b) = substring 0 n b.
Proof. induction a as [|c a IH]; cbn; [reflexivity|]. exact IH. Qed.

Lemma slice_from_append (a b : string) : slice_from (String.length a) (a ++ b) = b.
Proof.
  unfold slice_from. rewrite substring_skip, length_append.
  replace (String.length a + String.length b - String.length a)%nat
    with (String.length b) by lia.
  apply substring_all.
Qed.

(** A string splits at any position within it. *)
Lemma split_at (s : string) (n : nat) :
  (n <= String.length s)%nat ->
  exists a b, s = a ++ b /\ String.length a = n.
Proof.
  revert n. induction s as [|c s IH]; intros n Hn.
  - exists "", "". cbn in *. split; [reflexivity|lia].
  - destruct n as [|n].
    + exists "", (String c s). auto.
    + cbn in Hn. destruct (IH n ltac:(lia)) as (a & b & -> & Hl).
      exists (String c a), b. cbn. split; [reflexivity|]. rewrite Hl. reflexivity.
Qed.

Lemma zeros_length (n : nat) : String.length (zeros n) = n.
Proof. induction n; cbn; [reflexivity|]. rewrite IHn. reflexivity. Qed.

Lemma zeros_add (a b : nat) : zeros (a + b) = zeros a ++ zeros b.
Proof. induction a; cbn; [reflexivity|]. rewrite IHa. reflexivity. Qed.

Lemma all_digits_zeros (n : nat) : all_digits (zeros n) = true.
Proof. induction n; cbn; [reflexivity|]. exact IHn. Qed.

Lemma all_digits_append (a b : string) :
  all_digits (a ++ b) = all_digits a && all_digits b.
Proof.
  induction a as [|c a IH]; cbn; [reflexivity|]. rewrite IH, andb_assoc. reflexivity.
Qed.

Lemma digits_value_acc_append (a b : string) (acc : Z) :
  digits_value_acc (a ++ b) acc = digits_value_acc b (digits_value_acc a acc).
Proof. revert acc. induction a as [|c a IH]; intros acc; cbn; [reflexivity|]. apply IH. Qed.

Lemma digits_value_acc_shift (s : string) (acc : Z) :
  digits_value_acc s acc = acc * 10 ^ Z.of_nat (String.length s) + digits_value s.
Proof.
  unfold digits_value. revert acc. induction s as [|c s IH]; intros acc.
  - cbn. lia.
  - cbn [digits_value_acc String.length]. rewrite IH, (IH (10 * 0 + _)).
    rewrite Nat2Z.inj_succ, Z.pow_succ_r by lia. ring.
Qed.

Lemma digits_value_append (a b : string) :
  digits_value (a ++ b)
  = digits_value a * 10 ^ Z.of_nat (String.length b) + digits_value b.
Proof.
  unfold digits_value at 1. rewrite digits_value_acc_append.
  rewrite digits_value_acc_shift. reflexivity.
Qed.

Lemma digits_value_zeros (n : nat) : digits_value (zeros n) = 0.
Proof.
  induction n; [reflexivity|]. change (zeros (S n)) with ("0" ++ zeros n).
  rewrite digits_value_append, IHn. reflexivity.
Qed.

Lemma digit_char_is_digit (d : Z) : 0 <= d < 10 -> is_digit (digit_char d) = true.
Proof.
  intros H. assert (Hd : d = 0 \/ d = 1 \/ d = 2 \/ d = 3 \/ d = 4 \/ d = 5 \/ d = 6
                         \/ d = 7 \/ d = 8 \/ d = 9) by lia.
  repeat (destruct Hd as [->|Hd]; [reflexivity|]). subst. reflexivity.
Qed.

Lemma digit_of_digit_char (d : Z) : 0 <= d < 10 -> digit_of_ascii (digit_char d) = d.
Proof.
  intros H. assert (Hd : d = 0 \/ d = 1 \/ d = 2 \/ d = 3 \/ d = 4 \/ d = 5 \/ d = 6
                         \/ d = 7 \/ d = 8 \/ d = 9) by lia.
  repeat (destruct Hd as [->|Hd]; [reflexivity|]). subst. reflexivity.
Qed.

(** [digits_fuel] writes the digits of [n] in front of [acc]. *)
Lemma digits_fuel_spec (fuel : nat) (n : Z) (acc : string) :
  0 <= n < 2 ^ Z.of_nat fuel -> (0 < fuel)%nat ->
  exists ds, digits_fuel fuel n acc = ds ++ acc
             /\ all_digits ds = true /\ digits_value ds = n
             /\ (0 < String.length ds)%nat.
Proof.
  revert n acc. induction fuel as [|fuel IH]; intros n acc Hn Hf; [lia|].
  cbn [digits_fuel]. destruct (Z.ltb_spec n 10) as [Hlt|Hge].
  - exists (String (digit_char (n mod 10)) ""). cbn [append all_digits String.length].
    split; [reflexivity|]. rewrite Z.mod_small by lia.
    rewrite digit_char_is_digit by lia. split; [reflexivity|].
    split; [|lia]. unfold digits_value. cbn [digits_value_acc].
    rewrite digit_of_digit_char by lia. lia.
  - assert (Hfuel : (0 < fuel)%nat).
    { destruct fuel; [|lia]. cbn in Hn. lia. }
    assert (Hdiv : 0 <= n / 10 < 2 ^ Z.of_nat fuel).
    { split; [apply Z.div_pos; lia|].
      apply Z.div_lt_upper_bound; [lia|].
      rewrite Nat2Z.inj_succ, Z.pow_succ_r in Hn by lia. lia. }
    destruct (IH (n / 10) (String (digit_char (n mod 10)) acc) Hdiv Hfuel)
      as (ds & Heq & Hall & Hval & Hlen).
    exists (ds ++ String (digit_char (n mod 10)) ""). split; [|split; [|split]].
    + rewrite Heq, append_assoc. reflexivity.
    + rewrite all_digits_append, Hall. cbn [all_digits andb].
      rewrite digit_char_is_digit by (apply Z.mod_pos_bound; lia). reflexivity.
    + rewrite digits_value_append, Hval. cbn [String.length].
      unfold digits_value at 1. cbn [digits_value_acc].
      rewrite digit_of_digit_char by (apply Z.mod_pos_bound; lia).
      pose proof (Z.div_mod n 10 ltac:(lia)). lia.
    + rewrite length_append. cbn. lia.
Qed.

Lemma digits_spec (n : Z) :
  0 <= n ->
  all_digits (digits n) = true /\ digits_value (digits n) = n
  /\ (0 < String.length (digits n))%nat.
Proof.
  intros Hn. unfold digits.
  destruct (digits_fuel_spec (S (Z.to_nat (Z.log2 n))) n "") as (ds & Heq & H).
  - split; [exact Hn|]. rewrite Nat2Z.inj_succ, Z2Nat.id by apply Z.log2_nonneg.
    destruct (Z.eq_dec n 0) as [->|Hne]; [reflexivity|].
    apply Z.log2_spec. lia.
  - lia.
  - rewrite Heq, append_nil_r. exact H.
Qed.

(** Trailing zeros: what is trimmed is a run of zeros. *)
Lemma trim_trailing_zeros_spec (s : string) :
  exists j, s = trim_trailing_zeros s ++ zeros j.
Proof.
  induction s as [|c s (j & IH)].
  - exists 0%nat. reflexivity.
  - cbn [trim_trailing_zeros]. destruct (trim_trailing_zeros s) as [|c' r] eqn:Ht.
    + destruct (Ascii.eqb_spec c "0") as [->|Hne].
      * exists (S j). cbn. rewrite IH at 1. reflexivity.
      * exists j. cbn. rewrite IH at 1. reflexivity.
    + exists j. cbn. rewrite IH at 1. reflexivity.
Qed.

Lemma all_digits_trim (s : string) :
  all_digits s = true -> all_digits (trim_trailing_zeros s) = true.
Proof.
  intros H. destruct (trim_trailing_zeros_spec s) as (j & Hs).
  rewrite Hs, all_digits_append in H. apply andb_true_iff in H. apply H.
Qed.

Lemma is_digit_cases (c : ascii) :
  is_digit c = true ->
  c = "0"%char \/ c = "1"%char \/ c = "2"%char \/ c = "3"%char \/ c = "4"%char
  \/ c = "5"%char \/ c = "6"%char \/ c = "7"%char \/ c = "8"%char \/ c = "9"%char.
Proof.
  destruct c as [[] [] [] [] [] [] [] []]; intros H; vm_compute in H;
    try discriminate H; auto 10.
Qed.

(** A string of digits that is not empty starts with neither sign. *)
Lemma digits_no_sign (s : string) :
  all_digits s = true ->
  starts_with_minus s = false /\ starts_with_plus s = false.
Proof.
  destruct s as [|c r]; [auto|]. cbn [all_digits]. intros H.
  apply andb_true_iff in H. destruct H as [H _].
  destruct (is_digit_cases c H) as [->|[->|[->|[->|[->|[->|[->|[->|[->| ->]]]]]]]]];
    auto.
Qed.

Lemma digit_not_dot (c : ascii) : is_digit c = true -> Ascii.eqb c "." = false.
Proof.
  intros H.
  destruct (is_digit_cases c H) as [->|[->|[->|[->|[->|[->|[->|[->|[->| ->]]]]]]]]];
    reflexivity.
Qed.

Lemma split_dot_digits (ip rest : string) :
  all_digits ip = true -> split_dot (ip ++ String "." rest) = (ip, Some rest).
Proof.
  induction ip as [|c ip IH]; cbn [all_digits append split_dot]; intros H.
  - reflexivity.
  - apply andb_true_iff in H. destruct H as [Hc H].
    rewrite (digit_not_dot c Hc), (IH H). reflexivity.
Qed.

Lemma split_dot_no_dot (ip : string) :
  all_digits ip = true -> split_dot ip = (ip, None).
Proof.
  induction ip as [|c ip IH]; cbn [all_digits split_dot]; intros H.
  - reflexivity.
  - apply andb_true_iff in H. destruct H as [Hc H].
    rewrite (digit_not_dot c Hc), (IH H). reflexivity.
Qed.

Lemma take_digits_all (ip : string) : all_digits ip = true -> take_digits ip = ip.
Proof.
  induction ip as [|c ip IH]; cbn [all_digits take_digits]; intros H.
  - reflexivity.
  - apply andb_true_iff in H. destruct H as [Hc H]. rewrite Hc, (IH H). reflexivity.
Qed.

Lemma take_digits_dot (ip rest : string) :
  all_digits ip = true -> take_digits (ip ++ String "." rest) = ip.
Proof.
  induction ip as [|c ip IH]; cbn [all_digits append take_digits]; intros H.
  - reflexivity.
  - apply andb_true_iff in H. destruct H as [Hc H]. rewrite Hc, (IH H). reflexivity.
Qed.

Lemma BigInt_of_digits (s : string) :
  all_digits s = true -> (0 < String.length s)%nat ->
  BigInt_of_string s = Ok (digits_value s).
Proof.
  intros Hall Hlen. unfold BigInt_of_string.
  destruct (String.eqb_spec s "") as [->|_]; [cbn in Hlen; lia|].
  rewrite (proj1 (digits_no_sign s Hall)), Hall. reflexivity.
Qed.

(** The shape of [fixed_digits n f] for [f > 0]: an integer part that is not
    empty, a dot, and [f] fractional digits; together they are the digits
    of [n]. *)
Lemma fixed_digits_shape (n : Z) (f : nat) :
  0 <= n -> (0 < f)%nat ->
  exists ip fp,
    fixed_digits n f = ip ++ String "." fp
    /\ String.length fp = f /\ (0 < String.length ip)%nat
    /\ all_digits ip = true /\ all_digits fp = true
    /\ digits_value (ip ++ fp) = n.
Proof.
  intros Hn Hf. unfold fixed_digits.
  destruct (Nat.eqb_spec f 0) as [|_]; [lia|].
  destruct (digits_spec n Hn) as (Hall & Hval & Hlen).
  set (m := if (String.length (digits n) <=? f)%nat
            then zeros (f + 1 - String.length (digits n)) ++ digits n
            else digits n).
  assert (Hm : all_digits m = true /\ digits_value m = n
               /\ (f < String.length m)%nat).
  { subst m. destruct (Nat.leb_spec (String.length (digits n)) f).
    - rewrite all_digits_append, all_digits_zeros, Hall.
      rewrite digits_value_append, digits_value_zeros, Hval.
      rewrite length_append, zeros_length. repeat split; lia.
    - auto. }
  destruct Hm as (Hmall & Hmval & Hmlen).
  destruct (split_at m (String.length m - f)) as (a & b & Hab & Ha); [lia|].
  assert (Hb : String.length b = f).
  { pose proof (length_append a b) as Hl. rewrite <- Hab in Hl. lia. }
  clearbody m. subst m. rewrite <- Ha.
  rewrite substring_prefix, slice_from_append.
  exists a, b.
  rewrite all_digits_append in Hmall. apply andb_true_iff in Hmall.
  destruct Hmall as [Haall Hball]. repeat split; auto. lia.
Qed.

Lemma fixed_digits_zero_frac (n : Z) : fixed_digits n 0 = digits n.
Proof. reflexivity. Qed.

Lemma valid_decimal_digits_dot (ip fp : string) :
  all_digits ip = true -> all_digits fp = true ->
  (0 < String.length ip)%nat ->
  valid_decimal (ip ++ String "." fp) = true.
Proof.
  intros Hi Hf Hl. unfold valid_decimal.
  assert (Hs : starts_with_minus (ip ++ String "." fp) = false).
  { destruct ip as [|c ip]; [cbn in Hl; lia|]. cbn [append].
    apply (digits_no_sign (String c ip)) in Hi. destruct Hi as [Hi _]. exact Hi. }
  rewrite Hs, (split_dot_digits ip fp Hi), Hi, Hf. reflexivity.
Qed.

Lemma padEnd_trim (fp : string) (d : nat) :
  (String.length fp <= d)%nat ->
  padEnd0 (trim_trailing_zeros fp) d = fp ++ zeros (d - String.length fp).
Proof.
  intros Hd. unfold padEnd0. destruct (trim_trailing_zeros_spec fp) as (j & Hj).
  assert (Hl : String.length fp = (String.length (trim_trailing_zeros fp) + j)%nat).
  { rewrite Hj at 1. rewrite length_append, zeros_length. reflexivity. }
  rewrite Hj at 3. rewrite append_assoc, <- zeros_add. f_equal. f_equal. lia.
Qed.

Lemma trim_length_le (fp : string) :
  (String.length (trim_trailing_zeros fp) <= String.length fp)%nat.
Proof.
  destruct (trim_trailing_zeros_spec fp) as (j & Hj).
  rewrite Hj at 2. rewrite length_append. lia.
Qed.

(** [parseUnits] on a literal with [f <= decimals] fractional digits. *)
Lemma parseUnits_digits_dot (ip fp : string) (decimals : nat) :
  all_digits ip = true -> all_digits fp = true ->
  (0 < String.length ip)%nat -> (0 < decimals)%nat ->
  (String.length fp <= decimals)%nat ->
  parseUnits (ip ++ String "." fp) decimals
  = Ok (digits_value (ip ++ fp)
        * 10 ^ Z.of_nat (decimals - String.length fp)).
Proof.
  intros Hi Hf Hl Hd Hfd. unfold parseUnits. cbv zeta.
  rewrite (valid_decimal_digits_dot ip fp Hi Hf Hl). cbn [negb].
  rewrite !(split_dot_digits ip fp Hi).
  rewrite !(proj1 (digits_no_sign ip Hi)).
  destruct (Nat.eqb_spec decimals 0) as [|_]; [lia|].
  pose proof (trim_length_le fp) as Ht.
  destruct (Nat.ltb_spec decimals (String.length (trim_trailing_zeros fp))) as [|_];
    [lia|].
  rewrite (padEnd_trim fp decimals Hfd). cbn [append].
  rewrite BigInt_of_digits.
  - f_equal. rewrite <- append_assoc, digits_value_append, digits_value_zeros, zeros_length.
    lia.
  - rewrite !all_digits_append, Hi, Hf, all_digits_zeros. reflexivity.
  - rewrite length_append. lia.
Qed.

Lemma parseUnits_digits_0 (n : Z) : 0 <= n -> parseUnits (digits n) 0 = Ok n.
Proof.
  intros Hn. destruct (digits_spec n Hn) as (Hall & Hval & Hlen).
  unfold parseUnits, valid_decimal. cbv zeta.
  rewrite !(proj1 (digits_no_sign _ Hall)), !(split_dot_no_dot _ Hall), Hall.
  cbv beta iota. rewrite !(proj1 (digits_no_sign _ Hall)).
  change (trim_trailing_zeros "0") with "".
  change (Math_round (round64 (decimal_value "" "")) =? 1) with false.
  cbn [negb andb Nat.eqb append]. rewrite append_nil_r, BigInt_of_digits by assumption.
  rewrite Hval. reflexivity.
Qed.

Lemma append_digits_no_sign (a rest : string) :
  all_digits a = true -> (0 < String.length a)%nat ->
  starts_with_minus (a ++ rest) = false /\ starts_with_plus (a ++ rest) = false.
Proof.
  destruct a as [|c a]; [cbn; lia|]. intros H _. cbn [append].
  apply (digits_no_sign (String c "")). cbn [all_digits] in *.
  apply andb_true_iff in H. destruct H as [H _]. rewrite H. reflexivity.
Qed.

Lemma pow10_inject (a b : nat) :
  (inject_Z (10 ^ Z.of_nat (a + b))
   == inject_Z (10 ^ Z.of_nat a) * inject_Z (10 ^ Z.of_nat b))%Q.
Proof.
  rewrite Nat2Z.inj_add, Z.pow_add_r by lia. rewrite inject_Z_mult. apply Qeq_refl.
Qed.

Lemma pow10_inject_nonzero (a : nat) : ~ (inject_Z (10 ^ Z.of_nat a) == 0)%Q.
Proof.
  intros H. unfold Qeq in H. cbn [Qnum Qden inject_Z] in H.
  assert (0 < 10 ^ Z.of_nat a) by (apply Z.pow_pos_nonneg; lia). lia.
Qed.

(** The value of a literal whose fraction lost [j] trailing zeros. *)
Lemma decimal_value_trimmed (ip fp : string) (j : nat) :
  (decimal_value ip fp
   == inject_Z (digits_value (ip ++ fp ++ zeros j))
      / inject_Z (10 ^ Z.of_nat (String.length fp + j)))%Q.
Proof.
  unfold decimal_value.
  rewrite !digits_value_append, digits_value_zeros, zeros_length, length_append,
    zeros_length.
  rewrite Z.add_0_r, inject_Z_plus, !inject_Z_mult, !pow10_inject.
  pose proof (pow10_inject_nonzero (String.length fp)).
  pose proof (pow10_inject_nonzero j).
  field. split; assumption.
Qed.

(** [parseFloat (formatUnits m d)] is the number nearest to [m / 10^d]. *)
Lemma parseFloat_formatUnits (m : Z) (d : nat) :
  0 <= m ->
  exists v, parseFloat (formatUnits m d) = Some (round64 v)
            /\ (v == inject_Z m / inject_Z (10 ^ Z.of_nat d))%Q.
Proof.
  intros Hm. destruct (digits_spec m Hm) as (Hall & Hval & Hlen).
  unfold formatUnits. cbv zeta. unfold bigint_toString.
  destruct (Z.ltb_spec m 0) as [|_]; [lia|].
  rewrite !(proj1 (digits_no_sign _ Hall)).
  set (P := padStart0 (digits m) d).
  assert (HP : all_digits P = true /\ digits_value P = m
               /\ (d <= String.length P)%nat /\ (0 < String.length P)%nat).
  { subst P. unfold padStart0.
    rewrite all_digits_append, all_digits_zeros, digits_value_append,
      digits_value_zeros, length_append, zeros_length, Hall, Hval.
    repeat split; lia. }
  destruct HP as (HPall & HPval & HPd & HPlen).
  destruct (split_at P (String.length P - d)) as (a & b & Hab & Ha); [lia|].
  assert (Hb : String.length b = d).
  { pose proof (length_append a b) as Hl. rewrite <- Hab in Hl. lia. }
  clearbody P. subst P. rewrite <- Ha. rewrite substring_prefix, slice_from_append.
  rewrite all_digits_append in HPall. apply andb_true_iff in HPall.
  destruct HPall as [Haall Hball].
  destruct (trim_trailing_zeros_spec b) as (j & Hj).
  pose proof (all_digits_trim b Hball) as Htall.
  set (tb := trim_trailing_zeros b) in *.
  set (a' := if String.eqb a "" then "0" else a).
  assert (Ha' : all_digits a' = true /\ (0 < String.length a')%nat
                /\ digits_value a' = digits_value a).
  { subst a'. destruct (String.eqb_spec a "") as [->|Hne]; [cbn; auto|].
    repeat split; [exact Haall|]. destruct a; [congruence|cbn; lia]. }
  destruct Ha' as (Ha'all & Ha'len & Ha'val).
  exists (decimal_value a' tb). split.
  - cbn [append]. unfold parseFloat. cbv zeta.
    destruct (String.eqb_spec tb "") as [Htb|Htb].
    + rewrite append_nil_r, !(proj1 (digits_no_sign _ Ha'all)),
        !(proj2 (digits_no_sign _ Ha'all)).
      cbn [orb]. rewrite (take_digits_all a' Ha'all).
      replace (slice_from (String.length a') a') with "".
      2:{ pose proof (slice_from_append a' "") as E. rewrite append_nil_r in E.
          symmetry. exact E. }
      destruct (String.eqb_spec a' "") as [E|_]; [rewrite E in Ha'len; cbn in Ha'len; lia|].
      cbn [andb]. rewrite Htb. reflexivity.
    + destruct (append_digits_no_sign a' (String "." tb) Ha'all Ha'len) as [Hm1 Hp1].
      rewrite !Hm1, !Hp1. cbn [orb].
      rewrite (take_digits_dot a' tb Ha'all), slice_from_append.
      rewrite (take_digits_all tb Htall).
      destruct (String.eqb_spec a' "") as [E|_]; [rewrite E in Ha'len; cbn in Ha'len; lia|].
      reflexivity.
  - rewrite (decimal_value_trimmed a' tb j).
    assert (Hd : (String.length tb + j)%nat = d).
    { pose proof (f_equal String.length Hj) as E.
      rewrite length_append, zeros_length in E. lia. }
    rewrite Hd, <- Hj.
    assert (Hv : digits_value (a' ++ b) = m).
    { rewrite digits_value_append, Ha'val, <- digits_value_append. exact HPval. }
    rewrite Hv. apply Qeq_refl.
Qed.


(** ** Rounding to binary64 *)

Lemma round64_compat (x y : Q) : (x == y)%Q -> round64 x = round64 y.
Proof. intros H. unfold round64. rewrite (Qred_complete x y H). reflexivity. Qed.

Lemma Qfloor_unique (x : Q) (n : Z) :
  (inject_Z n <= x)%Q -> (x < inject_Z (n + 1))%Q -> Qfloor x = n.
Proof.
  intros Hle Hlt.
  assert (H1 : n <= Qfloor x).
  { rewrite <- (Qfloor_Z n). apply Qfloor_resp_le. exact Hle. }
  assert (H2 : Qfloor x < n + 1).
  { rewrite Zlt_Qlt. eapply Qle_lt_trans; [apply Qfloor_le|exact Hlt]. }
  lia.
Qed.

(** The rounded quotient is within half a unit of the quotient. *)
Lemma round_half_even_error (a b : Z) :
  0 <= a -> 0 < b ->
  - b <= 2 * (round_half_even a b * b - a) <= b.
Proof.
  intros Ha Hb. unfold round_half_even.
  pose proof (Z.div_mod a b ltac:(lia)) as Hdm.
  pose proof (Z.mod_pos_bound a b Hb) as Hr.
  destruct (Z.ltb_spec (2 * (a mod b)) b); [nia|].
  destruct (Z.ltb_spec b (2 * (a mod b))); [nia|].
  destruct (Z.even (a / b)); nia.
Qed.

(** [2 ^ floor_log2 p q <= p / q]. *)
Lemma floor_log2_lower (p q : positive) :
  let e := floor_log2 p q in
  (0 <= e -> 2 ^ e * Zpos q <= Zpos p)
  /\ (e < 0 -> Zpos q <= Zpos p * 2 ^ (- e)).
Proof.
  unfold floor_log2.
  pose proof (Z.log2_spec (Zpos p) ltac:(lia)) as [Hp1 Hp2].
  pose proof (Z.log2_spec (Zpos q) ltac:(lia)) as [Hq1 Hq2].
  pose proof (Z.log2_nonneg (Zpos p)) as Hlp.
  pose proof (Z.log2_nonneg (Zpos q)) as Hlq.
  set (lp := Z.log2 (Zpos p)) in *. set (lq := Z.log2 (Zpos q)) in *.
  rewrite Z.pow_succ_r in Hp2, Hq2 by assumption.
  destruct (Z.leb_spec 0 (lp - lq)) as [He0|He0].
  - destruct (Z.leb_spec (Zpos q * 2 ^ (lp - lq)) (Zpos p)) as [Ht|Ht].
    + split; intros; lia.
    + assert (Hlpq : 2 ^ lp = 2 ^ lq * 2 ^ (lp - lq)).
      { rewrite <- Z.pow_add_r by lia. f_equal. lia. }
      split; intros He.
      * assert (Hs : 2 ^ (lp - lq) = 2 * 2 ^ (lp - lq - 1)).
        { rewrite <- Z.pow_succ_r by lia. f_equal. lia. }
        assert (0 < 2 ^ (lp - lq - 1)) by (apply Z.pow_pos_nonneg; lia).
        nia.
      * assert (E : lp - lq = 0) by lia. rewrite E in Hlpq.
        rewrite Z.pow_0_r in Hlpq. rewrite E. change (2 ^ (- (0 - 1))) with 2. lia.
  - assert (Hlqp : 2 ^ lq = 2 ^ lp * 2 ^ (- (lp - lq))).
    { rewrite <- Z.pow_add_r by lia. f_equal. lia. }
    assert (0 < 2 ^ (- (lp - lq))) by (apply Z.pow_pos_nonneg; lia).
    destruct (Z.leb_spec (Zpos q) (Zpos p * 2 ^ (- (lp - lq)))) as [Ht|Ht].
    + split; intros; lia.
    + split; intros He; [lia|].
      replace (- (lp - lq - 1)) with (Z.succ (- (lp - lq))) by lia.
      rewrite Z.pow_succ_r by lia. nia.
Qed.

(** The number nearest to [n / f], for [n] below [2^52]: it is [m / 2^k]
    with [m * f] within half a unit (scaled by [2^k]) of [n]. *)
Lemma round64_fixed (n : Z) (f : positive) (x : Q) :
  1 <= n < 2 ^ 52 -> Zpos f <= 10 ^ 6 ->
  (x == inject_Z n / inject_Z (Zpos f))%Q ->
  exists m k,
    0 < k /\ 0 <= m
    /\ (round64 x == inject_Z m * (1 # Z.to_pos (2 ^ k)))%Q
    /\ 2 ^ k * (2 * n - 1) <= 2 * m * Zpos f < 2 ^ k * (2 * n + 1).
Proof.
  intros Hn Hf Hx. unfold round64.
  assert (Hr : (Qred x == inject_Z n / inject_Z (Zpos f))%Q)
    by (rewrite Qred_correct; exact Hx).
  destruct (Qred x) as [num q]. unfold Qeq in Hr. cbn in Hr.
  destruct num as [|p|p]; try nia. cbn [Qnum Qden].
  assert (Hpq : Zpos p * Zpos f = n * Zpos q) by lia. clear Hr.
  unfold round64_pos.
  destruct (floor_log2_lower p q) as [He1 He2].
  set (e := floor_log2 p q) in *.
  assert (H52 : 2 ^ 52 = 4503599627370496) by reflexivity.
  (* the exponent of the last place is negative *)
  assert (Ht : Z.max (e - 52) (-1074) < 0).
  { destruct (Z.le_gt_cases 52 e) as [Hge|]; [|lia].
    exfalso. specialize (He1 ltac:(lia)).
    assert (Hp2 : 2 ^ e = 2 ^ 52 * 2 ^ (e - 52)).
    { rewrite <- Z.pow_add_r by lia. f_equal. lia. }
    assert (0 < 2 ^ (e - 52)) by (apply Z.pow_pos_nonneg; lia).
    nia. }
  set (t := Z.max (e - 52) (-1074)) in *.
  destruct (Z.leb_spec 0 t) as [|_]; [lia|].
  set (k := - t). assert (Hk : 0 < k) by lia.
  assert (HK : 0 < 2 ^ k) by (apply Z.pow_pos_nonneg; lia).
  pose proof (round_half_even_error (Zpos p * 2 ^ k) (Zpos q) ltac:(nia) ltac:(lia))
    as Herr.
  pose proof (round_half_even_nonneg (Zpos p * 2 ^ k) (Zpos q) ltac:(nia) ltac:(lia))
    as Hm.
  set (m := round_half_even (Zpos p * 2 ^ k) (Zpos q)) in *.
  (* the scale exceeds f *)
  assert (HF : Zpos f < 2 ^ k).
  { destruct (Z.le_gt_cases (e - 52) (-1074)) as [Hsmall|Hbig].
    - assert (Ek : k = 1074) by lia. rewrite Ek.
      assert (10 ^ 6 < 2 ^ 1074) by reflexivity. lia.
    - assert (Ek : k = 52 - e) by lia.
      destruct (Z.le_gt_cases 0 e) as [Hpos|Hneg].
      + specialize (He1 Hpos).
        assert (Hp2 : 2 ^ 52 = 2 ^ e * 2 ^ k).
        { rewrite <- Z.pow_add_r by lia. f_equal. lia. }
        assert (0 < 2 ^ e) by (apply Z.pow_pos_nonneg; lia).
        nia.
      + specialize (He2 Hneg).
        assert (Hp2 : 2 ^ k = 2 ^ 52 * 2 ^ (- e)).
        { rewrite <- Z.pow_add_r by lia. f_equal. lia. }
        assert (0 < 2 ^ (- e)) by (apply Z.pow_pos_nonneg; lia).
        nia. }
  exists m, k. split; [exact Hk|]. split; [exact Hm|]. split.
  - rewrite Qred_correct. unfold pow2Q.
    destruct (Z.leb_spec 0 t) as [|_]; [lia|]. apply Qeq_refl.
  - nia.
Qed.

Lemma Qlt_bool_false (x y : Q) : (y <= x)%Q -> Qlt_bool x y = false.
Proof.
  intros H. unfold Qlt_bool. apply negb_false_iff. apply Qle_bool_iff. exact H.
Qed.

Lemma Qle_bool_false (x y : Q) : (y < x)%Q -> Qle_bool x y = false.
Proof.
  intros H. destruct (Qle_bool x y) eqn:E; [|reflexivity].
  apply Qle_bool_iff in E. exfalso. apply (Qlt_not_le _ _ H). exact E.
Qed.

Lemma Qeq_bool_false (x : Q) : (0 < x)%Q -> Qeq_bool x 0 = false.
Proof.
  intros H. destruct (Qeq_bool x 0) eqn:E; [|reflexivity].
  apply Qeq_bool_iff in E. rewrite E in H. exfalso. apply (Qlt_irrefl 0). exact H.
Qed.

(** The branch [formatTokenAmount] takes on the number nearest to [n / 10^fd],
    and what [toFixed] prints for it. *)
Lemma format_rounded (n : Z) (fd : nat) (x : Q) :
  1 <= n < 2 ^ 52 -> (fd <= 6)%nat ->
  (x == inject_Z n / inject_Z (10 ^ Z.of_nat fd))%Q ->
  (if Qeq_bool (round64 x) 0 then "0"
   else if Qlt_bool (round64 x) (round64 (1 # 1000000)) then toExponential (round64 x) 4
   else toFixed (round64 x) fd)
  = fixed_digits n fd.
Proof.
  intros Hn Hfd Hx.
  assert (HF : 0 < 10 ^ Z.of_nat fd <= 10 ^ 6).
  { split; [apply Z.pow_pos_nonneg; lia|]. apply Z.pow_le_mono_r; lia. }
  set (F := 10 ^ Z.of_nat fd) in *.
  assert (HFp : F = Zpos (Z.to_pos F)) by (rewrite Z2Pos.id; lia).
  rewrite HFp in Hx.
  destruct (round64_fixed n (Z.to_pos F) x Hn ltac:(lia) Hx)
    as (m & k & Hk & Hm & Hnum & Hb).
  rewrite <- HFp in Hb.
  assert (HK : 0 < 2 ^ k) by (apply Z.pow_pos_nonneg; lia).
  set (K := 2 ^ k) in *.
  assert (HKp : Zpos (Z.to_pos K) = K) by (apply Z2Pos.id; lia).
  assert (Hmpos : 0 < m) by nia.
  assert (Hpos : (0 < round64 x)%Q).
  { rewrite Hnum. unfold Qlt. cbn [Qnum Qden Qmult Qplus inject_Z]. lia. }
  (* at least 1e-6 *)
  assert (Hsmall : (round64 (1 # 1000000) <= round64 x)%Q).
  { destruct (Z.eq_dec n 1) as [->|Hn1].
    - destruct (Z.eq_dec F (10 ^ 6)) as [HF6|HF6].
      + rewrite (round64_compat x (1 # 1000000)); [apply Qle_refl|].
        rewrite Hx, <- HFp, HF6. reflexivity.
      + assert (Hle : F <= 10 ^ 5).
        { subst F. destruct (Nat.eq_dec fd 6) as [->|]; [exfalso; apply HF6; reflexivity|].
          apply Z.pow_le_mono_r; lia. }
        apply Qle_trans with (3 # 2000000)%Q; [vm_compute; discriminate|].
        rewrite Hnum. unfold Qle. cbn [Qnum Qden Qmult Qplus inject_Z]. rewrite ?Pos2Z.inj_mul, ?HKp.
        assert (10 ^ 5 = 100000) by reflexivity. nia.
    - apply Qle_trans with (3 # 2000000)%Q; [vm_compute; discriminate|].
      rewrite Hnum. unfold Qle. cbn [Qnum Qden Qmult Qplus inject_Z]. rewrite ?Pos2Z.inj_mul, ?HKp.
      assert (10 ^ 6 = 1000000) by reflexivity. nia. }
  rewrite (Qeq_bool_false _ Hpos), (Qlt_bool_false _ _ Hsmall).
  unfold toFixed. cbv zeta.
  assert (Habs : (Qabs (round64 x) == inject_Z m * (1 # Z.to_pos K))%Q).
  { rewrite Qabs_pos by (apply Qlt_le_weak; exact Hpos). exact Hnum. }
  assert (Hbig : Qle_bool (inject_Z (10 ^ 21)) (Qabs (round64 x)) = false).
  { apply Qle_bool_false. rewrite Habs. unfold Qlt. cbn [Qnum Qden Qmult Qplus inject_Z]. rewrite ?Pos2Z.inj_mul, ?HKp.
    assert (2 ^ 52 = 4503599627370496) by reflexivity.
    assert (10 ^ 21 = 1000000000000000000000) by reflexivity. nia. }
  rewrite Hbig. fold F.
  assert (Hfloor : Qfloor (Qabs (round64 x) * inject_Z F + (1 # 2)) = n).
  { apply Qfloor_unique; rewrite Habs.
    - unfold Qle. cbn [Qnum Qden Qmult Qplus inject_Z]. rewrite ?Pos2Z.inj_mul, ?HKp. nia.
    - unfold Qlt. cbn [Qnum Qden Qmult Qplus inject_Z]. rewrite ?Pos2Z.inj_mul, ?HKp. nia. }
  rewrite Hfloor.
  rewrite (Qlt_bool_false (round64 x) 0) by (apply Qlt_le_weak; exact Hpos).
  reflexivity.
Qed.

Lemma scaled_value (n : Z) (f d : nat) :
  (f <= d)%nat ->
  (inject_Z (n * 10 ^ Z.of_nat (d - f)) / inject_Z (10 ^ Z.of_nat d)
   == inject_Z n / inject_Z (10 ^ Z.of_nat f))%Q.
Proof.
  intros Hfd. replace d with (f + (d - f))%nat at 2 by lia.
  rewrite inject_Z_mult, pow10_inject.
  pose proof (pow10_inject_nonzero f). pose proof (pow10_inject_nonzero (d - f)).
  field. split; assumption.
Qed.

Lemma formatTokenAmount_zero (d : nat) : formatTokenAmount 0 d = "0".
Proof.
  unfold formatTokenAmount, formatTokenAmount_max.
  destruct (parseFloat_formatUnits 0 d ltac:(lia)) as (v & Hp & Hv).
  rewrite Hp. rewrite (round64_compat v 0); [reflexivity|].
  rewrite Hv. unfold Qdiv. apply Qmult_0_l.
Qed.

Lemma parseTokenAmount_zero (d : nat) : parseTokenAmount "0" d = Ok 0.
Proof.
  destruct d as [|d]; [reflexivity|].
  unfold parseTokenAmount, parseUnits. cbv zeta.
  change (valid_decimal "0") with true. change (split_dot "0") with ("0", @None string).
  cbv beta iota. change (starts_with_minus "0") with false.
  change (trim_trailing_zeros "0") with "". cbn [negb Nat.eqb String.length Nat.ltb Nat.leb].
  unfold padEnd0. cbn [String.length Nat.sub append].
  rewrite BigInt_of_digits.
  - change (String "0" (zeros (S d))) with (zeros (S (S d))).
    rewrite digits_value_zeros. reflexivity.
  - change (String "0" (zeros (S d))) with (zeros (S (S d))). apply all_digits_zeros.
  - cbn. lia.
Qed.

(** The round trip on [fixed_digits n (min 6 d)]. *)
Lemma format_parse_fixed (n : Z) (d : nat) :
  1 <= n < 2 ^ 52 ->
  parseTokenAmount (fixed_digits n (Nat.min 6 d)) d
  = Ok (n * 10 ^ Z.of_nat (d - Nat.min 6 d))
  /\ formatTokenAmount (n * 10 ^ Z.of_nat (d - Nat.min 6 d)) d
     = fixed_digits n (Nat.min 6 d).
Proof.
  intros Hn. set (f := Nat.min 6 d).
  assert (Hf : (f <= 6 /\ f <= d)%nat) by (subst f; lia).
  split.
  - unfold parseTokenAmount. destruct (Nat.eq_dec f 0) as [E|E].
    + assert (d = 0%nat) by (subst f; lia). subst d. rewrite E.
      rewrite fixed_digits_zero_frac, parseUnits_digits_0 by lia.
      f_equal. cbn. lia.
    + destruct (fixed_digits_shape n f ltac:(lia) ltac:(lia))
        as (ip & fp & Hs & Hfl & Hil & Hia & Hfa & Hv).
      rewrite Hs, parseUnits_digits_dot by (try assumption; lia).
      rewrite Hv, Hfl. reflexivity.
  - unfold formatTokenAmount, formatTokenAmount_max.
    assert (Hpow : 0 < 10 ^ Z.of_nat (d - f)) by (apply Z.pow_pos_nonneg; lia).
    destruct (parseFloat_formatUnits (n * 10 ^ Z.of_nat (d - f)) d ltac:(nia))
      as (v & Hp & Hv).
    rewrite Hp. fold f. apply format_rounded; [exact Hn|lia|].
    rewrite Hv. apply scaled_value. lia.
Qed.

(** ** Literals and their digits *)

Lemma split_dot_inv (s ip : string) (fr : option string) :
  split_dot s = (ip, fr) ->
  s = ip ++ match fr with Some fp => String "." fp | None => "" end.
Proof.
  revert ip fr. induction s as [|c s IH]; intros ip fr H; cbn [split_dot] in H.
  - inversion H. reflexivity.
  - destruct (Ascii.eqb_spec c ".") as [->|Hc].
    + inversion H. reflexivity.
    + destruct (split_dot s) as [a b] eqn:Hs. inversion H; subst.
      cbn [append]. f_equal. apply IH. reflexivity.
Qed.

Lemma digit_of_ascii_range (c : ascii) :
  is_digit c = true -> 0 <= digit_of_ascii c < 10.
Proof.
  intros H.
  destruct (is_digit_cases c H) as [->|[->|[->|[->|[->|[->|[->|[->|[->| ->]]]]]]]]];
    vm_compute; split; congruence.
Qed.

Lemma digit_of_ascii_zero (c : ascii) :
  is_digit c = true -> digit_of_ascii c = 0 -> c = "0"%char.
Proof.
  intros H.
  destruct (is_digit_cases c H) as [->|[->|[->|[->|[->|[->|[->|[->|[->| ->]]]]]]]]];
    vm_compute; intros E; congruence.
Qed.

Lemma digit_of_ascii_inj (c c' : ascii) :
  is_digit c = true -> is_digit c' = true ->
  digit_of_ascii c = digit_of_ascii c' -> c = c'.
Proof.
  intros H H'.
  destruct (is_digit_cases c H) as [->|[->|[->|[->|[->|[->|[->|[->|[->| ->]]]]]]]]];
    destruct (is_digit_cases c' H')
      as [->|[->|[->|[->|[->|[->|[->|[->|[->| ->]]]]]]]]];
    vm_compute; intros E; congruence.
Qed.

Lemma digits_value_cons (c : ascii) (r : string) :
  digits_value (String c r)
  = digit_of_ascii c * 10 ^ Z.of_nat (String.length r) + digits_value r.
Proof.
  change (String c r) with (String c "" ++ r). rewrite digits_value_append.
  unfold digits_value at 1. cbn [digits_value_acc].
  rewrite Z.mul_0_r, Z.add_0_l. reflexivity.
Qed.

Lemma digits_value_bound (s : string) :
  all_digits s = true -> 0 <= digits_value s < 10 ^ Z.of_nat (String.length s).
Proof.
  induction s as [|c s IH]; intros H.
  - cbn. lia.
  - cbn [all_digits] in H. apply andb_true_iff in H. destruct H as [Hc Hs].
    specialize (IH Hs). pose proof (digit_of_ascii_range c Hc).
    rewrite digits_value_cons. cbn [String.length].
    rewrite Nat2Z.inj_succ, Z.pow_succ_r by lia. nia.
Qed.

(** Two strings of digits of one length and one value are the same string. *)
Lemma digits_value_inj (a b : string) :
  all_digits a = true -> all_digits b = true ->
  String.length a = String.length b -> digits_value a = digits_value b -> a = b.
Proof.
  revert b. induction a as [|c a IH]; intros [|c' b] Ha Hb Hl Hv;
    try (cbn in Hl; lia); [reflexivity|].
  cbn [all_digits] in Ha, Hb. apply andb_true_iff in Ha, Hb.
  destruct Ha as [Hc Ha]. destruct Hb as [Hc' Hb].
  cbn [String.length] in Hl. injection Hl as Hl.
  rewrite !digits_value_cons, Hl in Hv.
  pose proof (digits_value_bound a Ha) as Ba. rewrite Hl in Ba.
  pose proof (digits_value_bound b Hb) as Bb.
  pose proof (digit_of_ascii_range c Hc). pose proof (digit_of_ascii_range c' Hc').
  assert (Hd : digit_of_ascii c = digit_of_ascii c') by nia.
  rewrite (digit_of_ascii_inj c c' Hc Hc' Hd). f_equal.
  apply IH; try assumption. rewrite Hd in Hv. lia.
Qed.

(** A positive number has as many digits as its size requires. *)
Lemma digits_fuel_length (fuel : nat) (n : Z) (acc : string) :
  0 < n < 2 ^ Z.of_nat fuel ->
  exists ds, digits_fuel fuel n acc = ds ++ acc
             /\ (0 < String.length ds)%nat
             /\ 10 ^ Z.of_nat (String.length ds - 1) <= n.
Proof.
  revert n acc. induction fuel as [|fuel IH]; intros n acc Hn; [cbn in Hn; lia|].
  cbn [digits_fuel]. destruct (Z.ltb_spec n 10) as [Hlt|Hge].
  - exists (String (digit_char (n mod 10)) "").
    cbn [append String.length Nat.sub Z.of_nat]. rewrite Z.pow_0_r.
    split; [reflexivity|]. lia.
  - assert (Hdiv : 0 < n / 10 < 2 ^ Z.of_nat fuel).
    { split; [apply Z.div_str_pos; lia|].
      apply Z.div_lt_upper_bound; [lia|].
      rewrite Nat2Z.inj_succ, Z.pow_succ_r in Hn by lia. lia. }
    destruct (IH (n / 10) (String (digit_char (n mod 10)) acc) Hdiv)
      as (ds & Heq & Hpos & Hlen).
    exists (ds ++ String (digit_char (n mod 10)) ""). split; [|split].
    + rewrite Heq, append_assoc. reflexivity.
    + rewrite length_append. cbn [String.length]. lia.
    + rewrite length_append. cbn [String.length].
      replace (String.length ds + 1 - 1)%nat with (S (String.length ds - 1)) by lia.
      rewrite Nat2Z.inj_succ, Z.pow_succ_r by lia.
      pose proof (Z.div_mod n 10 ltac:(lia)).
      pose proof (Z.mod_pos_bound n 10 ltac:(lia)). lia.
Qed.

Lemma digits_length_bound (n : Z) :
  0 < n -> 10 ^ Z.of_nat (String.length (digits n) - 1) <= n.
Proof.
  intros Hn. unfold digits.
  destruct (digits_fuel_length (S (Z.to_nat (Z.log2 n))) n "") as (ds & Heq & _ & H).
  - split; [exact Hn|]. rewrite Nat2Z.inj_succ, Z2Nat.id by apply Z.log2_nonneg.
    apply Z.log2_spec. exact Hn.
  - rewrite Heq, append_nil_r. exact H.
Qed.

Lemma pow10_length_unique (a b : nat) (v : Z) :
  10 ^ Z.of_nat (a - 1) <= v < 10 ^ Z.of_nat a ->
  10 ^ Z.of_nat (b - 1) <= v < 10 ^ Z.of_nat b ->
  (0 < a)%nat -> (0 < b)%nat -> a = b.
Proof.
  intros Ha Hb Pa Pb.
  destruct (Nat.lt_trichotomy a b) as [Hlt|[E|Hlt]]; [|exact E|]; exfalso.
  - assert (10 ^ Z.of_nat a <= 10 ^ Z.of_nat (b - 1)) by (apply Z.pow_le_mono_r; lia).
    lia.
  - assert (10 ^ Z.of_nat b <= 10 ^ Z.of_nat (a - 1)) by (apply Z.pow_le_mono_r; lia).
    lia.
Qed.

(** The digits of the value of a string that starts with a digit other
    than zero are that string. *)
Lemma digits_of_value (c : ascii) (r : string) :
  all_digits (String c r) = true -> Ascii.eqb c "0" = false ->
  digits (digits_value (String c r)) = String c r.
Proof.
  intros Hall Hc.
  pose proof (digits_value_bound _ Hall) as Hb.
  assert (Hlow : 10 ^ Z.of_nat (String.length r) <= digits_value (String c r)).
  { cbn [all_digits] in Hall. apply andb_true_iff in Hall. destruct Hall as [Hd Hr].
    rewrite digits_value_cons. pose proof (digits_value_bound r Hr).
    pose proof (digit_of_ascii_range c Hd).
    assert (digit_of_ascii c <> 0).
    { intros E. apply (digit_of_ascii_zero c Hd) in E. subst c. discriminate Hc. }
    nia. }
  assert (Hpos : 0 < digits_value (String c r)).
  { assert (0 < 10 ^ Z.of_nat (String.length r)) by (apply Z.pow_pos_nonneg; lia). lia. }
  destruct (digits_spec (digits_value (String c r)) ltac:(lia)) as (Da & Dv & Dl).
  pose proof (digits_length_bound _ Hpos) as Dlow.
  pose proof (digits_value_bound _ Da) as Dup. rewrite Dv in Dup.
  apply digits_value_inj; try assumption.
  eapply pow10_length_unique; [split; [exact Dlow|apply Dup]| |exact Dl|cbn; lia].
  cbn [String.length]. replace (S (String.length r) - 1)%nat with (String.length r) by lia.
  split; [exact Hlow|]. cbn [String.length] in Hb. apply Hb.
Qed.

(** A literal with [f] fractional digits is [fixed_digits] of its digits. *)
Lemma fixed_literal_digits (s : string) (f : nat) :
  fixed_literal s f = true -> 1 <= literal_digits s ->
  s = fixed_digits (literal_digits s) f.
Proof.
  unfold fixed_literal, literal_digits. destruct (split_dot s) as [ip fr] eqn:Hs.
  apply split_dot_inv in Hs. intros H Hpos.
  apply andb_true_iff in H. destruct H as [Hip Hfr].
  unfold canonical_integer in Hip. apply andb_true_iff in Hip.
  destruct Hip as [Hia Hcanon]. destruct ip as [|c r]; [discriminate|].
  destruct fr as [fp|].
  - apply andb_true_iff in Hfr. destruct Hfr as [Hfr Hfl].
    apply andb_true_iff in Hfr. destruct Hfr as [Hf0 Hfa].
    apply Nat.eqb_eq in Hfl. apply negb_true_iff in Hf0. apply Nat.eqb_neq in Hf0.
    unfold fixed_digits. rewrite (proj2 (Nat.eqb_neq f 0) Hf0).
    set (n := digits_value (String c r ++ fp)) in *.
    destruct (digits_spec n ltac:(lia)) as (Da & Dv & Dl).
    set (m := if (String.length (digits n) <=? f)%nat
              then zeros (f + 1 - String.length (digits n)) ++ digits n
              else digits n).
    assert (Hm : m = String c r ++ fp).
    { destruct (Ascii.eqb_spec c "0") as [->|Hc].
      - (* the integer part is "0" *)
        change (Ascii.eqb "0" "0") with true in Hcanon. cbn [negb orb] in Hcanon.
        apply String.eqb_eq in Hcanon. subst r.
        assert (Hn : n = digits_value fp).
        { subst n. rewrite digits_value_append.
          change (digits_value "0") with 0. lia. }
        assert (Hlen : (String.length (digits n) <= f)%nat).
        { pose proof (digits_length_bound n ltac:(lia)) as Hlow.
          pose proof (digits_value_bound fp Hfa) as Hup. rewrite <- Hn, Hfl in Hup.
          destruct (Nat.le_gt_cases (String.length (digits n)) f) as [|Hgt]; [assumption|].
          assert (10 ^ Z.of_nat f <= 10 ^ Z.of_nat (String.length (digits n) - 1))
            by (apply Z.pow_le_mono_r; lia).
          lia. }
        subst m. rewrite (proj2 (Nat.leb_le _ _) Hlen).
        apply digits_value_inj.
        + rewrite all_digits_append, all_digits_zeros, Da. reflexivity.
        + rewrite all_digits_append, Hfa. reflexivity.
        + rewrite !length_append, zeros_length. cbn [String.length]. lia.
        + rewrite digits_value_append, digits_value_zeros, Dv. reflexivity.
      - subst m n. change (String c r ++ fp) with (String c (r ++ fp)).
        rewrite digits_of_value.
        + cbn [String.length]. rewrite length_append.
          destruct (Nat.leb_spec (S (String.length r + String.length fp)) f);
            [lia|reflexivity].
        + cbn [all_digits]. cbn [all_digits] in Hia.
          apply andb_true_iff in Hia. destruct Hia as [Hd Hr].
          rewrite Hd, all_digits_append, Hr, Hfa. reflexivity.
        + apply Ascii.eqb_neq. exact Hc. }
    rewrite Hm, length_append, Hfl.
    replace (String.length (String c r) + f - f)%nat with (String.length (String c r))
      by lia.
    rewrite substring_prefix, slice_from_append. exact Hs.
  - apply Nat.eqb_eq in Hfr. subst f. rewrite fixed_digits_zero_frac.
    rewrite append_nil_r in *. subst s.
    destruct (Ascii.eqb_spec c "0") as [->|Hc].
    + change (Ascii.eqb "0" "0") with true in Hcanon. cbn [negb orb] in Hcanon.
      apply String.eqb_eq in Hcanon. subst r.
      change (digits_value "0") with 0 in Hpos. lia.
    + symmetry. apply digits_of_value; [exact Hia|]. apply Ascii.eqb_neq. exact Hc.
Qed.

(** C9 (amended).  For every decimal string [s] that is "0", or that writes
    a positive number with exactly [min 6 d] fractional digits (trailing zeros
    included; no dot when [min 6 d = 0]), without superfluous leading zeros,
    and whose digits write an integer below [2^52], [parseTokenAmount s d]
    returns an amount and [formatTokenAmount] of that amount is [s]. *)
Theorem format_parse_roundtrip (s : string) (d : nat) :
  roundtrip_domain s d = true ->
  exists amount,
    parseTokenAmount s d = Ok amount /\ formatTokenAmount amount d = s.
Proof.
  unfold roundtrip_domain. intros H. apply orb_true_iff in H.
  destruct H as [H|H].
  - apply String.eqb_eq in H. subst s. exists 0.
    split; [apply parseTokenAmount_zero|apply formatTokenAmount_zero].
  - apply andb_true_iff in H. destruct H as [H Hup].
    apply andb_true_iff in H. destruct H as [Hlit Hlow].
    apply Z.leb_le in Hlow. apply Z.ltb_lt in Hup.
    pose proof (fixed_literal_digits s (Nat.min 6 d) Hlit Hlow) as Hs.
    remember (literal_digits s) as n eqn:Hn. clear Hn Hlit. subst s.
    exists (n * 10 ^ Z.of_nat (d - Nat.min 6 d)).
    apply format_parse_fixed. lia.
Qed.

Lemma format_parse_roundtrip_witness :
  exists amount,
    parseTokenAmount "1.500000" 18 = Ok amount
    /\ formatTokenAmount amount 18 = "1.500000".
Proof. apply (format_parse_roundtrip "1.500000" 18). reflexivity. Defined.

(** C9 (as stated) fails: "1" has no superfluous zero and at most 18
    fractional digits, yet it comes back as "1.000000"; "0.0000001" comes back
    in exponential notation, and "1.1234567" loses its seventh digit. *)
Lemma roundtrip_changes_canonical_strings :
  parseTokenAmount "1" 18 = Ok 1000000000000000000
  /\ formatTokenAmount 1000000000000000000 18 = "1.000000"
  /\ String.eqb "1.000000" "1" = false
  /\ parseTokenAmount "0.0000001" 18 = Ok 100000000000
  /\ formatTokenAmount 100000000000 18 = "1.0000e-7"
  /\ parseTokenAmount "1.1234567" 18 = Ok 1123456700000000000
  /\ formatTokenAmount 1123456700000000000 18 = "1.123457".
Proof. repeat split; vm_compute; reflexivity. Qed.

(** * Further properties *)

(** ** utils/calculations.ts: swaps on a V2 pair *)

Lemma getAmountOut_Ok_inv (amountIn reserveIn reserveOut out : Z) :
  getAmountOut amountIn reserveIn reserveOut = Ok out ->
  0 < amountIn /\ 0 < reserveIn /\ 0 < reserveOut
  /\ out = amountIn * 997 * reserveOut / (reserveIn * 1000 + amountIn * 997).
Proof.
  unfold getAmountOut, bigint_div.
  destruct (Z.leb_spec amountIn 0); [discriminate|].
  destruct (Z.leb_spec reserveIn 0); [discriminate|].
  destruct (Z.leb_spec reserveOut 0); [discriminate|]. cbn [orb].
  destruct (Z.eqb_spec (reserveIn * 1000 + amountIn * 997) 0); [lia|].
  intros E. injection E as <-. rewrite quot_nonneg_div by nia. lia.
Qed.

Lemma getAmountOut_Ok (amountIn reserveIn reserveOut : Z) :
  0 < amountIn -> 0 < reserveIn -> 0 < reserveOut ->
  getAmountOut amountIn reserveIn reserveOut
  = Ok (amountIn * 997 * reserveOut / (reserveIn * 1000 + amountIn * 997)).
Proof.
  intros Ha Hi Ho. unfold getAmountOut, bigint_div.
  destruct (Z.leb_spec amountIn 0); [lia|].
  destruct (Z.leb_spec reserveIn 0); [lia|].
  destruct (Z.leb_spec reserveOut 0); [lia|]. cbn [orb].
  destruct (Z.eqb_spec (reserveIn * 1000 + amountIn * 997) 0); [lia|].
  rewrite quot_nonneg_div by nia. reflexivity.
Qed.

Lemma getAmountIn_Ok (amountOut reserveIn reserveOut : Z) :
  0 < amountOut < reserveOut -> 0 < reserveIn ->
  getAmountIn amountOut reserveIn reserveOut
  = Ok (reserveIn * amountOut * 1000 / ((reserveOut - amountOut) * 997) + 1).
Proof.
  intros Ha Hi. unfold getAmountIn, bigint_div.
  destruct (Z.leb_spec amountOut 0); [lia|].
  destruct (Z.leb_spec reserveIn 0); [lia|].
  destruct (Z.leb_spec reserveOut 0); [lia|]. cbn [orb].
  destruct (Z.leb_spec reserveOut amountOut); [lia|].
  destruct (Z.eqb_spec ((reserveOut - amountOut) * 997) 0); [lia|].
  rewrite quot_nonneg_div by nia. reflexivity.
Qed.

(** X1.  For a wanted output below the reserve, [getAmountIn] returns a
    positive input for which [getAmountOut] returns at least that output. *)
Theorem getAmountIn_suffices (amountOut reserveIn reserveOut : Z) :
  0 < amountOut < reserveOut -> 0 < reserveIn ->
  exists amountIn out,
    getAmountIn amountOut reserveIn reserveOut = Ok amountIn
    /\ 0 < amountIn
    /\ getAmountOut amountIn reserveIn reserveOut = Ok out
    /\ amountOut <= out.
Proof.
  intros Ha Hi.
  set (d := (reserveOut - amountOut) * 997).
  set (q := reserveIn * amountOut * 1000 / d).
  assert (Hd : 0 < d) by (subst d; lia).
  assert (Hq : 0 <= q) by (subst q; apply Z.div_pos; nia).
  assert (Hlt : reserveIn * amountOut * 1000 < (q + 1) * d).
  { pose proof (Z.div_mod (reserveIn * amountOut * 1000) d ltac:(lia)) as Hdm.
    pose proof (Z.mod_pos_bound (reserveIn * amountOut * 1000) d Hd) as Hm.
    fold q in Hdm. nia. }
  exists (q + 1), ((q + 1) * 997 * reserveOut / (reserveIn * 1000 + (q + 1) * 997)).
  split; [apply getAmountIn_Ok; assumption|].
  split; [lia|]. split; [apply getAmountOut_Ok; lia|].
  apply Z.div_le_lower_bound; [nia|]. subst d. nia.
Qed.

Lemma getAmountIn_suffices_witness :
  exists amountIn out,
    getAmountIn 100 5000 1000 = Ok amountIn
    /\ 0 < amountIn
    /\ getAmountOut amountIn 5000 1000 = Ok out
    /\ 100 <= out.
Proof. apply (getAmountIn_suffices 100 5000 1000); lia. Defined.

(** X2.  A swap never lowers the product of the reserves: when
    [getAmountOut] returns [out], [0 <= out] and
    [reserveIn * reserveOut <= (reserveIn + amountIn) * (reserveOut - out)]. *)
Theorem getAmountOut_keeps_product (amountIn reserveIn reserveOut out : Z) :
  getAmountOut amountIn reserveIn reserveOut = Ok out ->
  0 <= out
  /\ reserveIn * reserveOut <= (reserveIn + amountIn) * (reserveOut - out).
Proof.
  intros H. apply getAmountOut_Ok_inv in H. destruct H as (Ha & Hi & Ho & ->).
  set (d := reserveIn * 1000 + amountIn * 997).
  set (out := amountIn * 997 * reserveOut / d).
  assert (Hd : 0 < d) by (subst d; lia).
  assert (H0 : 0 <= out) by (subst out; apply Z.div_pos; nia).
  assert (Hle : out * d <= amountIn * 997 * reserveOut).
  { subst out. rewrite Z.mul_comm. apply Z.mul_div_le. exact Hd. }
  split; [exact H0|]. subst d. nia.
Qed.

Lemma getAmountOut_keeps_product_witness :
  0 <= 90 /\ 5000 * 1000 <= (5000 + 500) * (1000 - 90).
Proof. apply (getAmountOut_keeps_product 500 5000 1000 90). reflexivity. Defined.

(** X3.  A larger input never buys less: [getAmountOut] is monotone in
    [amountIn]. *)
Theorem getAmountOut_monotone (a a' reserveIn reserveOut out out' : Z) :
  a <= a' ->
  getAmountOut a reserveIn reserveOut = Ok out ->
  getAmountOut a' reserveIn reserveOut = Ok out' ->
  out <= out'.
Proof.
  intros Hle H H'. apply getAmountOut_Ok_inv in H, H'.
  destruct H as (Ha & Hi & Ho & ->). destruct H' as (Ha' & _ & _ & ->).
  set (d := reserveIn * 1000 + a * 997). set (d' := reserveIn * 1000 + a' * 997).
  assert (Hd : 0 < d) by (subst d; lia). assert (Hd' : 0 < d') by (subst d'; lia).
  apply Z.div_le_lower_bound; [exact Hd'|].
  assert (Hq : a * 997 * reserveOut / d * d <= a * 997 * reserveOut).
  { rewrite Z.mul_comm. apply Z.mul_div_le. exact Hd. }
  assert (H0 : 0 <= a * 997 * reserveOut / d) by (apply Z.div_pos; nia).
  set (o := a * 997 * reserveOut / d) in *.
  (* o * d' <= a' * 997 * reserveOut, from o * d <= a * 997 * reserveOut *)
  assert (Hx : o * d' * d <= a' * 997 * reserveOut * d).
  { assert (o * d * d' <= a * 997 * reserveOut * d') by nia.
    assert (a * 997 * reserveOut * d' <= a' * 997 * reserveOut * d).
    { subst d d'. nia. }
    nia. }
  rewrite Z.mul_comm. nia.
Qed.

Lemma getAmountOut_monotone_witness : 90 <= 166.
Proof. apply (getAmountOut_monotone 500 1000 5000 1000 90 166); [lia| |]; reflexivity. Defined.

(** Two swaps in a row on the pair: the second sees the reserves the first
    leaves. *)
Lemma split_bound (a b ri ro o1 o2 : Z) :
  0 < a -> 0 < b -> 0 < ri -> 0 < ro -> 0 <= o1 -> 0 <= o2 ->
  o1 * (ri * 1000 + a * 997) <= a * 997 * ro ->
  o2 * ((ri + a) * 1000 + b * 997) <= b * 997 * (ro - o1) ->
  (o1 + o2) * (ri * 1000 + (a + b) * 997) <= (a + b) * 997 * ro.
Proof.
  intros Ha Hb Hi Ho H1 H2 L1 L2.
  set (D1 := ri * 1000 + a * 997) in *.
  set (D2 := (ri + a) * 1000 + b * 997) in *.
  set (D := ri * 1000 + (a + b) * 997).
  assert (HD1 : 0 < D1) by (subst D1; lia).
  assert (HD2 : 0 < D2) by (subst D2; lia).
  assert (HD : 0 < D) by (subst D; lia).
  (* the first output, against the whole input *)
  assert (S1 : D * (ri + a) <= D1 * (ri + a + b)).
  { assert (E : D1 * (ri + a + b) - D * (ri + a) = 3 * ri * b) by (subst D D1; ring).
    assert (0 <= 3 * ri * b) by (apply Z.mul_nonneg_nonneg; lia). lia. }
  assert (S2 : o1 * (D * (ri + a)) <= o1 * (D1 * (ri + a + b)))
    by (apply Z.mul_le_mono_nonneg_l; assumption).
  assert (S2' : o1 * D1 * (ri + a + b) <= a * 997 * ro * (ri + a + b))
    by (apply Z.mul_le_mono_nonneg_r; lia).
  assert (S3 : o1 * D * (ri + a) <= a * 997 * ro * (ri + a + b)).
  { replace (o1 * D * (ri + a)) with (o1 * (D * (ri + a))) by ring.
    replace (o1 * D1 * (ri + a + b)) with (o1 * (D1 * (ri + a + b))) in S2' by ring.
    lia. }
  (* the second output *)
  assert (S6 : o2 * D2 * D <= b * 997 * (ro - o1) * D)
    by (apply Z.mul_le_mono_nonneg_r; lia).
  apply Z.mul_le_mono_pos_r with (p := D2); [assumption|].
  assert (E1 : (o1 + o2) * D * D2
               = 1000 * (o1 * D * (ri + a)) + 997 * (b * o1 * D) + o2 * D2 * D)
    by (subst D2; ring).
  assert (E2 : b * 997 * (ro - o1) * D = 997 * (b * ro * D) - 997 * (b * o1 * D))
    by ring.
  assert (E3 : (a + b) * 997 * ro * D2
               = 1000 * (a * 997 * ro * (ri + a + b)) + 997 * (b * ro * D))
    by (subst D D2; ring).
  rewrite E1, E3. rewrite E2 in S6. lia.
Qed.

(** X4.  Splitting never pays: a swap of [a], followed on the reserves it
    leaves by a swap of [b], returns in total no more than one swap of
    [a + b]. *)
Theorem split_swap_never_beats_single (a b reserveIn reserveOut o1 o2 o : Z) :
  getAmountOut a reserveIn reserveOut = Ok o1 ->
  getAmountOut b (reserveIn + a) (reserveOut - o1) = Ok o2 ->
  getAmountOut (a + b) reserveIn reserveOut = Ok o ->
  o1 + o2 <= o.
Proof.
  intros H1 H2 H. apply getAmountOut_Ok_inv in H1, H2, H.
  destruct H1 as (Ha & Hi & Ho & E1). destruct H2 as (Hb & _ & Ho' & E2).
  destruct H as (_ & _ & _ & ->).
  assert (HD1 : 0 < reserveIn * 1000 + a * 997) by lia.
  assert (HD2 : 0 < (reserveIn + a) * 1000 + b * 997) by lia.
  assert (L1 : o1 * (reserveIn * 1000 + a * 997) <= a * 997 * reserveOut).
  { rewrite E1, Z.mul_comm. apply Z.mul_div_le. exact HD1. }
  assert (L2 : o2 * ((reserveIn + a) * 1000 + b * 997) <= b * 997 * (reserveOut - o1)).
  { rewrite E2 at 1. rewrite Z.mul_comm. apply Z.mul_div_le. exact HD2. }
  assert (P1 : 0 <= o1) by (rewrite E1; apply Z.div_pos; nia).
  assert (P2 : 0 <= o2) by (rewrite E2; apply Z.div_pos; nia).
  apply Z.div_le_lower_bound; [lia|].
  rewrite Z.mul_comm. apply split_bound; assumption.
Qed.

Lemma split_swap_never_beats_single_witness : 90 + 75 <= 166.
Proof.
  apply (split_swap_never_beats_single 500 500 5000 1000 90 75 166); reflexivity.
Defined.

(** ** utils/calculations.ts: liquidity of a V3 position *)

Lemma Q96_pos : 0 < Q96.
Proof. reflexivity. Qed.

Lemma ordered_spec (a b : Z) :
  exists lo hi, ordered a b = (lo, hi) /\ lo = Z.min a b /\ hi = Z.max a b.
Proof.
  unfold ordered. destruct (Z.ltb_spec b a).
  - exists b, a. repeat split; lia.
  - exists a, b. repeat split; lia.
Qed.

Lemma ordered_comm (a b : Z) : ordered a b = ordered b a.
Proof.
  destruct (ordered_spec a b) as (lo & hi & -> & -> & ->).
  destruct (ordered_spec b a) as (lo & hi & -> & -> & ->).
  rewrite Z.min_comm, Z.max_comm. reflexivity.
Qed.

Lemma ordered_lt (a b : Z) : a < b -> ordered a b = (a, b).
Proof. intros H. unfold ordered. destruct (Z.ltb_spec b a); [lia|reflexivity]. Qed.

Lemma bigint_div_pos (a b : Z) : 0 <= a -> 0 < b -> bigint_div a b = Ok (a / b).
Proof.
  intros Ha Hb. unfold bigint_div. destruct (Z.eqb_spec b 0); [lia|].
  rewrite quot_nonneg_div by assumption. reflexivity.
Qed.

Lemma getLiquidityForAmount1_Ok (a b amount1 : Z) :
  a < b -> 0 <= amount1 ->
  getLiquidityForAmount1 a b amount1 = Ok (amount1 * Q96 / (b - a)).
Proof.
  intros Hab H1. unfold getLiquidityForAmount1. rewrite ordered_lt by assumption.
  apply bigint_div_pos; [|lia]. pose proof Q96_pos. nia.
Qed.

Lemma getAmount1ForLiquidity_Ok (a b liquidity : Z) :
  a < b -> 0 <= liquidity ->
  getAmount1ForLiquidity a b liquidity = Ok (liquidity * (b - a) / Q96).
Proof.
  intros Hab H1. unfold getAmount1ForLiquidity. rewrite ordered_lt by assumption.
  apply bigint_div_pos; [nia|apply Q96_pos].
Qed.

Lemma getLiquidityForAmount0_Ok (a b amount0 : Z) :
  0 <= a -> a < b -> 0 <= amount0 ->
  getLiquidityForAmount0 a b amount0 = Ok (amount0 * (a * b / Q96) / (b - a)).
Proof.
  intros Ha Hab H0. unfold getLiquidityForAmount0. rewrite ordered_lt by assumption.
  rewrite bigint_div_pos by (try apply Q96_pos; nia).
  apply bigint_div_pos; [|lia].
  assert (0 <= a * b / Q96) by (apply Z.div_pos; [nia|apply Q96_pos]). nia.
Qed.

Lemma getAmount0ForLiquidity_Ok (a b liquidity : Z) :
  0 < a -> a < b -> 0 <= liquidity ->
  getAmount0ForLiquidity a b liquidity = Ok (liquidity * (b - a) * Q96 / (b * a)).
Proof.
  intros Ha Hab H0. unfold getAmount0ForLiquidity. rewrite ordered_lt by assumption.
  apply bigint_div_pos; [|nia]. pose proof Q96_pos. nia.
Qed.

Lemma div_mul_le (a b : Z) : 0 < b -> a / b * b <= a.
Proof. intros Hb. rewrite Z.mul_comm. apply Z.mul_div_le. exact Hb. Qed.

Lemma div_mul_gt (a b : Z) : 0 < b -> a < (a / b + 1) * b.
Proof.
  intros Hb. pose proof (Z.div_mod a b ltac:(lia)).
  pose proof (Z.mod_pos_bound a b Hb). nia.
Qed.

(** The amounts that back a liquidity grow with it. *)
Lemma amount1_for_liquidity_mono (a b l l' : Z) :
  a < b -> l <= l' -> l * (b - a) / Q96 <= l' * (b - a) / Q96.
Proof. intros Hab Hl. apply Z.div_le_mono; [apply Q96_pos|nia]. Qed.

Lemma amount0_for_liquidity_mono (a b l l' : Z) :
  0 < a -> a < b -> l <= l' ->
  l * (b - a) * Q96 / (b * a) <= l' * (b - a) * Q96 / (b * a).
Proof.
  intros Ha Hab Hl. apply Z.div_le_mono; [nia|]. pose proof Q96_pos.
  apply Z.mul_le_mono_nonneg_r; [lia|]. apply Z.mul_le_mono_nonneg_r; lia.
Qed.

Lemma amount1_roundtrip (a b amount1 : Z) :
  a < b -> 0 <= amount1 ->
  amount1 * Q96 / (b - a) * (b - a) / Q96 <= amount1.
Proof.
  intros Hab H1. apply Z.div_le_upper_bound; [apply Q96_pos|].
  pose proof (div_mul_le (amount1 * Q96) (b - a) ltac:(lia)). lia.
Qed.

Lemma amount0_roundtrip (a b amount0 : Z) :
  0 < a -> a < b -> 0 <= amount0 ->
  amount0 * (a * b / Q96) / (b - a) * (b - a) * Q96 / (b * a) <= amount0.
Proof.
  intros Ha Hab H0. apply Z.div_le_upper_bound; [nia|].
  pose proof Q96_pos as HQ.
  pose proof (div_mul_le (amount0 * (a * b / Q96)) (b - a) ltac:(lia)) as H1.
  pose proof (div_mul_le (a * b) Q96 HQ) as H2.
  assert (0 <= a * b / Q96) by (apply Z.div_pos; [nia|exact HQ]).
  nia.
Qed.

(** X5.  Turning an amount of token1 into liquidity and back never returns
    more than the amount, and loses less than [1 + (b - a) / 2^96]. *)
Theorem amount1_liquidity_roundtrip (a b amount1 : Z) :
  a < b -> 0 <= amount1 ->
  exists liquidity back,
    getLiquidityForAmount1 a b amount1 = Ok liquidity
    /\ getAmount1ForLiquidity a b liquidity = Ok back
    /\ back <= amount1
    /\ (amount1 - back) * Q96 < (b - a) + Q96.
Proof.
  intros Hab H1. pose proof Q96_pos as HQ.
  assert (HL : 0 <= amount1 * Q96 / (b - a)) by (apply Z.div_pos; nia).
  exists (amount1 * Q96 / (b - a)), (amount1 * Q96 / (b - a) * (b - a) / Q96).
  split; [apply getLiquidityForAmount1_Ok; assumption|].
  split; [apply getAmount1ForLiquidity_Ok; assumption|].
  split; [apply amount1_roundtrip; assumption|].
  pose proof (div_mul_gt (amount1 * Q96) (b - a) ltac:(lia)) as G1.
  pose proof (div_mul_gt (amount1 * Q96 / (b - a) * (b - a)) Q96 HQ) as G2.
  nia.
Qed.

Lemma amount1_liquidity_roundtrip_witness :
  exists liquidity back,
    getLiquidityForAmount1 (2 ^ 96) (2 ^ 97) 1000 = Ok liquidity
    /\ getAmount1ForLiquidity (2 ^ 96) (2 ^ 97) liquidity = Ok back
    /\ back <= 1000
    /\ (1000 - back) * Q96 < (2 ^ 97 - 2 ^ 96) + Q96.
Proof. apply (amount1_liquidity_roundtrip (2 ^ 96) (2 ^ 97) 1000); [reflexivity|lia]. Defined.

(** X6.  Turning an amount of token0 into liquidity and back never returns
    more than the amount. *)
Theorem amount0_liquidity_roundtrip (a b amount0 : Z) :
  0 < a -> a < b -> 0 <= amount0 ->
  exists liquidity back,
    getLiquidityForAmount0 a b amount0 = Ok liquidity
    /\ getAmount0ForLiquidity a b liquidity = Ok back
    /\ 0 <= back <= amount0.
Proof.
  intros Ha Hab H0. pose proof Q96_pos as HQ.
  assert (HI : 0 <= a * b / Q96) by (apply Z.div_pos; [nia|exact HQ]).
  assert (HL : 0 <= amount0 * (a * b / Q96) / (b - a)) by (apply Z.div_pos; nia).
  exists (amount0 * (a * b / Q96) / (b - a)),
         (amount0 * (a * b / Q96) / (b - a) * (b - a) * Q96 / (b * a)).
  split; [apply getLiquidityForAmount0_Ok; lia|].
  split; [apply getAmount0ForLiquidity_Ok; assumption|].
  split; [apply Z.div_pos; nia|apply amount0_roundtrip; assumption].
Qed.

Lemma amount0_liquidity_roundtrip_witness :
  exists liquidity back,
    getLiquidityForAmount0 (2 ^ 96) (2 ^ 97) 1000 = Ok liquidity
    /\ getAmount0ForLiquidity (2 ^ 96) (2 ^ 97) liquidity = Ok back
    /\ 0 <= back <= 1000.
Proof.
  apply (amount0_liquidity_roundtrip (2 ^ 96) (2 ^ 97) 1000); [reflexivity|reflexivity|lia].
Defined.

(** X7.  The two price bounds may be given in either order: each of the
    five liquidity functions returns the same for [(a, b)] and [(b, a)]. *)
Theorem price_bounds_commute (a b x y p : Z) :
  getLiquidityForAmount0 a b x = getLiquidityForAmount0 b a x
  /\ getLiquidityForAmount1 a b x = getLiquidityForAmount1 b a x
  /\ getAmount0ForLiquidity a b x = getAmount0ForLiquidity b a x
  /\ getAmount1ForLiquidity a b x = getAmount1ForLiquidity b a x
  /\ getLiquidityForAmounts p a b x y = getLiquidityForAmounts p b a x y.
Proof.
  unfold getLiquidityForAmount0, getLiquidityForAmount1, getAmount0ForLiquidity,
    getAmount1ForLiquidity, getLiquidityForAmounts.
  rewrite (ordered_comm a b). repeat split; reflexivity.
Qed.

(** X8.  Inside the range, the liquidity [getLiquidityForAmounts] returns is
    backed by the amounts offered: the token0 it needs between the price and
    the upper bound is at most [amount0], and the token1 it needs between the
    lower bound and the price is at most [amount1]. *)
Theorem liquidity_for_amounts_is_backed (p a b amount0 amount1 : Z) :
  0 < a -> a < p -> p < b -> 0 <= amount0 -> 0 <= amount1 ->
  exists liquidity need0 need1,
    getLiquidityForAmounts p a b amount0 amount1 = Ok liquidity
    /\ getAmount0ForLiquidity p b liquidity = Ok need0
    /\ getAmount1ForLiquidity a p liquidity = Ok need1
    /\ need0 <= amount0 /\ need1 <= amount1.
Proof.
  intros Ha Hap Hpb H0 H1. pose proof Q96_pos as HQ.
  set (l0 := amount0 * (p * b / Q96) / (b - p)).
  set (l1 := amount1 * Q96 / (p - a)).
  assert (HI : 0 <= p * b / Q96) by (apply Z.div_pos; [nia|exact HQ]).
  assert (HL0 : 0 <= l0) by (subst l0; apply Z.div_pos; nia).
  assert (HL1 : 0 <= l1) by (subst l1; apply Z.div_pos; nia).
  set (l := if l0 <? l1 then l0 else l1).
  assert (Hl : 0 <= l /\ l <= l0 /\ l <= l1).
  { subst l. destruct (Z.ltb_spec l0 l1); lia. }
  exists l, (l * (b - p) * Q96 / (b * p)), (l * (p - a) / Q96).
  split.
  { unfold getLiquidityForAmounts. rewrite ordered_lt by lia.
    destruct (Z.leb_spec p a); [lia|]. destruct (Z.ltb_spec p b); [|lia].
    rewrite getLiquidityForAmount0_Ok by lia.
    rewrite getLiquidityForAmount1_Ok by lia. reflexivity. }
  split; [apply getAmount0ForLiquidity_Ok; lia|].
  split; [apply getAmount1ForLiquidity_Ok; lia|].
  split.
  - eapply Z.le_trans; [apply (amount0_for_liquidity_mono p b l l0); lia|].
    apply amount0_roundtrip; lia.
  - eapply Z.le_trans; [apply (amount1_for_liquidity_mono a p l l1); lia|].
    apply amount1_roundtrip; lia.
Qed.

Lemma liquidity_for_amounts_is_backed_witness :
  exists liquidity need0 need1,
    getLiquidityForAmounts (3 * 2 ^ 95) (2 ^ 96) (2 ^ 97) 1000 1000 = Ok liquidity
    /\ getAmount0ForLiquidity (3 * 2 ^ 95) (2 ^ 97) liquidity = Ok need0
    /\ getAmount1ForLiquidity (2 ^ 96) (3 * 2 ^ 95) liquidity = Ok need1
    /\ need0 <= 1000 /\ need1 <= 1000.
Proof.
  apply (liquidity_for_amounts_is_backed (3 * 2 ^ 95) (2 ^ 96) (2 ^ 97) 1000 1000);
    try reflexivity; lia.
Defined.

(** X9.  With equal price bounds no liquidity can be computed: the three
    [getLiquidity...] functions throw the [RangeError] of a division by zero,
    whatever the price and the amounts.  [getAmount1ForLiquidity] returns 0
    there, and [getAmount0ForLiquidity] divides by the product of the bounds:
    it throws exactly when a bound is zero. *)
Theorem equal_bounds_divide_by_zero (a b p x y : Z) :
  getLiquidityForAmount0 a a x = Throw (RangeError "Division by zero")
  /\ getLiquidityForAmount1 a a x = Throw (RangeError "Division by zero")
  /\ getLiquidityForAmounts p a a x y = Throw (RangeError "Division by zero")
  /\ getAmount1ForLiquidity a a x = Ok 0
  /\ (getAmount0ForLiquidity a b x = Throw (RangeError "Division by zero")
      <-> a = 0 \/ b = 0).
Proof.
  assert (Ho : ordered a a = (a, a)).
  { unfold ordered. destruct (Z.ltb_spec a a); [lia|reflexivity]. }
  assert (H0 : getLiquidityForAmount0 a a x = Throw (RangeError "Division by zero")).
  { unfold getLiquidityForAmount0. rewrite Ho. unfold bigint_div.
    change (Q96 =? 0) with false. cbv iota. rewrite Z.sub_diag. reflexivity. }
  assert (H1 : forall v, getLiquidityForAmount1 a a v = Throw (RangeError "Division by zero")).
  { intros v. unfold getLiquidityForAmount1. rewrite Ho. unfold bigint_div.
    rewrite Z.sub_diag. reflexivity. }
  split; [exact H0|]. split; [apply H1|]. split.
  { unfold getLiquidityForAmounts. rewrite Ho.
    destruct (Z.leb_spec p a); [exact H0|].
    destruct (Z.ltb_spec p a); [lia|apply H1]. }
  split.
  { unfold getAmount1ForLiquidity. rewrite Ho. unfold bigint_div.
    change (Q96 =? 0) with false. cbv iota. rewrite Z.sub_diag, Z.mul_0_r.
    reflexivity. }
  unfold getAmount0ForLiquidity.
  destruct (ordered_spec a b) as (lo & hi & -> & -> & ->).
  unfold bigint_div. destruct (Z.eqb_spec (Z.max a b * Z.min a b) 0) as [E|E].
  - split; [intros _|reflexivity]. lia.
  - split; [discriminate|]. intros [-> | ->]; exfalso; apply E; lia.
Qed.

(** ** Rounding to binary64: numbers on the grid of the result *)

Lemma pow2Q_nonneg_eq (k : Z) : 0 <= k -> pow2Q k = inject_Z (2 ^ k).
Proof. intros H. unfold pow2Q. destruct (Z.leb_spec 0 k); [reflexivity|lia]. Qed.

Lemma pow2Q_neg_eq (k : Z) : k < 0 -> (pow2Q k == 1 / inject_Z (2 ^ (- k)))%Q.
Proof.
  intros H. unfold pow2Q. destruct (Z.leb_spec 0 k); [lia|].
  assert (0 < 2 ^ (- k)) by (apply Z.pow_pos_nonneg; lia).
  unfold Qeq, Qdiv, Qmult, Qinv, inject_Z. cbn [Qnum Qden].
  destruct (2 ^ (- k)) eqn:E; try lia. cbn. lia.
Qed.

Lemma pow2Q_opp (k : Z) : (pow2Q k * pow2Q (- k) == 1)%Q.
Proof.
  assert (G : forall j, 0 <= j -> (pow2Q j * pow2Q (- j) == 1)%Q).
  { intros j Hj. destruct (Z.eq_dec j 0) as [->|Hn]; [reflexivity|].
    rewrite (pow2Q_nonneg_eq j Hj), (pow2Q_neg_eq (- j)) by lia.
    rewrite Z.opp_involutive.
    assert (0 < 2 ^ j) by (apply Z.pow_pos_nonneg; lia).
    field. intros E. unfold Qeq in E. cbn in E. lia. }
  destruct (Z.le_gt_cases 0 k) as [H|H]; [apply G; exact H|].
  pose proof (G (- k) ltac:(lia)) as E. rewrite Z.opp_involutive in E.
  rewrite Qmult_comm. exact E.
Qed.

Lemma pow2Q_add_nonneg (a b : Z) :
  0 <= b -> (pow2Q (a + b) == pow2Q a * pow2Q b)%Q.
Proof.
  intros Hb. rewrite (pow2Q_nonneg_eq b Hb).
  destruct (Z.le_gt_cases 0 a) as [Ha|Ha].
  - rewrite !pow2Q_nonneg_eq by lia. rewrite Z.pow_add_r by lia.
    rewrite inject_Z_mult. reflexivity.
  - destruct (Z.le_gt_cases 0 (a + b)) as [Hab|Hab].
    + rewrite (pow2Q_nonneg_eq (a + b) Hab), (pow2Q_neg_eq a Ha).
      assert (E : 2 ^ b = 2 ^ (a + b) * 2 ^ (- a)).
      { rewrite <- Z.pow_add_r by lia. f_equal. lia. }
      rewrite E, inject_Z_mult.
      assert (0 < 2 ^ (- a)) by (apply Z.pow_pos_nonneg; lia).
      field. intros N. unfold Qeq in N. cbn in N. lia.
    + rewrite (pow2Q_neg_eq (a + b) Hab), (pow2Q_neg_eq a Ha).
      assert (E : 2 ^ (- a) = 2 ^ (- (a + b)) * 2 ^ b).
      { rewrite <- Z.pow_add_r by lia. f_equal. lia. }
      rewrite E, inject_Z_mult.
      assert (0 < 2 ^ (- (a + b))) by (apply Z.pow_pos_nonneg; lia).
      assert (0 < 2 ^ b) by (apply Z.pow_pos_nonneg; lia).
      field. split; intros N; unfold Qeq in N; cbn in N; lia.
Qed.

Lemma pow2Q_add (a b : Z) : (pow2Q (a + b) == pow2Q a * pow2Q b)%Q.
Proof.
  destruct (Z.le_gt_cases 0 b) as [Hb|Hb]; [apply pow2Q_add_nonneg; exact Hb|].
  assert (E : (pow2Q a == pow2Q (a + b) * pow2Q (- b))%Q).
  { rewrite <- pow2Q_add_nonneg by lia. replace (a + b + - b) with a by lia.
    reflexivity. }
  rewrite E, <- Qmult_assoc, (Qmult_comm (pow2Q (- b))), pow2Q_opp, Qmult_1_r.
  reflexivity.
Qed.

Lemma pow2Q_le (a b : Z) : a <= b -> (pow2Q a <= pow2Q b)%Q.
Proof.
  intros H. replace b with (a + (b - a)) by lia. rewrite pow2Q_add.
  rewrite <- (Qmult_1_r (pow2Q a)) at 1.
  apply Qmult_le_l; [apply pow2Q_pos|].
  rewrite pow2Q_nonneg_eq by lia. change 1%Q with (inject_Z 1).
  rewrite <- Zle_Qle. assert (0 < 2 ^ (b - a)) by (apply Z.pow_pos_nonneg; lia). lia.
Qed.

(** [2 ^ floor_log2 p q <= p / q], in [Q]. *)
Lemma floor_log2_lower_Q (p q : positive) : (pow2Q (floor_log2 p q) <= Zpos p # q)%Q.
Proof.
  destruct (floor_log2_lower p q) as [H1 H2]. cbv zeta in H1, H2.
  destruct (Z.le_gt_cases 0 (floor_log2 p q)) as [He|He].
  - rewrite pow2Q_nonneg_eq by exact He. unfold Qle. cbn [Qnum Qden inject_Z].
    specialize (H1 He). lia.
  - specialize (H2 He). unfold pow2Q. destruct (Z.leb_spec 0 (floor_log2 p q)); [lia|].
    unfold Qle. cbn [Qnum Qden].
    assert (0 < 2 ^ (- floor_log2 p q)) by (apply Z.pow_pos_nonneg; lia).
    rewrite Z2Pos.id by assumption. lia.
Qed.

(** A number below [2^E] has its last place at [2^(E - 53)] or below. *)
Lemma last_place_bound (p q : positive) (E : Z) :
  (Zpos p # q < pow2Q E)%Q ->
  Z.max (floor_log2 p q - 52) (-1074) <= Z.max (E - 53) (-1074).
Proof.
  intros H.
  assert (floor_log2 p q < E).
  { destruct (Z.lt_ge_cases (floor_log2 p q) E) as [|Hge]; [assumption|].
    exfalso. apply (Qlt_irrefl (Zpos p # q)).
    eapply Qlt_le_trans; [exact H|].
    eapply Qle_trans; [apply pow2Q_le; exact Hge|apply floor_log2_lower_Q]. }
  lia.
Qed.

Lemma round_half_even_le (a b K : Z) :
  0 <= a -> 0 < b -> a <= K * b -> round_half_even a b <= K.
Proof.
  intros Ha Hb H. unfold round_half_even.
  pose proof (Z.div_mod a b ltac:(lia)) as Hdm.
  pose proof (Z.mod_pos_bound a b Hb) as Hr.
  assert (a / b <= K) by nia.
  destruct (Z.ltb_spec (2 * (a mod b)) b); [lia|].
  assert (a / b < K) by nia.
  destruct (Z.ltb_spec b (2 * (a mod b))); [lia|].
  destruct (Z.even (a / b)); lia.
Qed.

Lemma round_half_even_ge (a b K : Z) :
  0 <= a -> 0 < b -> K * b <= a -> K <= round_half_even a b.
Proof.
  intros Ha Hb H. unfold round_half_even.
  pose proof (Z.div_mod a b ltac:(lia)) as Hdm.
  pose proof (Z.mod_pos_bound a b Hb) as Hr.
  assert (K <= a / b) by nia.
  destruct (Z.ltb_spec (2 * (a mod b)) b); [lia|].
  destruct (Z.ltb_spec b (2 * (a mod b))); [lia|].
  destruct (Z.even (a / b)); lia.
Qed.

(** The scaled numerator and denominator that [round64_pos] divides. *)
Lemma scaled_compare (p q : positive) (t K : Z) :
  let a := if 0 <=? t then Zpos p else Zpos p * 2 ^ (- t) in
  let b := if 0 <=? t then Zpos q * 2 ^ t else Zpos q in
  0 <= a /\ 0 < b
  /\ ((Zpos p # q <= inject_Z K * pow2Q t)%Q <-> a <= K * b)
  /\ ((inject_Z K * pow2Q t <= Zpos p # q)%Q <-> K * b <= a).
Proof.
  cbv zeta. unfold pow2Q. destruct (Z.leb_spec 0 t) as [Ht|Ht].
  - assert (0 < 2 ^ t) by (apply Z.pow_pos_nonneg; lia).
    split; [lia|]. split; [lia|].
    unfold Qle. cbn [Qnum Qden inject_Z Qmult]. rewrite !Z.mul_1_r.
    change (Zpos (1 * q)) with (Zpos q). split; split; nia.
  - assert (Hp : 0 < 2 ^ (- t)) by (apply Z.pow_pos_nonneg; lia).
    split; [lia|]. split; [lia|].
    unfold Qle. cbn [Qnum Qden inject_Z Qmult]. rewrite !Z.mul_1_r.
    rewrite !Pos.mul_1_l, Z2Pos.id by assumption. split; split; nia.
Qed.

Lemma round64_pos_value (p q : positive) :
  let t := Z.max (floor_log2 p q - 52) (-1074) in
  let a := if 0 <=? t then Zpos p else Zpos p * 2 ^ (- t) in
  let b := if 0 <=? t then Zpos q * 2 ^ t else Zpos q in
  (round64_pos p q == inject_Z (round_half_even a b) * pow2Q t)%Q.
Proof.
  cbv zeta. unfold round64_pos. rewrite Qred_correct.
  destruct (0 <=? Z.max (floor_log2 p q - 52) (-1074)); reflexivity.
Qed.

Lemma round64_pos_le_grid (p q : positive) (K : Z) :
  let t := Z.max (floor_log2 p q - 52) (-1074) in
  (Zpos p # q <= inject_Z K * pow2Q t)%Q ->
  (round64_pos p q <= inject_Z K * pow2Q t)%Q.
Proof.
  cbv zeta. intros H. rewrite round64_pos_value.
  destruct (scaled_compare p q (Z.max (floor_log2 p q - 52) (-1074)) K)
    as (Ha & Hb & Hle & _). cbv zeta in Ha, Hb, Hle.
  apply Qmult_le_r; [apply pow2Q_pos|]. rewrite <- Zle_Qle.
  apply round_half_even_le; [assumption|assumption|]. apply Hle. exact H.
Qed.

Lemma round64_pos_ge_grid (p q : positive) (K : Z) :
  let t := Z.max (floor_log2 p q - 52) (-1074) in
  (inject_Z K * pow2Q t <= Zpos p # q)%Q ->
  (inject_Z K * pow2Q t <= round64_pos p q)%Q.
Proof.
  cbv zeta. intros H. rewrite round64_pos_value.
  destruct (scaled_compare p q (Z.max (floor_log2 p q - 52) (-1074)) K)
    as (Ha & Hb & _ & Hge). cbv zeta in Ha, Hb, Hge.
  apply Qmult_le_r; [apply pow2Q_pos|]. rewrite <- Zle_Qle.
  apply round_half_even_ge; [assumption|assumption|]. apply Hge. exact H.
Qed.

(** A multiple of [2^j] is a multiple of every smaller power of two. *)
Lemma regrid (c j t : Z) :
  t <= j -> (inject_Z c * pow2Q j == inject_Z (c * 2 ^ (j - t)) * pow2Q t)%Q.
Proof.
  intros H. replace j with (t + (j - t)) at 1 by lia.
  rewrite pow2Q_add, (pow2Q_nonneg_eq (j - t)) by lia. rewrite inject_Z_mult. ring.
Qed.

Lemma round64_positive_cases (x : Q) :
  (0 < x)%Q ->
  exists p q, Qred x = Zpos p # q /\ round64 x = round64_pos p q
              /\ (x == Zpos p # q)%Q.
Proof.
  intros Hx. unfold round64. pose proof (Qred_correct x) as Hr.
  destruct (Qred x) as [n d]. cbn [Qnum Qden].
  assert (Hn : 0 < n).
  { rewrite <- Hr in Hx. unfold Qlt in Hx. cbn in Hx. lia. }
  destruct n as [|p|p]; try lia.
  exists p, d. split; [reflexivity|]. split; [reflexivity|]. symmetry. exact Hr.
Qed.

(** Rounding does not cross a number [c * 2^j] of the grid: for
    [0 < x < 2^E] and [max (E - 53) (-1074) <= j]. *)
Lemma round64_le_grid (x : Q) (c j E : Z) :
  (0 < x)%Q -> (x < pow2Q E)%Q -> Z.max (E - 53) (-1074) <= j ->
  (x <= inject_Z c * pow2Q j)%Q -> (round64 x <= inject_Z c * pow2Q j)%Q.
Proof.
  intros Hx HE Hj H.
  destruct (round64_positive_cases x Hx) as (p & q & _ & -> & Hpq).
  rewrite Hpq in HE, H.
  pose proof (last_place_bound p q E HE) as Ht.
  rewrite (regrid c j (Z.max (floor_log2 p q - 52) (-1074))) in * by lia.
  apply round64_pos_le_grid. exact H.
Qed.

Lemma round64_ge_grid (x : Q) (c j E : Z) :
  (0 < x)%Q -> (x < pow2Q E)%Q -> Z.max (E - 53) (-1074) <= j ->
  (inject_Z c * pow2Q j <= x)%Q -> (inject_Z c * pow2Q j <= round64 x)%Q.
Proof.
  intros Hx HE Hj H.
  destruct (round64_positive_cases x Hx) as (p & q & _ & -> & Hpq).
  rewrite Hpq in HE, H.
  pose proof (last_place_bound p q E HE) as Ht.
  rewrite (regrid c j (Z.max (floor_log2 p q - 52) (-1074))) in * by lia.
  apply round64_pos_ge_grid. exact H.
Qed.

Lemma round64_opp (x : Q) : round64 (- x) = Qopp (round64 x).
Proof.
  unfold round64. rewrite Qred_opp. destruct (Qred x) as [n d].
  cbn [Qnum Qden Qopp]. destruct n as [|p|p]; cbn [Z.opp].
  - reflexivity.
  - reflexivity.
  - destruct (round64_pos p d) as [a b]. unfold Qopp. cbn [Qnum Qden].
    rewrite Z.opp_involutive. reflexivity.
Qed.

(** An integer below [2^53] in absolute value is a binary64 number. *)
Lemma round64_integer_eq (n : Z) :
  Z.abs n < 2 ^ 53 -> (round64 (inject_Z n) == inject_Z n)%Q.
Proof.
  assert (G : forall m, 0 < m < 2 ^ 53 -> (round64 (inject_Z m) == inject_Z m)%Q).
  { intros m Hm.
    assert (Hx : (0 < inject_Z m)%Q) by (change 0%Q with (inject_Z 0); rewrite <- Zlt_Qlt; lia).
    assert (HE : (inject_Z m < pow2Q 53)%Q).
    { rewrite pow2Q_nonneg_eq by lia. rewrite <- Zlt_Qlt. lia. }
    assert (Eq : (inject_Z m == inject_Z m * pow2Q 0)%Q) by (change (pow2Q 0) with 1%Q; ring).
    apply Qle_antisym.
    - rewrite Eq at 2. apply (round64_le_grid _ m 0 53); try assumption; [lia|].
      rewrite <- Eq. apply Qle_refl.
    - rewrite Eq at 1. apply (round64_ge_grid _ m 0 53); try assumption; [lia|].
      rewrite <- Eq. apply Qle_refl. }
  intros Hn. destruct (Z.lt_trichotomy n 0) as [Hneg|[->|Hpos]].
  - replace n with (- - n) by lia. rewrite inject_Z_opp, round64_opp.
    rewrite (G (- n)) by lia. reflexivity.
  - reflexivity.
  - apply G. lia.
Qed.

Lemma Qfloor_inject_eq (x : Q) (n : Z) : (x == inject_Z n)%Q -> Qfloor x = n.
Proof. intros H. rewrite (Qfloor_comp _ _ H). apply Qfloor_Z. Qed.

(** ** utils/calculations.ts: slippage *)

Lemma slippage_bps_range (s : Q) :
  (0 <= s)%Q -> (s <= 100)%Q -> 0 <= slippage_bps s <= 10000.
Proof.
  intros H0 H1. unfold slippage_bps, number_mul.
  assert (Hx0 : (0 <= s * 100)%Q) by (apply Qmult_le_0_compat; [exact H0|discriminate]).
  assert (Hx1 : (s * 100 <= inject_Z 10000)%Q).
  { change (inject_Z 10000) with (100 * 100)%Q. apply Qmult_le_compat_r; [exact H1|discriminate]. }
  split.
  - change 0 with (Qfloor 0). apply Qfloor_resp_le. apply round64_nonneg. exact Hx0.
  - change 10000 with (Qfloor (inject_Z 10000)). apply Qfloor_resp_le.
    destruct (Qlt_le_dec 0 (s * 100)) as [Hpos|Hneg].
    + assert (Eq : (inject_Z 10000 == inject_Z 10000 * pow2Q 0)%Q) by reflexivity.
      rewrite Eq. apply (round64_le_grid _ 10000 0 14); try assumption.
      * eapply Qle_lt_trans; [exact Hx1|]. reflexivity.
      * lia.
    + rewrite (round64_compat (s * 100) 0); [discriminate|].
      apply Qle_antisym; assumption.
Qed.

Lemma quot_bounds (x k : Z) :
  0 <= x -> 0 <= k <= 10000 -> 0 <= Z.quot (x * k) 10000 <= x.
Proof.
  intros Hx Hk. rewrite quot_nonneg_div by nia. split.
  - apply Z.div_pos; nia.
  - apply Z.div_le_upper_bound; nia.
Qed.

Lemma slippage_keeps_amounts_in_range_aux (amount : Z) (slippagePercent : double) :
  0 <= amount -> (0 <= slippagePercent)%Q -> (slippagePercent <= 100)%Q ->
  0 <= calculateMinimumAmountOut amount slippagePercent <= amount.
Proof.
  intros Ha H0 H1. pose proof (slippage_bps_range slippagePercent H0 H1) as Hb.
  unfold calculateMinimumAmountOut. apply quot_bounds; lia.
Qed.

(** X10.  For a slippage between 0 and 100 percent and an amount that is not
    negative, [calculateMinimumAmountOut] lies between 0 and the amount, and
    [calculateMaximumAmountIn] between the amount and twice the amount. *)
Theorem slippage_keeps_amounts_in_range (amount : Z) (slippagePercent : double) :
  0 <= amount -> (0 <= slippagePercent)%Q -> (slippagePercent <= 100)%Q ->
  0 <= calculateMinimumAmountOut amount slippagePercent <= amount
  /\ amount <= calculateMaximumAmountIn amount slippagePercent <= 2 * amount.
Proof.
  intros Ha H0 H1. pose proof (slippage_bps_range slippagePercent H0 H1) as Hb.
  unfold calculateMinimumAmountOut, calculateMaximumAmountIn.
  set (bps := slippage_bps slippagePercent) in *. split.
  - apply quot_bounds; lia.
  - rewrite quot_nonneg_div by nia. split.
    + apply Z.div_le_lower_bound; nia.
    + apply Z.div_le_upper_bound; nia.
Qed.

Lemma slippage_keeps_amounts_in_range_witness :
  0 <= calculateMinimumAmountOut 1000000 (1 # 2) <= 1000000
  /\ 1000000 <= calculateMaximumAmountIn 1000000 (1 # 2) <= 2 * 1000000.
Proof.
  apply (slippage_keeps_amounts_in_range 1000000 (1 # 2)); [lia|discriminate|discriminate].
Defined.

(** X11.  The two [calculateMinimumAmountOut] of the repository agree: the
    one of utils/priceImpact.ts returns what the one of utils/calculations.ts
    returns, as long as the basis points stay below [2^52] in absolute
    value. *)
Theorem calculateMinimumAmountOut_agree (amountOut : Z) (slippagePercent : double) :
  Z.abs (slippage_bps slippagePercent) < 2 ^ 52 ->
  priceImpact_calculateMinimumAmountOut amountOut slippagePercent
  = Ok (calculateMinimumAmountOut amountOut slippagePercent).
Proof.
  intros Hb. unfold priceImpact_calculateMinimumAmountOut, calculateMinimumAmountOut.
  unfold Math_floor, number_sub. fold (slippage_bps slippagePercent).
  set (bps := slippage_bps slippagePercent) in *.
  assert (Hx : (round64 (10000 - inject_Z bps) == inject_Z (10000 - bps))%Q).
  { rewrite (round64_compat _ (inject_Z (10000 - bps))).
    - apply round64_integer_eq. change (2 ^ 53) with (2 * 2 ^ 52). lia.
    - unfold Z.sub. rewrite inject_Z_plus, inject_Z_opp. reflexivity. }
  unfold BigInt_of_number. rewrite (Qfloor_inject_eq _ _ Hx).
  assert (Hq : Qeq_bool (inject_Z (10000 - bps)) (round64 (10000 - inject_Z bps)) = true).
  { apply Qeq_bool_iff. symmetry. exact Hx. }
  rewrite Hq. unfold bigint_div. reflexivity.
Qed.

Lemma calculateMinimumAmountOut_agree_witness :
  priceImpact_calculateMinimumAmountOut 1000000 (1 # 2)
  = Ok (calculateMinimumAmountOut 1000000 (1 # 2)).
Proof. apply (calculateMinimumAmountOut_agree 1000000 (1 # 2)). reflexivity. Defined.

(** ** utils/calculations.ts: the nearest usable tick *)

Lemma Qred_idem (x : Q) : Qred (Qred x) = Qred x.
Proof. apply Qred_complete, Qred_correct. Qed.

Lemma round64_reduced (x : Q) : Qred (round64 x) = round64 x.
Proof.
  unfold round64. destruct (Qnum (Qred x)).
  - reflexivity.
  - unfold round64_pos. apply Qred_idem.
  - unfold round64_pos. rewrite Qred_opp, Qred_idem. reflexivity.
Qed.

Lemma Qred_inject_Z (n : Z) : Qred (inject_Z n) = inject_Z n.
Proof.
  unfold Qred, inject_Z.
  pose proof (Z.ggcd_correct_divisors n 1) as Hd.
  pose proof (Z.ggcd_gcd n 1) as Hg. rewrite Z.gcd_1_r in Hg.
  destruct (Z.ggcd n 1) as [g [aa bb]]. cbn [fst] in Hg. subst g.
  destruct Hd as [Ha Hb]. rewrite Z.mul_1_l in Ha, Hb. subst aa bb. reflexivity.
Qed.

(** A rounded number that equals an integer is that integer. *)
Lemma round64_is_integer (x : Q) (n : Z) :
  (round64 x == inject_Z n)%Q -> round64 x = inject_Z n.
Proof.
  intros H. rewrite <- round64_reduced. rewrite (Qred_complete _ _ H).
  apply Qred_inject_Z.
Qed.

Lemma round64_integer (n : Z) :
  Z.abs n < 2 ^ 53 -> round64 (inject_Z n) = inject_Z n.
Proof. intros H. apply round64_is_integer, round64_integer_eq, H. Qed.

(** The quotient of two integers, rounded to binary64 and then to the
    nearest integer, is the nearest integer of the exact quotient. *)
Lemma Math_round_quotient (t s : Z) :
  Z.abs t < 2 ^ 31 -> 0 < s <= 2 ^ 21 ->
  Math_round (number_div (inject_Z t) (inject_Z s)) = (2 * t + s) / (2 * s).
Proof.
  intros Ht Hs. set (R := (2 * t + s) / (2 * s)).
  assert (HR : 2 * s * R <= 2 * t + s < 2 * s * (R + 1)).
  { pose proof (Z.div_mod (2 * t + s) (2 * s) ltac:(lia)) as Hdm.
    pose proof (Z.mod_pos_bound (2 * t + s) (2 * s) ltac:(lia)) as Hm.
    fold R in Hdm. nia. }
  assert (Hsq : (0 < inject_Z s)%Q) by (change 0%Q with (inject_Z 0); rewrite <- Zlt_Qlt; lia).
  assert (Hsn : ~ (inject_Z s == 0)%Q) by (intros E; rewrite E in Hsq; discriminate).
  set (q := (inject_Z t / inject_Z s)%Q).
  set (L := (inject_Z (2 * R - 1) * pow2Q (-1))%Q).
  set (G := (inject_Z ((2 * R + 1) * 2 ^ 21 - 1) * pow2Q (-22))%Q).
  assert (HLq : (L <= q)%Q).
  { subst L q. apply Qle_shift_div_l; [exact Hsq|].
    change (pow2Q (-1)) with (1 # 2). unfold Qle. cbn [Qnum Qden Qmult inject_Z].
    rewrite !Z.mul_1_r. change (Zpos (2 * 1)) with 2. nia. }
  assert (HqG : (q <= G)%Q).
  { subst G q. apply Qle_shift_div_r; [exact Hsq|].
    change (pow2Q (-22)) with (1 # 4194304). unfold Qle. cbn [Qnum Qden Qmult inject_Z].
    rewrite !Z.mul_1_r. change (Zpos (4194304 * 1)) with (2 * 2 ^ 21).
    change (2 ^ 21) with 2097152 in *. nia. }
  assert (Hqabs : (- pow2Q 31 < q)%Q /\ (q < pow2Q 31)%Q).
  { subst q. change (pow2Q 31) with (inject_Z (2 ^ 31)). split.
    - apply Qlt_shift_div_l; [exact Hsq|]. rewrite <- inject_Z_opp, <- inject_Z_mult.
      rewrite <- Zlt_Qlt. nia.
    - apply Qlt_shift_div_r; [exact Hsq|]. rewrite <- inject_Z_mult.
      rewrite <- Zlt_Qlt. nia. }
  assert (Hx : (L <= round64 q)%Q /\ (round64 q <= G)%Q).
  { destruct (Q_dec 0 q) as [[Hpos|Hneg]|Hz].
    - split.
      + apply (round64_ge_grid q _ (-1) 31); try tauto; lia.
      + apply (round64_le_grid q _ (-22) 31); try tauto; lia.
    - assert (Hq' : (0 < - q)%Q) by (apply (Qopp_lt_compat q 0) in Hneg; exact Hneg).
      assert (HE : (- q < pow2Q 31)%Q).
      { destruct Hqabs as [Hl _]. apply Qopp_lt_compat in Hl.
        rewrite Qopp_involutive in Hl. exact Hl. }
      assert (Eq : round64 q = Qopp (round64 (- q))).
      { rewrite <- round64_opp. apply round64_compat. symmetry.
        apply Qopp_involutive. }
      rewrite Eq. split.
      + rewrite <- (Qopp_involutive L). apply Qopp_le_compat.
        assert (E : (- L == inject_Z (- (2 * R - 1)) * pow2Q (-1))%Q)
          by (subst L; rewrite inject_Z_opp; ring).
        rewrite E. apply (round64_le_grid (- q) _ (-1) 31); try assumption; [lia|].
        rewrite <- E. apply Qopp_le_compat. exact HLq.
      + rewrite <- (Qopp_involutive G). apply Qopp_le_compat.
        assert (E : (- G == inject_Z (- ((2 * R + 1) * 2 ^ 21 - 1)) * pow2Q (-22))%Q)
          by (subst G; rewrite inject_Z_opp; ring).
        rewrite E. apply (round64_ge_grid (- q) _ (-22) 31); try assumption; [lia|].
        rewrite <- E. apply Qopp_le_compat. exact HqG.
    - rewrite (round64_compat q 0) by (symmetry; exact Hz).
      change (round64 0) with 0%Q. rewrite <- Hz in HLq, HqG. tauto. }
  unfold Math_round, number_div. fold q. apply Qfloor_unique.
  - eapply Qle_trans; [|apply Qplus_le_l; apply (proj1 Hx)].
    subst L. change (pow2Q (-1)) with (1 # 2). unfold Qle.
    cbn [Qnum Qden Qmult Qplus inject_Z]. lia.
  - eapply Qle_lt_trans; [apply Qplus_le_l; apply (proj2 Hx)|].
    subst G. change (pow2Q (-22)) with (1 # 4194304). unfold Qlt.
    cbn [Qnum Qden Qmult Qplus inject_Z]. change (2 ^ 21) with 2097152. lia.
Qed.

(** X12.  For an integer tick below [2^31] in absolute value and an integer
    spacing between 1 and [2^21], [getNearestUsableTick] returns the multiple
    of the spacing nearest to the tick (a tie goes upwards), brought into
    [[MIN_TICK, MAX_TICK]]; that multiple is within half a spacing of the
    tick. *)
Theorem getNearestUsableTick_spec (tick tickSpacing : Z) :
  Z.abs tick < 2 ^ 31 -> 0 < tickSpacing <= 2 ^ 21 ->
  let nearest := (2 * tick + tickSpacing) / (2 * tickSpacing) * tickSpacing in
  getNearestUsableTick (inject_Z tick) (inject_Z tickSpacing)
  = inject_Z (Z.max MIN_TICK (Z.min MAX_TICK nearest))
  /\ - tickSpacing < 2 * (nearest - tick) <= tickSpacing.
Proof.
  intros Ht Hs nearest. set (R := (2 * tick + tickSpacing) / (2 * tickSpacing)) in *.
  assert (HR : 2 * tickSpacing * R <= 2 * tick + tickSpacing < 2 * tickSpacing * (R + 1)).
  { pose proof (Z.div_mod (2 * tick + tickSpacing) (2 * tickSpacing) ltac:(lia)) as Hdm.
    pose proof (Z.mod_pos_bound (2 * tick + tickSpacing) (2 * tickSpacing) ltac:(lia)) as Hm.
    fold R in Hdm. nia. }
  split; [|subst nearest; nia].
  unfold getNearestUsableTick. rewrite Math_round_quotient by assumption. fold R.
  assert (Hn : Z.abs nearest < 2 ^ 53).
  { subst nearest. change (2 ^ 31) with 2147483648 in Ht.
    change (2 ^ 21) with 2097152 in Hs. change (2 ^ 53) with 9007199254740992. nia. }
  assert (E : number_mul (inject_Z R) (inject_Z tickSpacing) = inject_Z nearest).
  { unfold number_mul. rewrite (round64_compat _ (inject_Z nearest)).
    - apply round64_integer. exact Hn.
    - subst nearest. rewrite inject_Z_mult. reflexivity. }
  rewrite E. unfold Qlt_bool, MIN_TICK, MAX_TICK.
  destruct (Qle_bool (inject_Z (-887272)) (inject_Z nearest)) eqn:E1.
  - apply Qle_bool_iff in E1. rewrite <- Zle_Qle in E1. cbn [negb].
    destruct (Qle_bool (inject_Z nearest) (inject_Z 887272)) eqn:E2.
    + apply Qle_bool_iff in E2. rewrite <- Zle_Qle in E2. cbn [negb]. f_equal. lia.
    + cbn [negb]. f_equal.
      assert (887272 < nearest).
      { destruct (Z.le_gt_cases nearest 887272) as [Hle|]; [|lia].
        rewrite Zle_Qle in Hle. apply Qle_bool_iff in Hle. congruence. }
      lia.
  - cbn [negb]. f_equal.
    assert (nearest < -887272).
    { destruct (Z.le_gt_cases (-887272) nearest) as [Hle|]; [|lia].
      rewrite Zle_Qle in Hle. apply Qle_bool_iff in Hle. congruence. }
    lia.
Qed.

Lemma getNearestUsableTick_spec_witness :
  let nearest := (2 * 100 + 60) / (2 * 60) * 60 in
  getNearestUsableTick (inject_Z 100) (inject_Z 60)
  = inject_Z (Z.max MIN_TICK (Z.min MAX_TICK nearest))
  /\ - 60 < 2 * (nearest - 100) <= 60.
Proof. apply (getNearestUsableTick_spec 100 60); [reflexivity|split; [lia|discriminate]]. Defined.

(** ** utils/validation.ts *)

Lemma addressRegex_inv (a : string) :
  addressRegex a = true ->
  exists r, a = String "0" (String "x" r) /\ all_hex r = true
            /\ String.length r = 40%nat.
Proof.
  unfold addressRegex. destruct a as [|c0 a']; [discriminate|].
  destruct c0 as [[] [] [] [] [] [] [] []]; try discriminate.
  destruct a' as [|c1 r]; [discriminate|].
  destruct c1 as [[] [] [] [] [] [] [] []]; try discriminate.
  intros H. apply andb_true_iff in H. destruct H as [H1 H2].
  apply Nat.eqb_eq in H2. exists r. repeat split; assumption.
Qed.

Lemma addressRegex_length (a : string) :
  addressRegex a = true -> String.length a = 42%nat.
Proof.
  intros H. destruct (addressRegex_inv a H) as (r & -> & _ & Hl).
  cbn [String.length]. lia.
Qed.

(** X13.  [validateAddress] has two outcomes only: it returns the checksummed
    form of an address that is [0x] and forty hexadecimal digits (42
    characters), written in lower case or with its checksum; or it throws the
    [Error] "Invalid address: " followed by the argument.  An address without
    upper-case letters that matches the pattern is always accepted. *)
Theorem validateAddress_outcomes (w : World) (a : string) :
  (validateAddress w a = Ok (checksumAddress w a)
   /\ addressRegex a = true /\ String.length a = 42%nat
   /\ (toLowerCase a = a \/ checksumAddress w a = a))
  \/ (validateAddress w a = Throw (Error ("Invalid address: " ++ a))
      /\ (addressRegex a = false
          \/ (toLowerCase a <> a /\ checksumAddress w a <> a))).
Proof.
  unfold validateAddress, getAddress, isAddress.
  destruct (addressRegex a) eqn:Hr; cbn [negb].
  - destruct (String.eqb_spec (toLowerCase a) a) as [Hl|Hl]; cbn [negb].
    + left. repeat split; auto using addressRegex_length.
    + destruct (String.eqb_spec (checksumAddress w a) a) as [Hc|Hc]; cbn [negb].
      * left. repeat split; auto using addressRegex_length.
      * right. split; [reflexivity|]. right. split; assumption.
  - right. split; [reflexivity|]. left. reflexivity.
Qed.

Lemma map_result_Ok_inv {A B : Type} (f : A -> result B) (l : list A) (ys : list B) :
  map_result f l = Ok ys -> Forall2 (fun x y => f x = Ok y) l ys.
Proof.
  revert ys. induction l as [|x r IH]; intros ys H; cbn [map_result] in H.
  - injection H as <-. constructor.
  - destruct (f x) as [y|e] eqn:Hx; [|discriminate].
    destruct (map_result f r) as [ys'|e] eqn:Hr; [|discriminate].
    injection H as <-. constructor; [exact Hx|apply IH; reflexivity].
Qed.

Lemma map_result_Throw_inv {A B : Type} (f : A -> result B) (l : list A) (e : exn) :
  map_result f l = Throw e ->
  exists before x after,
    l = (before ++ x :: after)%list /\ f x = Throw e
    /\ Forall (fun y => exists v, f y = Ok v) before.
Proof.
  induction l as [|x r IH]; intros H; cbn [map_result] in H; [discriminate|].
  destruct (f x) as [y|e'] eqn:Hx.
  - destruct (map_result f r) as [ys'|e''] eqn:Hr; [discriminate|].
    injection H as ->. destruct (IH eq_refl) as (b & x' & a & -> & Hf & Hall).
    exists (x :: b), x', a. split; [reflexivity|]. split; [exact Hf|].
    constructor; [exists y; exact Hx|exact Hall].
  - injection H as ->. exists [], x, r. split; [reflexivity|]. split; [exact Hx|constructor].
Qed.

Lemma validateAddress_Ok_inv (w : World) (a r : string) :
  validateAddress w a = Ok r -> r = checksumAddress w a /\ addressRegex a = true.
Proof.
  unfold validateAddress, getAddress, isAddress. intros H.
  destruct (addressRegex a); cbn [negb] in H; [|discriminate H].
  split; [|reflexivity].
  destruct (String.eqb (toLowerCase a) a); cbn [negb] in H;
    [|destruct (String.eqb (checksumAddress w a) a); cbn [negb] in H];
    try discriminate H; injection H as <-; reflexivity.
Qed.



(** ** config/tokens.ts *)

Lemma toLowerCase_idem (s : string) : toLowerCase (toLowerCase s) = toLowerCase s.
Proof.
  induction s as [|c r IH]; [reflexivity|]. cbn [toLowerCase]. f_equal; [|exact IH].
  destruct c as [[] [] [] [] [] [] [] []]; reflexivity.
Qed.

Lemma toUpperCase_idem (s : string) : toUpperCase (toUpperCase s) = toUpperCase s.
Proof.
  induction s as [|c r IH]; [reflexivity|]. cbn [toUpperCase]. f_equal; [|exact IH].
  destruct c as [[] [] [] [] [] [] [] []]; reflexivity.
Qed.

Lemma existsb_eqb_In (x : string) (l : list string) :
  existsb (String.eqb x) l = true <-> In x l.
Proof.
  rewrite existsb_exists. split.
  - intros (y & Hy & E). apply String.eqb_eq in E. subst. exact Hy.
  - intros H. exists x. split; [exact H|apply String.eqb_refl].
Qed.

Lemma record_get_distinct {V : Type} (record : list (string * V)) (k : string) (v : V) :
  distinct (map fst record) = true -> In (k, v) record -> record_get record k = Some v.
Proof.
  induction record as [|[k' v'] r IH]; intros Hd Hin; [contradiction|].
  cbn [map fst distinct] in Hd. apply andb_true_iff in Hd. destruct Hd as [Hn Hd].
  cbn [record_get]. destruct Hin as [E|Hin].
  - injection E as -> ->. rewrite String.eqb_refl. reflexivity.
  - destruct (String.eqb_spec k' k) as [->|Hne]; [|apply IH; assumption].
    exfalso. apply negb_true_iff in Hn.
    assert (Hx : existsb (String.eqb k) (map fst r) = true).
    { apply existsb_eqb_In. apply (in_map fst) in Hin. exact Hin. }
    congruence.
Qed.

Lemma find_distinct (tokens : list Token) (t : Token) (key : string) :
  distinct (map (fun t => toLowerCase (address t)) tokens) = true ->
  In t tokens -> key = toLowerCase (address t) ->
  find (fun token => String.eqb (toLowerCase (address token)) key) tokens = Some t.
Proof.
  intros Hd Hin ->. induction tokens as [|t' r IH]; [contradiction|].
  cbn [map distinct] in Hd. apply andb_true_iff in Hd. destruct Hd as [Hn Hd].
  cbn [find]. destruct Hin as [->|Hin].
  - rewrite String.eqb_refl. reflexivity.
  - destruct (String.eqb_spec (toLowerCase (address t')) (toLowerCase (address t)))
      as [E|Hne]; [|apply IH; assumption].
    exfalso. apply negb_true_iff in Hn.
    assert (Hx : existsb (String.eqb (toLowerCase (address t')))
                   (map (fun t => toLowerCase (address t)) r) = true).
    { apply existsb_eqb_In. rewrite E.
      apply (in_map (fun t => toLowerCase (address t))) in Hin. exact Hin. }
    congruence.
Qed.

(** X15.  In a registry whose symbols are distinct and whose addresses are
    distinct up to letter case, every token is found again under its key and
    under its address, in any letter case; [hasSymbol], [hasAddress] and
    [getAddress] agree with these lookups.  (The mainnet table is such a
    registry; the testnet table, whose three tokens share one address, is
    not.) *)
Theorem registry_roundtrip (tokens : list (string * Token)) (key : string)
    (t : Token) (s a : string) :
  distinct (getSymbols tokens) = true ->
  distinct (map (fun t => toLowerCase (address t)) (getAllTokens tokens)) = true ->
  In (key, t) tokens ->
  toUpperCase s = key -> toLowerCase a = toLowerCase (address t) ->
  getBySymbol tokens s = Some t
  /\ getByAddress tokens a = Some t
  /\ hasSymbol tokens s = true
  /\ hasAddress tokens a = true
  /\ TokenRegistry_getAddress tokens s = Some (address t).
Proof.
  intros Hk Ha Hin Hs Hl.
  assert (G1 : record_get tokens (toUpperCase s) = Some t).
  { rewrite Hs. apply record_get_distinct; assumption. }
  assert (G2 : getByAddress tokens a = Some t).
  { unfold getByAddress. apply find_distinct; [exact Ha| |exact Hl].
    apply (in_map snd) in Hin. exact Hin. }
  unfold getBySymbol, hasSymbol, hasAddress, TokenRegistry_getAddress.
  rewrite G1, G2. repeat split; try reflexivity.
  apply existsb_eqb_In. rewrite Hs. apply (in_map fst) in Hin. exact Hin.
Qed.

Lemma registry_roundtrip_witness :
  getBySymbol MAINNET_TOKENS "usdc" = Some (mkToken USDC "USDC" "USD Coin" 6 false)
  /\ getByAddress MAINNET_TOKENS (toLowerCase USDC)
     = Some (mkToken USDC "USDC" "USD Coin" 6 false)
  /\ hasSymbol MAINNET_TOKENS "usdc" = true
  /\ hasAddress MAINNET_TOKENS (toLowerCase USDC) = true
  /\ TokenRegistry_getAddress MAINNET_TOKENS "usdc" = Some USDC.
Proof.
  apply (registry_roundtrip MAINNET_TOKENS "USDC"
           (mkToken USDC "USDC" "USD Coin" 6 false) "usdc" (toLowerCase USDC)).
  - reflexivity.
  - reflexivity.
  - cbn. tauto.
  - reflexivity.
  - reflexivity.
Defined.

(** The testnet table is not such a registry: its tokens share one address,
    and a lookup by this address finds the first of them. *)
Lemma testnet_addresses_coincide :
  distinct (map (fun t => toLowerCase (address t)) (getAllTokens TESTNET_TOKENS)) = false
  /\ option_map symbol
       (getByAddress TESTNET_TOKENS "0x0000000000000000000000000000000000000000")
     = Some "DOT".
Proof. split; reflexivity. Qed.

(** ** The constructor of [AggregatorService] *)

Lemma register_all_V2 (dexes : list DexConfig) (m : list (string * DexAdapter)) :
  Forall (fun d => DexVersion_eqb (version d) v2 = true) dexes ->
  register_all new_V2DexAdapter dexes m
  = Ok (fold_left (fun m d => map_set m (dex_name d) (V2DexAdapter d)) dexes m).
Proof.
  intros H. revert m. induction H as [|d r Hd _ IH]; intros m; [reflexivity|].
  cbn [register_all fold_left]. unfold new_V2DexAdapter, new_V2Service.
  rewrite Hd. cbn [negb]. apply IH.
Qed.

Lemma register_all_V3 (dexes : list DexConfig) (m : list (string * DexAdapter)) :
  Forall (fun d => DexVersion_eqb (version d) v3 = true) dexes ->
  register_all new_V3DexAdapter dexes m
  = Ok (fold_left (fun m d => map_set m (dex_name d) (V3DexAdapter d)) dexes m).
Proof.
  intros H. revert m. induction H as [|d r Hd _ IH]; intros m; [reflexivity|].
  cbn [register_all fold_left]. unfold new_V3DexAdapter, new_V3Service.
  rewrite Hd. cbn [negb]. apply IH.
Qed.

Lemma filter_Forall {A : Type} (f : A -> bool) (l : list A) :
  Forall (fun x => f x = true) (filter f l).
Proof. apply Forall_forall. intros x H. apply filter_In in H. tauto. Qed.

Lemma map_set_values {V : Type} (P : V -> Prop) (m : list (string * V)) (k : string) (v : V) :
  Forall P (map snd m) -> P v -> Forall P (map snd (map_set m k v)).
Proof.
  intros Hm Hv. induction m as [|[k' v'] r IH]; cbn [map_set map snd].
  - constructor; [exact Hv|constructor].
  - inversion Hm; subst. destruct (String.eqb k' k); cbn [map snd].
    + constructor; assumption.
    + constructor; [assumption|apply IH; assumption].
Qed.

Lemma fold_map_set_values {V : Type} (P : V -> Prop) (make : DexConfig -> V)
    (dexes : list DexConfig) (m : list (string * V)) :
  Forall P (map snd m) -> Forall (fun d => P (make d)) dexes ->
  Forall P (map snd (fold_left (fun m d => map_set m (dex_name d) (make d)) dexes m)).
Proof.
  intros Hm Hd. revert m Hm. induction Hd as [|d r Hd _ IH]; intros m Hm; [exact Hm|].
  cbn [fold_left]. apply IH. apply map_set_values; assumption.
Qed.

(** X16.  Whatever list of configurations [DEXES] holds, the constructor of
    [AggregatorService] never throws: the checks of the adapters and of the
    services it builds cannot fail, since each list was filtered by version,
    and every adapter registered is of the kind its configuration names.  For
    the list the repository configures, [getAdapter] finds under a name the
    adapter of the configuration that [getDexByName] finds under it. *)
Theorem AggregatorService_constructor_never_throws (dexes : list DexConfig) (w : World)
    (dexName : string) :
  (exists s, AggregatorService_constructor_on dexes = Ok s
             /\ Forall (fun a => adapter_matches_version a = true) (getAllAdapters s))
  /\ AggregatorService_constructor w = Ok (new_AggregatorService w)
  /\ option_map adapter_config (getAdapter (new_AggregatorService w) dexName)
     = getDexByName (env w) dexName.
Proof.
  split; [|split].
  - unfold AggregatorService_constructor_on. cbv zeta.
    rewrite register_all_V2 by apply filter_Forall.
    rewrite register_all_V3 by apply filter_Forall.
    eexists. split; [reflexivity|].
    unfold getAllAdapters, map_values. cbn [adapters].
    apply (fold_map_set_values (fun a => adapter_matches_version a = true) V3DexAdapter).
    + apply (fold_map_set_values (fun a => adapter_matches_version a = true) V2DexAdapter).
      * constructor.
      * apply filter_Forall.
    + apply filter_Forall.
  - reflexivity.
  - unfold getAdapter, getDexByName. rewrite new_service_adapters.
    cbn [record_get DEXES find UNISWAP_V2_FORK1 UNISWAP_V3_FORK1 dex_name].
    destruct (String.eqb "Hammy Swap" dexName); [reflexivity|].
    destruct (String.eqb "Surge Dex" dexName); reflexivity.
Qed.

(** ** services/v2Service.ts *)

Lemma V2Service_getQuote_inv w ch config tokenIn tokenOut amountIn l r l' :
  V2Service_getQuote w ch config tokenIn tokenOut amountIn l = (r, l') ->
  (exists e, r = Throw e
             /\ (fst (V2Service_getPair w ch tokenIn tokenOut l) = Throw e
                 \/ exists pairAddress l1,
                      V2Service_getPair w ch tokenIn tokenOut l = (Ok pairAddress, l1)
                      /\ fst (V2Service_getPairInfo w ch pairAddress l1) = Throw e))
  \/ exists pairAddress l1 pair,
       V2Service_getPair w ch tokenIn tokenOut l = (Ok pairAddress, l1)
       /\ V2Service_getPairInfo w ch pairAddress l1 = (Ok pair, l')
       /\ r = match validateReserves (fst (reserves_for w tokenIn pair))
                      (snd (reserves_for w tokenIn pair)) with
              | Throw e => Throw e
              | Ok _ =>
                  match getRouterContract config with
                  | Throw e => Throw e
                  | Ok _ =>
                      router_getAmountOut ch amountIn (fst (reserves_for w tokenIn pair))
                        (snd (reserves_for w tokenIn pair))
                  end
              end.
Proof.
  unfold V2Service_getQuote. intros H. apply bind_inv in H.
  destruct H as [(pa & l1 & Hp & H)|(e & Hp & ->)].
  2: { left. exists e. split; [reflexivity|]. left. rewrite Hp. reflexivity. }
  apply bind_inv in H. destruct H as [(pair & l2 & Hi & H)|(e & Hi & ->)].
  2: { left. exists e. split; [reflexivity|]. right. exists pa, l1.
       split; [exact Hp|]. rewrite Hi. reflexivity. }
  right. exists pa, l1, pair.
  (* the address of tokenIn was accepted when the pair was looked up *)
  assert (Hv : validateAddress w tokenIn = Ok (checksumAddress w tokenIn)).
  { unfold V2Service_getPair in Hp. apply bind_Ok_inv in Hp.
    destruct Hp as (a0 & l3 & Ha & _). apply lift_inv in Ha. destruct Ha as [Ha _].
    symmetry in Ha. pose proof (validateAddress_Ok_inv _ _ _ Ha) as [-> _]. exact Ha. }
  unfold bind at 1 in H. unfold lift at 1 in H. rewrite Hv in H.
  fold (reserves_for w tokenIn pair) in H.
  destruct (reserves_for w tokenIn pair) as [rin rout]. cbn [fst snd].
  unfold bind, lift in H.
  destruct (validateReserves rin rout); [|injection H as <- <-; auto].
  destruct (getRouterContract config); injection H as <- <-; auto.
Qed.

(** X17.  [V2Service.getQuote] asks the router only for a pair with two
    reserves that are not zero: with a zero reserve it throws "Insufficient
    liquidity: one or both reserves are zero", whatever the router would
    answer.  Otherwise, with a router configured, it returns what the router
    answers for the reserves in the order of the swap; when the router
    computes [getAmountOut], that is the output formula of the V2 pair. *)
Theorem V2Service_getQuote_spec w ch config tokenIn tokenOut amountIn l pairAddress l1
    pair l2 :
  V2Service_getPair w ch tokenIn tokenOut l = (Ok pairAddress, l1) ->
  V2Service_getPairInfo w ch pairAddress l1 = (Ok pair, l2) ->
  let reserveIn := fst (reserves_for w tokenIn pair) in
  let reserveOut := snd (reserves_for w tokenIn pair) in
  (reserveIn = 0 \/ reserveOut = 0 ->
   forall router,
     V2Service_getQuote w (with_router ch router) config tokenIn tokenOut amountIn l
     = (Throw (Error "Insufficient liquidity: one or both reserves are zero"), l2))
  /\ (reserveIn <> 0 -> reserveOut <> 0 -> truthy (routerAddress config) = true ->
      V2Service_getQuote w ch config tokenIn tokenOut amountIn l
      = (router_getAmountOut ch amountIn reserveIn reserveOut, l2))
  /\ (0 < reserveIn -> 0 < reserveOut -> 0 < amountIn ->
      truthy (routerAddress config) = true ->
      V2Service_getQuote w (with_router ch getAmountOut) config tokenIn tokenOut
        amountIn l
      = (Ok (amountIn * 997 * reserveOut / (reserveIn * 1000 + amountIn * 997)), l2)).
Proof.
  intros Hp Hi reserveIn reserveOut.
  assert (G : forall router,
             V2Service_getQuote w (with_router ch router) config tokenIn tokenOut
               amountIn l
             = (match validateReserves reserveIn reserveOut with
                | Throw e => Throw e
                | Ok _ =>
                    match getRouterContract config with
                    | Throw e => Throw e
                    | Ok _ => router amountIn reserveIn reserveOut
                    end
                end, l2)).
  { intros router.
    destruct (V2Service_getQuote w (with_router ch router) config tokenIn tokenOut
                amountIn l) as [r l'] eqn:H.
    apply V2Service_getQuote_inv in H.
    change (V2Service_getPair w (with_router ch router)) with (V2Service_getPair w ch) in H.
    change (V2Service_getPairInfo w (with_router ch router))
      with (V2Service_getPairInfo w ch) in H.
    rewrite Hp in H. cbn [fst] in H.
    destruct H as [(e & -> & [H|(pa & l3 & Hpa & H)])|(pa & l3 & pair' & Hpa & Hpi & ->)].
    - discriminate.
    - injection Hpa as <- <-. rewrite Hi in H. discriminate.
    - injection Hpa as <- <-. rewrite Hi in Hpi. injection Hpi as <- <-. reflexivity. }
  assert (G' : V2Service_getQuote w ch config tokenIn tokenOut amountIn l
               = V2Service_getQuote w (with_router ch (router_getAmountOut ch)) config
                   tokenIn tokenOut amountIn l).
  { destruct ch. reflexivity. }
  split; [|split].
  - intros Hz router. rewrite G. unfold validateReserves.
    destruct (Z.eqb_spec reserveIn 0) as [|N0]; [reflexivity|].
    destruct (Z.eqb_spec reserveOut 0) as [|N1]; [reflexivity|]. lia.
  - intros N0 N1 Hr. rewrite G', G. unfold validateReserves, getRouterContract.
    destruct (Z.eqb_spec reserveIn 0); [contradiction|].
    destruct (Z.eqb_spec reserveOut 0); [contradiction|]. rewrite Hr. reflexivity.
  - intros P0 P1 Pa Hr. rewrite G. unfold validateReserves, getRouterContract.
    destruct (Z.eqb_spec reserveIn 0); [lia|].
    destruct (Z.eqb_spec reserveOut 0); [lia|]. rewrite Hr. cbn [orb negb].
    rewrite getAmountOut_Ok by assumption. reflexivity.
Qed.

Lemma V2Service_getQuote_spec_witness :
  let w := example_world_usdc in
  let ch := example_chain 1000 2000 in
  let config := mkDexConfig "Uniswap V2 Fork" v2 "0xf" (Some "0xr") None None in
  exists l2,
    V2Service_getQuote w (with_router ch getAmountOut) config WETH USDC 10 []
    = (Ok 19, l2).
Proof.
  intros w ch config.
  destruct (V2Service_getPair w ch WETH USDC []) as [[pa|e] l1] eqn:Hp;
    [|vm_compute in Hp; discriminate Hp].
  destruct (V2Service_getPairInfo w ch pa l1) as [[pair|e] l2] eqn:Hi.
  - pose proof (V2Service_getQuote_spec w ch config WETH USDC 10 [] pa l1 pair l2 Hp Hi)
      as (_ & _ & H).
    vm_compute in Hp. injection Hp as <- <-.
    vm_compute in Hi. injection Hi as <- <-.
    eexists. rewrite H; [reflexivity|reflexivity|reflexivity|reflexivity|reflexivity].
  - vm_compute in Hp. injection Hp as <- <-. vm_compute in Hi. discriminate Hi.
Defined.

Lemma Math_min_inject (a b : Z) :
  Math_min (inject_Z a) (inject_Z b) = inject_Z (Z.min a b).
Proof.
  unfold Math_min, Qlt_bool, Qle_bool. cbn [Qnum Qden inject_Z].
  rewrite !Z.mul_1_r. destruct (Z.leb_spec a b) as [H|H]; cbn [negb].
  - rewrite Z.min_l by exact H. reflexivity.
  - rewrite Z.min_r by lia. reflexivity.
Qed.

Lemma indices_inject (s t : Z) :
  indices s (inject_Z t)
  = map (fun k => s + Z.of_nat k) (seq 0 (Z.to_nat (t - s))).
Proof. unfold indices. rewrite Qceiling_Z. reflexivity. Qed.

Lemma map_result_range {B : Type} (f : Z -> result B) (s : Z) (n : nat) :
  (forall ys, map_result f (map (fun k => s + Z.of_nat k) (seq 0 n)) = Ok ys ->
     List.length ys = n
     /\ forall k y, nth_error ys k = Some y -> f (s + Z.of_nat k) = Ok y)
  /\ (forall e, map_result f (map (fun k => s + Z.of_nat k) (seq 0 n)) = Throw e ->
        exists k, (k < n)%nat /\ f (s + Z.of_nat k) = Throw e).
Proof.
  split.
  - intros ys H. apply map_result_Ok_inv in H.
    assert (L : List.length ys = n).
    { apply Forall2_length in H. rewrite length_map, length_seq in H. auto. }
    split; [exact L|]. intros k y Hk.
    assert (G : forall m base zs,
               Forall2 (fun x y => f x = Ok y)
                 (map (fun k => s + Z.of_nat k) (seq base m)) zs ->
               forall j z, nth_error zs j = Some z ->
                           f (s + Z.of_nat (base + j)) = Ok z).
    { clear. induction m as [|m IH]; intros base zs H j z Hj; cbn [seq map] in H.
      - inversion H; subst. destruct j; discriminate.
      - inversion H as [|x y0 l ys0 Hx Hr]; subst. destruct j as [|j].
        + cbn in Hj. injection Hj as <-. rewrite Nat.add_0_r. exact Hx.
        + cbn [nth_error] in Hj. replace (base + S j)%nat with (S base + j)%nat by lia.
          eapply IH; eassumption. }
    exact (G n 0%nat ys H k y Hk).
  - intros e H. apply map_result_Throw_inv in H.
    destruct H as (before & x & after & Hl & Hx & _).
    assert (Hin : In x (map (fun k => s + Z.of_nat k) (seq 0 n))).
    { rewrite Hl. apply in_or_app. right. left. reflexivity. }
    apply in_map_iff in Hin. destruct Hin as (k & <- & Hk). apply in_seq in Hk.
    exists k. split; [lia|exact Hx].
Qed.

Lemma getAllPairs_eq ch startIndex endIndex len :
  factory_allPairsLength ch = Ok len -> 0 <= len < 2 ^ 53 ->
  V2Service_getAllPairs ch startIndex endIndex
  = map_result (factory_allPairs ch)
      (map (fun k => startIndex + Z.of_nat k)
         (seq 0 (Z.to_nat (Z.min endIndex len - startIndex)))).
Proof.
  intros Hl Hr. unfold V2Service_getAllPairs, V2Service_getAllPairsLength.
  rewrite Hl. unfold Number_of_bigint. rewrite round64_integer by lia.
  cbv zeta. rewrite Math_min_inject, indices_inject.
  unfold Qle_bool. cbn [Qnum Qden inject_Z]. rewrite !Z.mul_1_r.
  destruct (Z.leb_spec (Z.min endIndex len) startIndex) as [H|H]; [|reflexivity].
  replace (Z.to_nat (Z.min endIndex len - startIndex)) with 0%nat by lia. reflexivity.
Qed.

(** X18.  With a list of [len] pairs in the factory, [getAllPairs] reads the
    pairs of the indices from [startIndex] up to, and without, the smaller of
    [endIndex] and [len], and no other: it returns their addresses in this
    order when every read succeeds, the empty list when the range is empty,
    and fails only with the failure of a read inside the range.
    [getAllPairsAddresses] returns [len] addresses. *)
Theorem getAllPairs_within_length ch startIndex endIndex len :
  factory_allPairsLength ch = Ok len -> 0 <= len < 2 ^ 53 ->
  - 2 ^ 53 <= startIndex -> endIndex <= 2 ^ 53 ->
  let stop := Z.min endIndex len in
  (stop <= startIndex -> V2Service_getAllPairs ch startIndex endIndex = Ok [])
  /\ (forall pairs, V2Service_getAllPairs ch startIndex endIndex = Ok pairs ->
        Z.of_nat (List.length pairs) = Z.max 0 (stop - startIndex)
        /\ forall k p, nth_error pairs k = Some p ->
                       factory_allPairs ch (startIndex + Z.of_nat k) = Ok p)
  /\ (forall e, V2Service_getAllPairs ch startIndex endIndex = Throw e ->
        exists i, startIndex <= i < stop /\ factory_allPairs ch i = Throw e)
  /\ ((forall i, startIndex <= i < stop -> exists p, factory_allPairs ch i = Ok p) ->
      exists pairs, V2Service_getAllPairs ch startIndex endIndex = Ok pairs)
  /\ (forall pairs, V2Service_getAllPairsAddresses ch = Ok pairs ->
        Z.of_nat (List.length pairs) = len).
Proof.
  intros Hl Hr _ _ stop.
  pose proof (getAllPairs_eq ch startIndex endIndex len Hl Hr) as E.
  fold stop in E.
  pose proof (map_result_range (factory_allPairs ch) startIndex
                (Z.to_nat (stop - startIndex))) as [ROk RThrow].
  rewrite <- E in ROk, RThrow.
  assert (T : forall e, V2Service_getAllPairs ch startIndex endIndex = Throw e ->
                exists i, startIndex <= i < stop /\ factory_allPairs ch i = Throw e).
  { intros e H. destruct (RThrow e H) as (k & Hk & Hf).
    exists (startIndex + Z.of_nat k). split; [lia|exact Hf]. }
  split; [|split; [|split; [exact T|split]]].
  - intros H. rewrite E. replace (Z.to_nat (stop - startIndex)) with 0%nat by lia.
    reflexivity.
  - intros pairs H. destruct (ROk pairs H) as [L N]. split; [lia|exact N].
  - intros A. destruct (V2Service_getAllPairs ch startIndex endIndex) as [ps|e] eqn:H.
    + exists ps. reflexivity.
    + destruct (T e eq_refl) as (i & Hi & Hf). destruct (A i Hi) as [p Hp].
      rewrite Hp in Hf. discriminate.
  - intros pairs H. unfold V2Service_getAllPairsAddresses, V2Service_getAllPairsLength in H.
    rewrite Hl in H. unfold Number_of_bigint in H. rewrite round64_integer in H by lia.
    rewrite Qfloor_Z in H.
    rewrite (getAllPairs_eq ch 0 len len Hl Hr) in H.
    pose proof (map_result_range (factory_allPairs ch) 0 (Z.to_nat (Z.min len len - 0)))
      as [R _].
    destruct (R pairs H) as [L _]. lia.
Qed.

Lemma getAllPairs_within_length_witness :
  let ch := example_chain 1000 2000 in
  V2Service_getAllPairs ch 0 10 = Ok ["0xdc1c3636cbc24ca479dd0178e814d0b173750517"]
  /\ forall pairs, V2Service_getAllPairsAddresses ch = Ok pairs ->
                   Z.of_nat (List.length pairs) = 1.
Proof.
  split; [reflexivity|].
  apply (getAllPairs_within_length (example_chain 1000 2000) 0 10 1);
    [reflexivity|lia|lia|lia].
Defined.

(** ** services/aggregatorService.ts *)

Lemma fold_worse_le_better (r : list DexQuote) (x : DexQuote) :
  amountOut (fold_left worse r x) <= amountOut (fold_left better r x).
Proof.
  destruct (fold_better_split r x) as (l1 & l2 & Heq & H1 & H2).
  destruct (fold_worse_split r x) as (m1 & m2 & Heq' & G1 & G2).
  assert (Hin : In (fold_left worse r x) (x :: r)) by (eapply split_In; exact Heq').
  rewrite Heq in Hin. apply in_app_or in Hin. destruct Hin as [Hin|[E|Hin]].
  - rewrite Forall_forall in H1. apply H1 in Hin. lia.
  - rewrite <- E. lia.
  - rewrite Forall_forall in H2. apply H2 in Hin. lia.
Qed.

Lemma fold_better_bounds (r : list DexQuote) (x q : DexQuote) :
  In q (x :: r) ->
  amountOut (fold_left worse r x) <= amountOut q <= amountOut (fold_left better r x).
Proof.
  intros Hin.
  destruct (fold_better_split r x) as (l1 & l2 & Heq & H1 & H2).
  destruct (fold_worse_split r x) as (m1 & m2 & Heq' & G1 & G2).
  rewrite Forall_forall in H1, H2, G1, G2. split.
  - rewrite Heq' in Hin. apply in_app_or in Hin. destruct Hin as [Hin|[E|Hin]].
    + apply G1 in Hin. lia.
    + rewrite <- E. lia.
    + apply G2 in Hin. lia.
  - rewrite Heq in Hin. apply in_app_or in Hin. destruct Hin as [Hin|[E|Hin]].
    + apply H1 in Hin. lia.
    + rewrite <- E. lia.
    + apply H2 in Hin. lia.
Qed.

(** X19.  The savings of an aggregated quote are never negative, whatever
    the venues answered, and they are zero exactly when every quote has the
    [amountOut] of the best one. *)
Theorem savings_never_negative w s tokenIn tokenOut amountIn l agg l' :
  getAggregatedQuote w s tokenIn tokenOut amountIn l = (Ok agg, l') ->
  0 <= absoluteAmount (savings agg)
  /\ (absoluteAmount (savings agg) = 0
      <-> Forall (fun q => amountOut q = amountOut (bestQuote agg)) (allQuotes agg)).
Proof.
  intros H. apply getAggregatedQuote_Ok_inv in H.
  destruct H as (first & tIn & tOut & l1 & l2 & _ & _ & qs & _ & Hagg).
  apply aggregate_Ok_inv in Hagg. destruct Hagg as (q & r & -> & _ & ->).
  cbn [savings absoluteAmount allQuotes bestQuote].
  pose proof (fold_worse_le_better r q) as Hle. split; [lia|]. split.
  - intros E. apply Forall_forall. intros x Hx.
    pose proof (fold_better_bounds r q x Hx). lia.
  - intros Hall. rewrite Forall_forall in Hall.
    destruct (fold_worse_split r q) as (m1 & m2 & Heq' & _ & _).
    apply split_In in Heq'. apply Hall in Heq'. lia.
Qed.

Lemma savings_never_negative_witness :
  exists agg,
    0 <= absoluteAmount (savings agg)
    /\ (absoluteAmount (savings agg) = 0
        <-> Forall (fun q => amountOut q = amountOut (bestQuote agg)) (allQuotes agg)).
Proof.
  destruct example_run as (agg & calls & H & _). exists agg.
  exact (savings_never_negative _ _ _ _ _ _ _ _ H).
Defined.

Lemma getAggregatedQuote_run w tokenIn tokenOut amountIn l tIn tOut l1 :
  par (Service_getTokenInfo w tokenIn) (Service_getTokenInfo w tokenOut) l
  = (Ok (tIn, tOut), l1) ->
  getAggregatedQuote w (new_AggregatorService w) tokenIn tokenOut amountIn l
  = (aggregate tIn tOut amountIn (merged_quotes w tokenIn tokenOut amountIn), l1).
Proof.
  intros Hpar. unfold getAggregatedQuote.
  change (firstAdapter (new_AggregatorService w))
    with (Some (V2DexAdapter (UNISWAP_V2_FORK1 (env w)))).
  cbv iota beta. unfold adapter_getTokenInfo, bind. rewrite Hpar.
  rewrite getAllQuotes_merge_order. reflexivity.
Qed.

Lemma aggregate_outcomes tIn tOut amountIn (qs : list DexQuote) :
  (qs = [] ->
   aggregate tIn tOut amountIn qs
   = Throw (Error "No liquidity found for this token pair on any DEX"))
  /\ (qs <> [] -> min_amountOut qs = 0 ->
      aggregate tIn tOut amountIn qs = Throw (RangeError "Division by zero"))
  /\ (qs <> [] -> min_amountOut qs <> 0 ->
      exists agg, aggregate tIn tOut amountIn qs = Ok agg /\ allQuotes agg = qs
                  /\ agg_tokenIn agg = tIn /\ agg_tokenOut agg = tOut).
Proof.
  unfold aggregate. destruct qs as [|q rest].
  - split; [reflexivity|]. split; intros N; congruence.
  - cbn [List.length Nat.eqb reduce]. rewrite fold_worse_min. unfold bigint_div.
    split; [discriminate|]. split; intros _ Hm.
    + rewrite Hm. reflexivity.
    + destruct (Z.eqb_spec (min_amountOut (q :: rest)) 0) as [|_]; [contradiction|].
      eexists. split; [reflexivity|]. repeat split.
Qed.

(** X20.  Once the two tokens are read, [getAggregatedQuote] has three
    outcomes.  Without any quote it throws "No liquidity found for this token
    pair on any DEX".  When the least [amountOut] is zero, it throws the
    [RangeError] of a division by zero, even if another venue quotes a
    positive amount.  Otherwise it returns an aggregated quote that lists
    the merged quotes. *)
Theorem getAggregatedQuote_outcomes w tokenIn tokenOut amountIn l tIn tOut l1 :
  par (Service_getTokenInfo w tokenIn) (Service_getTokenInfo w tokenOut) l
  = (Ok (tIn, tOut), l1) ->
  (merged_quotes w tokenIn tokenOut amountIn = [] ->
   fst (getAggregatedQuote w (new_AggregatorService w) tokenIn tokenOut amountIn l)
   = Throw (Error "No liquidity found for this token pair on any DEX"))
  /\ (merged_quotes w tokenIn tokenOut amountIn <> [] ->
      min_amountOut (merged_quotes w tokenIn tokenOut amountIn) = 0 ->
      fst (getAggregatedQuote w (new_AggregatorService w) tokenIn tokenOut amountIn l)
      = Throw (RangeError "Division by zero"))
  /\ (merged_quotes w tokenIn tokenOut amountIn <> [] ->
      min_amountOut (merged_quotes w tokenIn tokenOut amountIn) <> 0 ->
      exists agg,
        fst (getAggregatedQuote w (new_AggregatorService w) tokenIn tokenOut
               amountIn l) = Ok agg
        /\ allQuotes agg = merged_quotes w tokenIn tokenOut amountIn
        /\ agg_tokenIn agg = tIn /\ agg_tokenOut agg = tOut).
Proof.
  intros Hpar. rewrite (getAggregatedQuote_run _ _ _ _ _ _ _ _ Hpar). cbn [fst].
  apply aggregate_outcomes.
Qed.

Lemma getAggregatedQuote_outcomes_witness :
  exists agg,
    fst (getAggregatedQuote (example_world 1000000000 1002000000 1001000000 0)
           (new_AggregatorService (example_world 1000000000 1002000000 1001000000 0))
           WETH NATIVE_TOKEN_ADDRESS 1000000000000000 [])
    = Ok agg
    /\ allQuotes agg
       = merged_quotes (example_world 1000000000 1002000000 1001000000 0) WETH
           NATIVE_TOKEN_ADDRESS 1000000000000000.
Proof.
  pose (w := example_world 1000000000 1002000000 1001000000 0).
  destruct (par (Service_getTokenInfo w WETH) (Service_getTokenInfo w NATIVE_TOKEN_ADDRESS) [])
    as [r l1] eqn:E.
  assert (exists tIn tOut, r = Ok (tIn, tOut)) as (tIn & tOut & ->).
  { vm_compute in E. inversion E. eexists. eexists. reflexivity. }
  destruct (getAggregatedQuote_outcomes w WETH NATIVE_TOKEN_ADDRESS 1000000000000000
              [] tIn tOut l1 E) as (_ & _ & H).
  destruct H as (agg & H1 & H2 & _); [discriminate|discriminate|].
  exists agg. split; assumption.
Defined.

Lemma v2_contribution_wellformed w tokenIn tokenOut amountIn :
  Forall (fun q => adapter_quote (env w) q = true
                   /\ priceImpactWarning q = Some (getPriceImpactWarning (priceImpact q)))
         (v2_contribution w tokenIn tokenOut amountIn)
  /\ (List.length (v2_contribution w tokenIn tokenOut amountIn) <= 1)%nat.
Proof.
  unfold v2_contribution.
  destruct (v2_reads w (UNISWAP_V2_FORK1 (env w)) tokenIn tokenOut amountIn) as [r|e].
  - split; [|cbn; lia]. constructor; [|constructor]. split; [|reflexivity].
    unfold adapter_quote, v2_quote_of.
    cbn [dex dexName feeTier gasEstimate poolAddress is_some negb andb].
    rewrite String.eqb_refl. reflexivity.
  - split; [constructor|cbn; lia].
Qed.

Lemma v3_contribution_wellformed w tokenIn tokenOut amountIn fee :
  existsb (Z.eqb fee) DEFAULT_FEE_TIERS = true ->
  Forall (fun q => adapter_quote (env w) q = true
                   /\ priceImpactWarning q = Some (getPriceImpactWarning (priceImpact q)))
         (v3_contribution w tokenIn tokenOut amountIn fee)
  /\ (List.length (v3_contribution w tokenIn tokenOut amountIn fee) <= 1)%nat.
Proof.
  intros Hfee. unfold v3_contribution.
  destruct (v3_reads w (UNISWAP_V3_FORK1 (env w)) tokenIn tokenOut amountIn fee) as [r|e].
  - split; [|cbn; lia]. constructor; [|constructor]. split; [|reflexivity].
    unfold adapter_quote, v3_quote_of.
    cbn [dex dexName feeTier gasEstimate poolAddress is_some negb andb].
    rewrite String.eqb_refl, Hfee. reflexivity.
  - split; [constructor|cbn; lia].
Qed.

(** X21.  Every quote of an aggregated quote was built by an adapter: it
    carries a pool address and the warning that [getPriceImpactWarning] gives
    for its own price impact; a V2 quote bears the name of the V2 venue and
    neither fee tier nor gas estimate; a V3 quote bears the name of the V3
    venue, one of the fee tiers 100, 500, 3000, 10000 and a gas estimate.
    There are at most five quotes. *)
Theorem aggregated_quotes_wellformed w tokenIn tokenOut amountIn l agg l' :
  getAggregatedQuote w (new_AggregatorService w) tokenIn tokenOut amountIn l
  = (Ok agg, l') ->
  Forall (fun q => adapter_quote (env w) q = true
                   /\ priceImpactWarning q = Some (getPriceImpactWarning (priceImpact q)))
         (allQuotes agg)
  /\ (1 <= List.length (allQuotes agg) <= 5)%nat.
Proof.
  intros H. pose proof (getAggregatedQuote_allQuotes _ _ _ _ _ _ _ H) as Hq.
  apply getAggregatedQuote_Ok_inv in H.
  destruct H as (first & tIn & tOut & l1 & l2 & Hf & Hp & qs & Hqs & Hagg).
  apply aggregate_Ok_inv in Hagg. destruct Hagg as (q0 & r0 & Eqs & Hnz & Hshape).
  assert (Hne : (1 <= List.length (allQuotes agg))%nat).
  { rewrite Hshape. cbn [allQuotes]. rewrite Eqs. cbn. lia. }
  destruct (v2_contribution_wellformed w tokenIn tokenOut amountIn) as [F0 L0].
  destruct (v3_contribution_wellformed w tokenIn tokenOut amountIn 100 eq_refl) as [F1 L1].
  destruct (v3_contribution_wellformed w tokenIn tokenOut amountIn 500 eq_refl) as [F2 L2].
  destruct (v3_contribution_wellformed w tokenIn tokenOut amountIn 3000 eq_refl) as [F3 L3].
  destruct (v3_contribution_wellformed w tokenIn tokenOut amountIn 10000 eq_refl) as [F4 L4].
  split.
  - rewrite Hq. repeat (apply Forall_app; split); assumption.
  - split; [exact Hne|]. rewrite Hq, !length_app. lia.
Qed.

Lemma aggregated_quotes_wellformed_witness :
  exists agg,
    Forall (fun q => adapter_quote example_env q = true
                     /\ priceImpactWarning q = Some (getPriceImpactWarning (priceImpact q)))
           (allQuotes agg)
    /\ (1 <= List.length (allQuotes agg) <= 5)%nat.
Proof.
  destruct example_run as (agg & calls & H & _). exists agg.
  exact (aggregated_quotes_wellformed _ _ _ _ _ _ _ H).
Defined.

(** ** utils/priceImpact.ts *)

Lemma Qlt_bool_true (x y : Q) : Qlt_bool x y = true <-> (x < y)%Q.
Proof.
  unfold Qlt_bool. rewrite negb_true_iff. split.
  - intros H. apply Qnot_le_lt. intros Hle. apply Qle_bool_iff in Hle. congruence.
  - intros H. destruct (Qle_bool y x) eqn:E; [|reflexivity].
    apply Qle_bool_iff in E. exfalso. apply (Qlt_not_le _ _ H). exact E.
Qed.




(** ** api/routes/aggregatorRoutes.ts: POST /quote *)

Lemma resolve_decimals_inv w s tokenIn l d l' :
  resolve_decimals w s tokenIn l = (Ok (inl d), l') ->
  match getByAddress MAINNET_TOKENS tokenIn with
  | Some t => d = decimals t /\ l' = l
  | None =>
      exists t, AggregatorService_getTokenInfo w s tokenIn l = (Ok t, l')
                /\ d = decimals t
  end.
Proof.
  unfold resolve_decimals. destruct (getByAddress MAINNET_TOKENS tokenIn) as [t|].
  - intros H. apply ret_inv in H. destruct H as [H ->]. inversion H. auto.
  - intros H. apply try_catch_inv in H.
    destruct H as [(a & H & Ha)|(e & l1 & _ & H)].
    + injection Ha as <-.
      apply bind_Ok_inv in H. destruct H as (t & l1 & Ht & H).
      apply ret_inv in H. destruct H as [H ->]. injection H as ->.
      exists t. auto.
    + apply ret_inv in H. destruct H as [H _]. discriminate.
Qed.

(** A successful response went through every stage of the handler, with a
    request that passed the two checks. *)
Lemma post_quote_success_stages w req st data :
  fst (post_quote w req) = mkHttpResponse st (Success data) ->
  truthy (req_tokenIn req) = true /\ truthy (req_tokenOut req) = true
  /\ truthy (req_amountIn req) = true
  /\ Qlt_bool (slippage_of req) 0 = false /\ Qlt_bool 100 (slippage_of req) = false
  /\ exists tokenInDecimals amountInParsed quote l0 l1 l2,
       resolve_decimals w (new_AggregatorService w) (or_default (req_tokenIn req)) []
       = (Ok (inl tokenInDecimals), l0)
       /\ parseUnits (or_default (req_amountIn req)) tokenInDecimals = Ok amountInParsed
       /\ getAggregatedQuote w (new_AggregatorService w) (or_default (req_tokenIn req))
            (or_default (req_tokenOut req)) amountInParsed l0 = (Ok quote, l1)
       /\ respond w quote (or_default (req_tokenIn req)) (or_default (req_tokenOut req))
            (or_default (req_amountIn req)) amountInParsed (slippage_of req)
            (req_userAddress req) l1
          = (Ok (mkHttpResponse st (Success data)), l2).
Proof.
  intros Hfst. destruct (post_quote_fst w req) as (l' & H). rewrite Hfst in H.
  unfold post_quote_handler in H. apply try_catch_inv in H.
  destruct H as [(r & H & Hr)|(e & l1 & _ & H)];
    [|apply ret_inv in H; destruct H as [H _]; discriminate].
  inversion Hr; subst r. clear Hr. unfold post_quote_body in H.
  fold (slippage_of req) in H.
  destruct (truthy (req_tokenIn req));
    [|apply ret_inv in H; destruct H as [H _]; discriminate].
  destruct (truthy (req_tokenOut req));
    [|apply ret_inv in H; destruct H as [H _]; discriminate].
  destruct (truthy (req_amountIn req));
    [|apply ret_inv in H; destruct H as [H _]; discriminate].
  cbn [negb orb] in H.
  destruct (Qlt_bool (slippage_of req) 0);
    [apply ret_inv in H; destruct H as [H _]; discriminate|].
  destruct (Qlt_bool 100 (slippage_of req));
    [apply ret_inv in H; destruct H as [H _]; discriminate|].
  cbn [orb] in H.
  apply bind_Ok_inv in H. destruct H as (d & l1 & Hd & H).
  pose proof (resolve_decimals_returns _ _ _ _ _ _ Hd) as Hdr. destruct d as [dec|resp].
  - unfold quote_for_amount in H.
    apply bind_Ok_inv in H. destruct H as (amt & l2 & Hp & H).
    apply lift_inv in Hp. destruct Hp as [Hp ->].
    apply bind_Ok_inv in H. destruct H as (quote & l3 & Hq & H).
    repeat split; try reflexivity. exists dec, amt, quote, l1, l3, l'. auto.
  - destruct Hdr as (msg & ->). apply ret_inv in H. destruct H as [H _]. discriminate.
Qed.



Lemma format_quote_inv w quote tokenIn tokenOut ua amountInParsed bps deadline isNative
    q la y lb :
  format_quote w quote tokenIn tokenOut ua amountInParsed bps deadline isNative q la
  = (Ok y, lb) ->
  exists ra cd v b l1,
    build_swap w q tokenIn tokenOut amountInParsed (min_amount_out (amountOut q) bps)
      deadline isNative = Ok (ra, cd, v)
    /\ checkApprovalNeeded w isNative ua tokenIn amountInParsed ra l1 = (Ok b, lb)
    /\ y = route_json q (decimals (agg_tokenOut quote))
             (mkTransactionJson ra cd v ZERO_ADDRESS)
             (approval_json b (symbol (agg_tokenIn quote)) ua tokenIn ra amountInParsed).
Proof.
  unfold format_quote. intros H.
  apply bind_Ok_inv in H. destruct H as ([[ra cd] v] & l1 & Hb & H).
  apply lift_inv in Hb. destruct Hb as [Hb ->].
  apply bind_Ok_inv in H. destruct H as (b & l2 & Hc & H).
  apply ret_inv in H. destruct H as [H ->]. inversion H; subst y.
  exists ra, cd, v, b, la. auto.
Qed.

(** The data of a successful response, in full. *)
Lemma respond_data w quote tokenIn tokenOut amountIn amountInParsed slippage ua l r l' :
  respond w quote tokenIn tokenOut amountIn amountInParsed slippage ua l = (Ok r, l') ->
  let bps := slippage_bps slippage in
  let minimumAmountOut := min_amount_out (amountOut (bestQuote quote)) bps in
  let deadline := Qfloor (number_div (Number_of_bigint (Date_now w)) 1000%Q) + 1800 in
  exists ra cd v fq b lc,
    build_swap w (bestQuote quote) tokenIn tokenOut amountInParsed minimumAmountOut
      deadline (isNativeToken tokenIn) = Ok (ra, cd, v)
    /\ Forall2 (fun q y => exists la lb,
                  format_quote w quote tokenIn tokenOut ua amountInParsed bps deadline
                    (isNativeToken tokenIn) q la = (Ok y, lb))
               (allQuotes quote) fq
    /\ checkApprovalNeeded w (isNativeToken tokenIn) ua tokenIn amountInParsed ra lc
       = (Ok b, l')
    /\ exists data,
         r = mkHttpResponse 200 (Success data)
         /\ d_bestRoute data
            = route_json (bestQuote quote) (decimals (agg_tokenOut quote))
                (mkTransactionJson ra cd v ZERO_ADDRESS)
                (approval_json b (symbol (agg_tokenIn quote)) ua tokenIn ra amountInParsed)
         /\ d_allQuotes data = fq
         /\ ta_amountWei (d_tokenOut data) = bigint_toString (amountOut (bestQuote quote))
         /\ ta_amountWei (d_tokenIn data) = bigint_toString amountInParsed
         /\ ta_amount (d_tokenIn data) = amountIn
         /\ d_minimumAmountOutWei data = bigint_toString minimumAmountOut.
Proof.
  unfold respond. fold (slippage_bps slippage). intros H. cbv zeta.
  apply bind_Ok_inv in H. destruct H as ([[ra cd] v] & l1 & Hb & H).
  apply lift_inv in Hb. destruct Hb as [Hb ->].
  apply bind_Ok_inv in H. destruct H as (fq & l2 & Hfq & H).
  apply bind_Ok_inv in H. destruct H as (b & l3 & Hc & H).
  apply ret_inv in H. destruct H as [H ->]. inversion H; subst r. clear H.
  exists ra, cd, v, fq, b, l2. split; [symmetry; exact Hb|].
  split; [eapply promise_all_Ok_inv; exact Hfq|]. split; [exact Hc|].
  eexists. split; [reflexivity|]. cbn. repeat split.
Qed.

Lemma Forall2_map_eq {A B C : Type} (R : A -> B -> Prop) (f : A -> C) (g : B -> C)
    (xs : list A) (ys : list B) :
  Forall2 R xs ys -> (forall x y, R x y -> g y = f x) -> map g ys = map f xs.
Proof. induction 1; intros H'; cbn; [reflexivity|]. f_equal; auto. Qed.


(** X23.  A successful response lists one route per merged quote, in the
    order of the merge (the V2 venue, then the V3 fee tiers 100, 500, 3000,
    10000), each with the venue, the fee tier, the amount and the pool of
    its quote; the best route and [tokenOut.amountWei] carry the greatest of
    these amounts. *)
Theorem routes_mirror_quotes w req st data :
  fst (post_quote w req) = mkHttpResponse st (Success data) ->
  exists tokenInDecimals amountInParsed,
    parseUnits (or_default (req_amountIn req)) tokenInDecimals = Ok amountInParsed
    /\ let qs := merged_quotes w (or_default (req_tokenIn req))
                   (or_default (req_tokenOut req)) amountInParsed in
       map route_summary (d_allQuotes data) = map quote_summary qs
       /\ r_amountOutWei (d_bestRoute data) = bigint_toString (max_amountOut qs)
       /\ ta_amountWei (d_tokenOut data) = bigint_toString (max_amountOut qs).
Proof.
  intros H. apply post_quote_success_stages in H.
  destruct H as (_ & _ & _ & _ & _ & dec & amt & quote & l0 & l1 & l2 & _ & Hp & Hq & Hr).
  exists dec, amt. split; [exact Hp|]. cbv zeta.
  pose proof (getAggregatedQuote_allQuotes _ _ _ _ _ _ _ Hq) as Hall.
  fold (merged_quotes w (or_default (req_tokenIn req)) (or_default (req_tokenOut req)) amt)
    in Hall.
  assert (Hbest : amountOut (bestQuote quote)
                  = max_amountOut (merged_quotes w (or_default (req_tokenIn req))
                                     (or_default (req_tokenOut req)) amt)).
  { apply getAggregatedQuote_Ok_inv in Hq.
    destruct Hq as (first & tIn & tOut & la & lb & Hf & Hpar & qs & Hqs & Hagg).
    apply aggregate_Ok_inv in Hagg. destruct Hagg as (q & r & Eqs & Hnz & Hshape).
    rewrite <- Hall, Hshape. cbn [bestQuote allQuotes]. rewrite Eqs.
    apply fold_better_max. }
  apply respond_data in Hr. cbv zeta in Hr.
  destruct Hr as (ra & cd & v & fq & b & lc & Hb & Hfq & Hc & data' & E & Hbr & Haq
                  & Hout & _).
  inversion E; subst data'. clear E. rewrite Haq, Hbr, Hout.
  unfold route_json. cbn [r_amountOutWei]. rewrite Hbest.
  split; [|split; reflexivity]. rewrite <- Hall.
  eapply Forall2_map_eq; [exact Hfq|].
  intros q y (la & lb & Hy). apply format_quote_inv in Hy.
  destruct Hy as (ra' & cd' & v' & b' & l1' & _ & _ & ->). reflexivity.
Qed.

Lemma routes_mirror_quotes_witness :
  exists data tokenInDecimals amountInParsed,
    parseUnits "0.001" tokenInDecimals = Ok amountInParsed
    /\ map route_summary (d_allQuotes data)
       = map quote_summary
           (merged_quotes (example_world 1000000000 1002000000 1001000000 0) WETH
              NATIVE_TOKEN_ADDRESS amountInParsed).
Proof.
  destruct example_erc20_response as (data & H). exists data.
  destruct (routes_mirror_quotes _ _ _ _ H) as (dec & amt & Hp & Hm & _).
  exists dec, amt. split; [exact Hp|exact Hm].
Defined.

Lemma getAggregatedQuote_best_In w s tokenIn tokenOut amountIn l agg l' :
  getAggregatedQuote w s tokenIn tokenOut amountIn l = (Ok agg, l') ->
  In (bestQuote agg) (allQuotes agg).
Proof.
  intros H. apply getAggregatedQuote_Ok_inv in H.
  destruct H as (first & tIn & tOut & l1 & l2 & _ & _ & qs & _ & Hagg).
  apply aggregate_Ok_inv in Hagg. destruct Hagg as (q & r & -> & _ & ->).
  cbn [bestQuote allQuotes].
  destruct (fold_better_split r q) as (a & b & Heq & _ & _).
  eapply split_In. exact Heq.
Qed.



Lemma Qlt_bool_false_inv (x y : Q) : Qlt_bool x y = false -> (y <= x)%Q.
Proof.
  intros H. apply Qnot_lt_le. intros N. apply Qlt_bool_true in N. congruence.
Qed.

Lemma merged_quotes_not_negative w tokenIn tokenOut amountIn :
  amounts_not_negative w ->
  Forall (fun q => 0 <= amountOut q) (merged_quotes w tokenIn tokenOut amountIn).
Proof.
  intros [H2 H3]. unfold merged_quotes, v2_contribution, v3_contribution.
  repeat (apply Forall_app; split);
    match goal with
    | |- Forall _ (match ?x with _ => _ end) => destruct x eqn:E
    end; constructor; try constructor; cbn [v2_quote_of v3_quote_of amountOut];
    eauto.
Qed.

(** X25.  In a successful response, when the venues answer no negative
    amount, [minimumAmountOutWei] is the number that
    [calculateMinimumAmountOut] gives for the best amount and the slippage of
    the request; it lies between 0 and the best amount, [tokenOut.amountWei]. *)
Theorem minimum_amount_within_best w req st data :
  amounts_not_negative w ->
  fst (post_quote w req) = mkHttpResponse st (Success data) ->
  exists best,
    ta_amountWei (d_tokenOut data) = bigint_toString best
    /\ d_minimumAmountOutWei data
       = bigint_toString (calculateMinimumAmountOut best (slippage_of req))
    /\ 0 <= calculateMinimumAmountOut best (slippage_of req) <= best.
Proof.
  intros Hw H. apply post_quote_success_stages in H.
  destruct H as (_ & _ & _ & Hs0 & Hs1 & dec & amt & quote & l0 & l1 & l2 & _ & Hp & Hq
                 & Hr).
  pose proof (getAggregatedQuote_best_In _ _ _ _ _ _ _ _ Hq) as Hin.
  pose proof (getAggregatedQuote_allQuotes _ _ _ _ _ _ _ Hq) as Hall.
  fold (merged_quotes w (or_default (req_tokenIn req)) (or_default (req_tokenOut req)) amt)
    in Hall.
  assert (Hbest : 0 <= amountOut (bestQuote quote)).
  { pose proof (merged_quotes_not_negative w (or_default (req_tokenIn req))
                  (or_default (req_tokenOut req)) amt Hw) as Hnn.
    rewrite <- Hall in Hnn. rewrite Forall_forall in Hnn. apply Hnn. exact Hin. }
  apply respond_data in Hr. cbv zeta in Hr.
  destruct Hr as (ra & cd & v & fq & b & lc & _ & _ & _ & data' & E & _ & _ & Hout & _ & _
                  & Hmin).
  inversion E; subst data'. clear E.
  exists (amountOut (bestQuote quote)). split; [exact Hout|]. split; [exact Hmin|].
  apply Qlt_bool_false_inv in Hs0, Hs1.
  apply (slippage_keeps_amounts_in_range_aux _ _ Hbest Hs0 Hs1).
Qed.

Lemma example_amounts_not_negative (a b c d : Z) :
  0 <= a -> 0 <= b -> 0 <= c -> amounts_not_negative (example_world a b c d).
Proof.
  intros Ha Hb Hc. split.
  - intros config tIn tOut amt r H. cbn in H. injection H as <-. exact Ha.
  - intros config tIn tOut amt fee r H. cbn in H.
    destruct (fee =? 500); [injection H as <-; exact Hb|].
    destruct (fee =? 3000); [injection H as <-; exact Hc|discriminate].
Qed.

Lemma minimum_amount_within_best_witness :
  exists data best,
    ta_amountWei (d_tokenOut data) = bigint_toString best
    /\ d_minimumAmountOutWei data
       = bigint_toString (calculateMinimumAmountOut best (1 # 2))
    /\ 0 <= calculateMinimumAmountOut best (1 # 2) <= best.
Proof.
  destruct example_erc20_response as (data & H). exists data.
  apply (minimum_amount_within_best _ _ _ _
           (example_amounts_not_negative 1000000000 1002000000 1001000000 0
              ltac:(lia) ltac:(lia) ltac:(lia)) H).
Defined.

Lemma getTokenInfo_decimals w a l t l' :
  Service_getTokenInfo w a l = (Ok t, l') ->
  exists z, erc20_decimals w (checksumAddress w a) = Ok z /\ decimals t = Z.to_nat z.
Proof.
  unfold Service_getTokenInfo. intros H.
  apply bind_Ok_inv in H. destruct H as (addr & l1 & Ha & H).
  apply lift_inv in Ha. destruct Ha as [Ha ->]. symmetry in Ha.
  apply validateAddress_Ok_inv in Ha. destruct Ha as [-> _].
  apply bind_Ok_inv in H. destruct H as ([n [sy d]] & l2 & Hpar & H).
  apply ret_inv in H. destruct H as [H ->]. injection H as ->.
  apply par_Ok_inv in Hpar. destruct Hpar as (l3 & _ & Hpar).
  apply par_Ok_inv in Hpar. destruct Hpar as (l4 & _ & Hd).
  unfold read in Hd. injection Hd as Hd _. exists d. split; [exact Hd|reflexivity].
Qed.

(** X26.  The amount of a request is parsed with the decimals of the
    registry when the registry knows [tokenIn] (in any letter case), whatever
    the token contract says; only for a token the registry does not know is
    [decimals()] of the contract used. *)
Theorem amount_parsed_with_registry_decimals w req st data :
  fst (post_quote w req) = mkHttpResponse st (Success data) ->
  exists tokenInDecimals amountInParsed,
    parseUnits (or_default (req_amountIn req)) tokenInDecimals = Ok amountInParsed
    /\ ta_amountWei (d_tokenIn data) = bigint_toString amountInParsed
    /\ ta_amount (d_tokenIn data) = or_default (req_amountIn req)
    /\ match getByAddress MAINNET_TOKENS (or_default (req_tokenIn req)) with
       | Some known => tokenInDecimals = decimals known
       | None =>
           exists z,
             erc20_decimals w (checksumAddress w (or_default (req_tokenIn req))) = Ok z
             /\ tokenInDecimals = Z.to_nat z
       end.
Proof.
  intros H. apply post_quote_success_stages in H.
  destruct H as (_ & _ & _ & _ & _ & dec & amt & quote & l0 & l1 & l2 & Hd & Hp & Hq & Hr).
  exists dec, amt. split; [exact Hp|].
  apply respond_data in Hr. cbv zeta in Hr.
  destruct Hr as (ra & cd & v & fq & b & lc & _ & _ & _ & data' & E & _ & _ & _ & Hin & Ham
                  & _).
  inversion E; subst data'. clear E. split; [exact Hin|]. split; [exact Ham|].
  apply resolve_decimals_inv in Hd.
  destruct (getByAddress MAINNET_TOKENS (or_default (req_tokenIn req))) as [known|].
  - tauto.
  - destruct Hd as (t & Ht & ->). unfold AggregatorService_getTokenInfo in Ht.
    change (firstAdapter (new_AggregatorService w))
      with (Some (V2DexAdapter (UNISWAP_V2_FORK1 (env w)))) in Ht.
    unfold adapter_getTokenInfo in Ht. apply getTokenInfo_decimals in Ht.
    destruct Ht as (z & Hz & ->). exists z. auto.
Qed.

Lemma amount_parsed_with_registry_decimals_witness :
  exists data amountInParsed,
    parseUnits "0.001" 18 = Ok amountInParsed
    /\ ta_amountWei (d_tokenIn data) = bigint_toString amountInParsed.
Proof.
  destruct example_erc20_response as (data & H). exists data.
  destruct (amount_parsed_with_registry_decimals _ _ _ _ H)
    as (dec & amt & Hp & Hw & _ & Hd).
  exists amt. change (getByAddress MAINNET_TOKENS
                        (or_default (req_tokenIn (example_request WETH NATIVE_TOKEN_ADDRESS None))))
    with (Some (mkToken WETH "WETH" "Wrapped Ether" 18 false)) in Hd.
  cbn [decimals] in Hd. subst dec. split; assumption.
Defined.

(** X27.  A request that fails one of the two checks is answered 400 before
    anything is read from the chain: without [tokenIn], [tokenOut] or
    [amountIn] (absent or empty) the error is "tokenIn, tokenOut, and
    amountIn are required"; with the three and a slippage below 0 or above
    100 it is "slippage must be between 0 and 100".  No ERC-20 call is
    issued. *)
Theorem rejected_requests_read_nothing (w : World) (req : QuoteRequest) :
  (truthy (req_tokenIn req) && truthy (req_tokenOut req) && truthy (req_amountIn req)
   = false ->
   post_quote w req
   = (bad_request "tokenIn, tokenOut, and amountIn are required", []))
  /\ (truthy (req_tokenIn req) && truthy (req_tokenOut req) && truthy (req_amountIn req)
      = true ->
      (slippage_of req < 0)%Q \/ (100 < slippage_of req)%Q ->
      post_quote w req = (bad_request "slippage must be between 0 and 100", [])).
Proof.
  unfold post_quote, post_quote_handler, post_quote_body, try_catch.
  fold (slippage_of req).
  destruct (truthy (req_tokenIn req)), (truthy (req_tokenOut req)),
    (truthy (req_amountIn req)); cbn [andb negb orb];
    (split; [try discriminate; reflexivity|]); try discriminate.
  intros _ Hs.
  assert (E : Qlt_bool (slippage_of req) 0 || Qlt_bool 100 (slippage_of req) = true).
  { apply orb_true_iff. destruct Hs as [Hs|Hs]; [left|right]; apply Qlt_bool_true; exact Hs. }
  rewrite E. reflexivity.
Qed.

(** *** The calls a request causes *)


Section Quiet.
Context (P : Call -> Prop).



End Quiet.

Section Calls.
Context (w : World) (tokenIn tokenOut : string) (userAddress : option string).

Let P (c : Call) : Prop := expected_call w tokenIn tokenOut userAddress c = true.






End Calls.



(** ** api/routes/aggregatorRoutes.ts: POST /build-tx *)

Lemma resolve_decimals_tx_inl w s tokenIn l d l' :
  resolve_decimals_tx w s tokenIn l = (Ok (inl d), l') ->
  resolve_decimals w s tokenIn l = (Ok (inl d), l').
Proof.
  unfold resolve_decimals_tx, resolve_decimals.
  destruct (getByAddress MAINNET_TOKENS tokenIn) as [known|].
  - unfold ret. intros H. injection H as -> ->. reflexivity.
  - unfold try_catch, bind, ret.
    destruct (AggregatorService_getTokenInfo w s tokenIn l) as [[tok|e] l1];
      intros H; [injection H as -> ->; reflexivity|discriminate H].
Qed.

Lemma resolve_decimals_tx_returns w s tokenIn :
  returns (fun d => match d with
                    | inl _ => True
                    | inr r => exists msg, r = tx_bad_request msg
                    end)
          (resolve_decimals_tx w s tokenIn).
Proof.
  unfold resolve_decimals_tx. destruct (getByAddress MAINNET_TOKENS tokenIn).
  - apply returns_ret. exact I.
  - apply returns_try_catch.
    + apply returns_bind. intros t. apply returns_ret. exact I.
    + intros e. apply returns_ret. eexists. reflexivity.
Qed.

Lemma build_tx_handler_total w dep s req l :
  exists r l', build_tx_handler w dep s req l = (Ok r, l').
Proof.
  unfold build_tx_handler, try_catch.
  destruct (build_tx_body w dep s req l) as [[r|e] l1]; eexists; eexists; reflexivity.
Qed.

Lemma post_build_tx_fst w dep req :
  exists l', build_tx_handler w dep (new_AggregatorService w) req []
             = (Ok (fst (post_build_tx w dep req)), l').
Proof.
  unfold post_build_tx.
  destruct (build_tx_handler_total w dep (new_AggregatorService w) req [])
    as (r & l' & H).
  rewrite H. exists l'. reflexivity.
Qed.

(** A successful POST /build-tx went through every stage of its handler. *)
Lemma post_build_tx_success_stages w dep req st data :
  fst (post_build_tx w dep req) = mkBuildTxResponse st (TxSuccess data) ->
  truthy (bt_tokenIn req) = true /\ truthy (bt_tokenOut req) = true
  /\ truthy (bt_amountIn req) = true
  /\ Qlt_bool (slippage_of (quote_request_of req None)) 0 = false
  /\ Qlt_bool 100 (slippage_of (quote_request_of req None)) = false
  /\ exists tokenInDecimals amountInParsed quote l0 l1 deadline calldata,
       resolve_decimals w (new_AggregatorService w) (or_default (bt_tokenIn req)) []
       = (Ok (inl tokenInDecimals), l0)
       /\ parseUnits (or_default (bt_amountIn req)) tokenInDecimals = Ok amountInParsed
       /\ getAggregatedQuote w (new_AggregatorService w) (or_default (bt_tokenIn req))
            (or_default (bt_tokenOut req)) amountInParsed l0 = (Ok quote, l1)
       /\ generateSwapCalldata dep (bestQuote quote) (or_default (bt_tokenIn req))
            (or_default (bt_tokenOut req)) amountInParsed
            (calculateMinimumAmountOut (amountOut (bestQuote quote))
               (slippage_of (quote_request_of req None))) deadline = Ok calldata
       /\ st = 200
       /\ data
          = mkBuildTxData (aggregator_address dep) calldata "0"
              (mkBuildTxRoute (dex (bestQuote quote)) (feeTier (bestQuote quote))
                 (bigint_toString (amountOut (bestQuote quote)))
                 (bigint_toString
                    (calculateMinimumAmountOut (amountOut (bestQuote quote))
                       (slippage_of (quote_request_of req None)))))
              (mkBuildTxApproval (or_default (bt_tokenIn req)) (aggregator_address dep)
                 (bigint_toString amountInParsed)).
Proof.
  intros Hfst. destruct (post_build_tx_fst w dep req) as (l' & H). rewrite Hfst in H.
  unfold build_tx_handler in H. apply try_catch_inv in H.
  destruct H as [(r & H & Hr)|(e & l1 & _ & H)];
    [|apply ret_inv in H; destruct H as [H _]; discriminate].
  inversion Hr; subst r. clear Hr. unfold build_tx_body in H.
  unfold slippage_of, quote_request_of. cbn [req_slippage].
  destruct (truthy (bt_tokenIn req));
    [|apply ret_inv in H; destruct H as [H _]; discriminate].
  destruct (truthy (bt_tokenOut req));
    [|apply ret_inv in H; destruct H as [H _]; discriminate].
  destruct (truthy (bt_amountIn req));
    [|apply ret_inv in H; destruct H as [H _]; discriminate].
  cbn [negb orb] in H.
  set (slippage := match bt_slippage req with Some x => x | None => (1 # 2)%Q end) in *.
  destruct (Qlt_bool slippage 0);
    [apply ret_inv in H; destruct H as [H _]; discriminate|].
  destruct (Qlt_bool 100 slippage);
    [apply ret_inv in H; destruct H as [H _]; discriminate|].
  cbn [orb] in H.
  apply bind_Ok_inv in H. destruct H as (d & l1 & Hd & H).
  pose proof (resolve_decimals_tx_returns _ _ _ _ _ _ Hd) as Hdr. destruct d as [dec|resp].
  - apply resolve_decimals_tx_inl in Hd. unfold build_tx_for_amount in H.
    apply bind_Ok_inv in H. destruct H as (amt & l2 & Hp & H).
    apply lift_inv in Hp. destruct Hp as [Hp ->].
    apply bind_Ok_inv in H. destruct H as (best & l3 & Hq & H).
    unfold getBestQuote in Hq. apply bind_Ok_inv in Hq.
    destruct Hq as (quote & l4 & Hq & Hbest).
    apply ret_inv in Hbest. destruct Hbest as [Hbest ->]. injection Hbest as ->.
    apply bind_Ok_inv in H. destruct H as (dl & l5 & Hdl & H).
    apply bind_Ok_inv in H. destruct H as (cd & l6 & Hcd & H).
    apply lift_inv in Hcd. destruct Hcd as [Hcd _].
    apply ret_inv in H. destruct H as [H _]. injection H as -> ->.
    repeat split; try reflexivity.
    exists dec, amt, quote, l1, l4, dl, cd. repeat split; auto.
  - destruct Hdr as (msg & ->). apply ret_inv in H. destruct H as [H _]. discriminate.
Qed.

(** X29.  POST /build-tx and POST /quote agree on the swap.  When both
    succeed for the same [tokenIn], [tokenOut], [amountIn] and slippage, the
    route of /build-tx has the venue and the fee tier of the best route of
    /quote, its [expectedAmountOut] is [tokenOut.amountWei], its
    [minimumAmountOut] is [minimumAmountOutWei], and the amount to approve is
    [tokenIn.amountWei]. *)
Theorem build_tx_agrees_with_quote w dep req userAddress st data st' qdata :
  fst (post_build_tx w dep req) = mkBuildTxResponse st (TxSuccess data) ->
  fst (post_quote w (quote_request_of req userAddress))
  = mkHttpResponse st' (Success qdata) ->
  br_dex (bd_bestRoute data) = r_dex (d_bestRoute qdata)
  /\ br_feeTier (bd_bestRoute data) = r_feeTier (d_bestRoute qdata)
  /\ br_expectedAmountOut (bd_bestRoute data) = ta_amountWei (d_tokenOut qdata)
  /\ br_minimumAmountOut (bd_bestRoute data) = d_minimumAmountOutWei qdata
  /\ ba_amount (bd_approvalNeeded data) = ta_amountWei (d_tokenIn qdata).
Proof.
  intros Ht Hq. apply post_build_tx_success_stages in Ht.
  destruct Ht as (_ & _ & _ & _ & _ & dec & amt & quote & l0 & l1 & dl & cd & Hd & Hp & Hag
                  & _ & _ & ->).
  apply post_quote_success_stages in Hq.
  destruct Hq as (_ & _ & _ & _ & _ & dec' & amt' & quote' & l0' & l1' & l2' & Hd' & Hp'
                  & Hag' & Hr).
  cbn [quote_request_of req_tokenIn req_tokenOut req_amountIn req_userAddress] in *.
  rewrite Hd in Hd'. injection Hd' as <- <-.
  rewrite Hp in Hp'. injection Hp' as <-.
  rewrite Hag in Hag'. injection Hag' as <- <-.
  apply respond_data in Hr. cbv zeta in Hr.
  destruct Hr as (ra & cd' & v & fq & b & lc & _ & _ & _ & data' & E & Hbr & _ & Hout & Hin
                  & _ & Hmin).
  inversion E; subst data'. clear E.
  rewrite Hbr, Hout, Hin, Hmin. cbn. repeat split.
Qed.

Lemma example_build_tx_response :
  exists data,
    fst (post_build_tx (example_world 1000000000 1002000000 1001000000 0)
           example_deployment (example_build_tx_request WETH NATIVE_TOKEN_ADDRESS))
    = mkBuildTxResponse 200 (TxSuccess data).
Proof. eexists. vm_compute. reflexivity. Defined.

Lemma build_tx_agrees_with_quote_witness :
  exists data qdata,
    br_expectedAmountOut (bd_bestRoute data) = ta_amountWei (d_tokenOut qdata)
    /\ br_minimumAmountOut (bd_bestRoute data) = d_minimumAmountOutWei qdata.
Proof.
  destruct example_build_tx_response as (data & H).
  destruct example_erc20_response as (qdata & Hq).
  exists data, qdata.
  destruct (build_tx_agrees_with_quote _ _ _ None _ _ _ _ H Hq) as (_ & _ & A & B & _).
  split; assumption.
Defined.


